(** * Separating a multi-device graph into single-device graphs

    A shallow embedding of
    [paddle/fluid/framework/details/multi_devices_helper.cc]:
    the device classification of op handles ([GetScopeIdxFromOp],
    [GetUniqueDeviceIdOfOp]), the program scan ([ContainMultiDeviceOp]),
    the separation pass ([TrySeparateToMultipleSingleDeviceGraphs]) and the
    read-op scans ([HasDropLastReadOp], [HasKeepLastReadOp]).

    Pointers are modelled by their addresses (integers), [size_t]
    values by integers with the 64-bit wrap-around written out, hash maps
    and hash sets by finite maps and sets, and the graph mutated by the pass
    by explicit state passing. *)

From Stdlib Require Import ZArith.
From stdpp Require Import base decidable countable gmap strings list sorting.

#[local] Set Warnings "-clear-no-such-hyp".

Local Open Scope string_scope.
Local Open Scope list_scope.
Local Open Scope Z_scope.

(** ** Machine integers *)

(** [size_t] is 64 bits wide; arithmetic on it wraps around. *)
Definition size_t_wrap (z : Z) : Z := z `mod` 2 ^ 64.

(** A value that fits a [size_t]. *)
Definition is_size_t (z : Z) : Prop := 0 ≤ z < 2 ^ 64.

(** [static constexpr size_t kUndefinedDevIdx = -1UL;] *)
Definition kUndefinedDevIdx : Z := size_t_wrap (-1).

(** ** Pointers *)

Definition NodePtr := Z.
Definition OpPtr := Z.
Definition VarPtr := Z.

(** ** Operators, op handles and var handles

    The classes of operators and handles are declared in headers that are
    not part of the sources; they are modelled with the fields that the
    file reads. *)

(** Modelled from the spec: the value of an operator attribute, which is
    kept in the attribute map of the operator (declared outside the
    sources). *)
Inductive Attribute :=
| BoolAttr (b : bool)
| IntAttr (z : Z)
| StringAttr (s : string).

(** Modelled from the spec: the operator that
    [ComputationOpHandle::GetOp()] points to (the class is declared outside
    the sources), with its type name and its attribute map. *)
Record OperatorBase := {
  OpType : string;
  OpAttrs : gmap string Attribute
}.

(** Modelled from the spec: the kinds of operator nodes (the classes are
    declared outside the sources).  These are the subclasses of
    [OpHandleBase] that the [dynamic_cast]s of the file tell apart, with the
    scope index they record; every other subclass is [OtherOpHandle]. *)
Inductive OpHandleKind :=
| ComputationOpHandle (op : OperatorBase) (scope_idx : Z)
| EagerDeletionOpHandle (scope_idx : Z)
| ShareTensorBufferOpHandle (scope_idx : Z)
| OtherOpHandle.

(** Modelled from the spec: the kinds of variable nodes (the classes are
    declared outside the sources): a named variable with its recorded scope
    index, or a dummy variable that only carries a dependency. *)
Inductive VarHandleKind :=
| VarHandle (name : string) (scope_idx : Z)
| DummyVarHandle.

(** Modelled from the spec: a variable handle (the class is declared
    outside the sources), with its node, the op that generates it, if any,
    and the ops pending on it. *)
Record VarHandleBase := {
  var_this : VarPtr;             (* the address of the handle *)
  var_Node : NodePtr;            (* [Node()] *)
  var_kind : VarHandleKind;
  GeneratedOp : option OpPtr;    (* [nullptr] is [None] *)
  PendingOps : list OpPtr
}.

(** Modelled from the spec: an op handle (the class is declared outside the
    sources), with its node and its input and output variables.  The
    handles are not changed by the file, so that an op holds its variables
    by value. *)
Record OpHandleBase := {
  op_this : OpPtr;               (* the address of the handle *)
  op_Node : NodePtr;             (* [Node()] *)
  op_kind : OpHandleKind;
  Inputs : list VarHandleBase;
  Outputs : list VarHandleBase
}.

(** Modelled from the spec: [GetScopeIdx()], which the three handle classes
    bound to a scope have (declared outside the sources). *)
Definition GetScopeIdx (k : OpHandleKind) : option Z :=
  match k with
  | ComputationOpHandle _ scope_idx => Some scope_idx
  | EagerDeletionOpHandle scope_idx => Some scope_idx
  | ShareTensorBufferOpHandle scope_idx => Some scope_idx
  | OtherOpHandle => None
  end.

(** ** Program descriptions *)

(** Modelled from the spec: an operator descriptor (the class is declared
    outside the sources); the file reads its type name only. *)
Record OpDesc := { DescType : string }.

(** Modelled from the spec: a block (the class is declared outside the
    sources), which holds a linear list of operator descriptors. *)
Record BlockDesc := { AllOps : list OpDesc }.

(** Modelled from the spec: a program description (the class is declared
    outside the sources) is the sequence of its blocks; block 0 is the
    top-level one. *)
Definition ProgramDesc := list BlockDesc.

(** ** The multi-device operator set *)

Definition kMultiDeviceOps : gset string :=
  list_to_set [
    "sync_batch_norm";
    "sync_batch_norm_grad";
    "allreduce";
    "c_allreduce_sum";
    "c_allreduce_prod";
    "c_allreduce_min";
    "c_allreduce_max";
    "c_allgather";
    "c_reducescatter";
    "c_broadcast";
    "c_comm_init";
    "c_comm_init_all";
    "c_gen_nccl_id";
    "c_sync_comm_stream";
    "send";
    "recv";
    "send_barrier";
    "fetch_barrier"
  ].

(** [kMultiDeviceOps.count(type)]: 0 or 1. *)
Definition kMultiDeviceOps_count (type : string) : Z :=
  if bool_decide (type ∈ kMultiDeviceOps) then 1 else 0.

(** ** Device classification *)

Definition GetScopeIdxFromOp (op : OpHandleBase) : Z :=
  match op_kind op with
  | ComputationOpHandle compute_op scope_idx =>
      if kMultiDeviceOps_count (OpType compute_op) =? 0
      then scope_idx
      else kUndefinedDevIdx
  | EagerDeletionOpHandle scope_idx => scope_idx
  | ShareTensorBufferOpHandle scope_idx => scope_idx
  | OtherOpHandle => kUndefinedDevIdx
  end.

(** The outer loop runs over the blocks from [begin_block_idx] to the end of
    the program, the inner one over the ops of the block. *)
Definition ContainMultiDeviceOp (program : ProgramDesc)
    (begin_block_idx : nat) : bool :=
  existsb
    (λ block,
       existsb (λ op_desc, 0 <? kMultiDeviceOps_count (DescType op_desc))
               (AllOps block))
    (drop begin_block_idx program).

(** The loop of [GetUniqueDeviceIdOfOp] over [in_outs]. *)
Fixpoint unique_dev_idx_of_vars (dev_idx : Z) (in_outs : list VarHandleBase)
    : Z :=
  match in_outs with
  | [] => dev_idx
  | var :: rest =>
      match var_kind var with
      | DummyVarHandle => unique_dev_idx_of_vars dev_idx rest
      | VarHandle _ scope_idx =>
          if negb (dev_idx =? scope_idx)
          then kUndefinedDevIdx
          else unique_dev_idx_of_vars dev_idx rest
      end
  end.

Definition GetUniqueDeviceIdOfOp (op : OpHandleBase) : Z :=
  let dev_idx := GetScopeIdxFromOp op in
  if dev_idx =? kUndefinedDevIdx then kUndefinedDevIdx
  else
    let in_outs := Inputs op ++ Outputs op in
    unique_dev_idx_of_vars dev_idx in_outs.

(** ** Nodes and graphs *)

(** Modelled from the spec: a graph node (the class is declared outside
    the sources) together with what wraps it: an op handle, a var handle,
    or nothing.  The pointer of a wrapped node is the [Node()] of its
    handle: a handle and the node it wraps point to each other. *)
Inductive Node :=
| OpNode (op : OpHandleBase)
| VarNode (var : VarHandleBase)
| PlainNode (p : NodePtr).

(** The address of a node. *)
Definition node_ptr (n : Node) : NodePtr :=
  match n with
  | OpNode op => op_Node op
  | VarNode var => var_Node var
  | PlainNode p => p
  end.

(** Modelled from the spec: the names of the graph attributes.  The four
    constants the pass uses are declared outside the sources, and are taken
    to be distinct names; every other attribute name is [kOtherAttr]. *)
Inductive AttrName :=
| kGraphVars
| kGraphDepVars
| kProgramDescs
| kFusedVars
| kOtherAttr (name : string).

#[global] Instance AttrName_eq_dec : EqDecision AttrName.
Proof. solve_decision. Defined.

#[global] Instance AttrName_countable : Countable AttrName.
Proof.
  refine (inj_countable'
    (λ a, match a with
          | kGraphVars => inl 0%nat
          | kGraphDepVars => inl 1%nat
          | kProgramDescs => inl 2%nat
          | kFusedVars => inl 3%nat
          | kOtherAttr name => inr name
          end)
    (λ x, match x with
          | inl 0%nat => kGraphVars
          | inl 1%nat => kGraphDepVars
          | inl 2%nat => kProgramDescs
          | inl _ => kFusedVars
          | inr name => kOtherAttr name
          end) _).
  by intros [].
Defined.

(** Modelled from the spec: the values of the attributes, by their type
    (the types are declared outside the sources).  [GraphVars] is a vector,
    with one entry per device, of maps from a variable name to the handles
    of the variable; [GraphDepVars] is a set of var handles; [ProgramDescs]
    is a vector of programs; [FusedVars] is a set of names. *)
Inductive AttrValue :=
| GraphVarsAttr (vars : list (gmap string (list VarPtr)))
| GraphDepVarsAttr (dep_vars : gset VarPtr)
| ProgramDescsAttr (descs : list ProgramDesc)
| FusedVarsAttr (fused : gset string)
| OtherAttr (payload : Z).

(** Modelled from the spec: a graph (the class is declared outside the
    sources) owns its nodes and has a side-table of named attributes and
    the program it comes from.  The nodes are listed in the order in which
    the graph enumerates them. *)
Record Graph := {
  Nodes : list Node;
  attrs : gmap AttrName AttrValue;
  OriginProgram : ProgramDesc
}.

Definition set_Nodes (ns : list Node) (g : Graph) : Graph :=
  {| Nodes := ns; attrs := attrs g; OriginProgram := OriginProgram g |}.

Definition set_attrs (a : gmap AttrName AttrValue) (g : Graph) : Graph :=
  {| Nodes := Nodes g; attrs := a; OriginProgram := OriginProgram g |}.

(** ** Failures *)

Inductive Error :=
| AttrNotFound       (* getting or erasing an attribute that is not set *)
| AttrBadType        (* getting an attribute at another type *)
| AttrAlreadySet     (* setting an attribute twice *)
| NodeNotFound       (* removing a node the graph does not own *)
| NodeAlreadyAdded   (* adding a node the graph already owns *)
| OutOfRange         (* [at] on a missing key, or an index past the end *)
| NoPlaceFound.      (* the enforce on [place_num] *)

Inductive Outcome (A : Type) :=
| Returned (a : A)
| Raised (e : Error).
Arguments Returned {A} a.
Arguments Raised {A} e.

(** ** The graph interface

    The member functions of the graph are declared outside the sources;
    they are those of the owning container of nodes with a side-table of
    named attributes that the data model describes.  Getting or erasing an
    attribute that is not set, setting one that is, removing a node that
    the graph does not own and adding one that it owns are failures. *)

(** Modelled from the spec: [Has(name)], whether the attribute is set. *)
Definition Graph_Has (name : AttrName) (g : Graph) : bool :=
  bool_decide (is_Some (attrs g !! name)).

(** Modelled from the spec: the look-up of [Get<T>(name)] in the
    side-table of attributes. *)
Definition Graph_Get (name : AttrName) (g : Graph) : Outcome AttrValue :=
  match attrs g !! name with
  | Some v => Returned v
  | None => Raised AttrNotFound
  end.

(** Modelled from the spec: [Get<GraphVars>(kGraphVars)]. *)
Definition Graph_Get_GraphVars (g : Graph)
    : Outcome (list (gmap string (list VarPtr))) :=
  match Graph_Get kGraphVars g with
  | Returned (GraphVarsAttr vars) => Returned vars
  | Returned _ => Raised AttrBadType
  | Raised e => Raised e
  end.

(** Modelled from the spec: [Get<GraphDepVars>(kGraphDepVars)]. *)
Definition Graph_Get_GraphDepVars (g : Graph) : Outcome (gset VarPtr) :=
  match Graph_Get kGraphDepVars g with
  | Returned (GraphDepVarsAttr dep_vars) => Returned dep_vars
  | Returned _ => Raised AttrBadType
  | Raised e => Raised e
  end.

(** Modelled from the spec: [Set(name, value)]. *)
Definition Graph_Set (name : AttrName) (v : AttrValue) (g : Graph)
    : Outcome Graph :=
  if Graph_Has name g then Raised AttrAlreadySet
  else Returned (set_attrs (<[name := v]> (attrs g)) g).

(** Modelled from the spec: [Erase(name)]. *)
Definition Graph_Erase (name : AttrName) (g : Graph) : Outcome Graph :=
  if Graph_Has name g then Returned (set_attrs (delete name (attrs g)) g)
  else Raised AttrNotFound.

(** Modelled from the spec: [Nodes().count(node)], which is 1 when the graph
    owns the node and 0 otherwise. *)
Definition Graph_count (p : NodePtr) (g : Graph) : Z :=
  if bool_decide (p ∈ node_ptr <$> Nodes g) then 1 else 0.

(** Takes the node with pointer [p] out of a list of nodes. *)
Fixpoint take_node (p : NodePtr) (ns : list Node)
    : option (Node * list Node) :=
  match ns with
  | [] => None
  | n :: rest =>
      if decide (node_ptr n = p) then Some (n, rest)
      else match take_node p rest with
           | Some (m, rest') => Some (m, n :: rest')
           | None => None
           end
  end.

(** Modelled from the spec: [RemoveNode(node)], which hands the node over
    to the caller. *)
Definition Graph_RemoveNode (p : NodePtr) (g : Graph)
    : Outcome (Node * Graph) :=
  match take_node p (Nodes g) with
  | Some (n, rest) => Returned (n, set_Nodes rest g)
  | None => Raised NodeNotFound
  end.

(** Modelled from the spec: [AddNode(node)], which takes the node over. *)
Definition Graph_AddNode (n : Node) (g : Graph) : Outcome Graph :=
  if 0 <? Graph_count (node_ptr n) g then Raised NodeAlreadyAdded
  else Returned (set_Nodes (Nodes g ++ [n]) g).

(** Modelled from the spec: [ir::FilterByNodeWrapper<OpHandleBase>(graph)]
    (declared outside the sources), the op handles of the operator nodes of
    the graph, in the order of the nodes. *)
Definition FilterByNodeWrapper (g : Graph) : list OpHandleBase :=
  omap (λ n, match n with OpNode op => Some op | _ => None end) (Nodes g).

(** Modelled from the spec: [ProgramDesc()] (declared outside the
    sources), a program with an empty top-level block. *)
Definition ProgramDesc_new : ProgramDesc := [ {| AllOps := [] |} ].

(** Modelled from the spec: [ir::Graph(program)] (declared outside the
    sources) for a program without ops, a new empty graph. *)
Definition Graph_new (program : ProgramDesc) : Graph :=
  {| Nodes := []; attrs := ∅; OriginProgram := program |}.

(** Modelled from the spec: [CopyGraphAttrIfExists<T>(src, dst, name)]
    (declared outside the sources), which copies the attribute from the
    source to the destination if the source has it; for the two attributes
    it is called on. *)
Definition CopyGraphAttrIfExists (src dst : Graph) (name : AttrName)
    : Outcome Graph :=
  if Graph_Has name src then
    match Graph_Get name src, name with
    | Returned (ProgramDescsAttr descs), kProgramDescs =>
        Graph_Set name (ProgramDescsAttr descs) dst
    | Returned (FusedVarsAttr fused), kFusedVars =>
        Graph_Set name (FusedVarsAttr fused) dst
    | Returned _, _ => Raised AttrBadType
    | Raised e, _ => Raised e
    end
  else Returned dst.

(** ** The separation pass *)

(** The first loop over [op_handles]: [None] when some op is not
    determined, otherwise the final [place_num] and [op_to_dev_idx]. *)
Fixpoint assign_devices (op_handles : list OpHandleBase) (place_num : Z)
    (op_to_dev_idx : gmap OpPtr Z) : option (Z * gmap OpPtr Z) :=
  match op_handles with
  | [] => Some (place_num, op_to_dev_idx)
  | op :: rest =>
      let dev_idx := GetUniqueDeviceIdOfOp op in
      if dev_idx =? kUndefinedDevIdx then None
      else
        assign_devices rest
          (Z.max place_num (size_t_wrap (dev_idx + 1)))
          (<[op_this op := dev_idx]> op_to_dev_idx)
  end.

(** The test [iter == op_to_dev_idx.end() || iter->second != dev_idx]. *)
Definition on_other_device (op_to_dev_idx : gmap OpPtr Z) (dev_idx : Z)
    (op : OpPtr) : bool :=
  match op_to_dev_idx !! op with
  | None => true
  | Some second => negb (second =? dev_idx)
  end.

(** The input loop of an op: [false] stands for [return {}]. *)
Definition inputs_on_device (op_to_dev_idx : gmap OpPtr Z) (dev_idx : Z)
    (ins : list VarHandleBase) : bool :=
  forallb
    (λ in_var,
       match GeneratedOp in_var with
       | Some generated_op =>
           negb (on_other_device op_to_dev_idx dev_idx generated_op)
       | None => true
       end)
    ins.

(** The output loop of an op: [false] stands for [return {}]. *)
Definition outputs_on_device (op_to_dev_idx : gmap OpPtr Z) (dev_idx : Z)
    (outs : list VarHandleBase) : bool :=
  forallb
    (λ out_var,
       forallb
         (λ pending_op, negb (on_other_device op_to_dev_idx dev_idx pending_op))
         (PendingOps out_var))
    outs.

(** The second loop over [op_handles]: [Returned false] stands for
    [return {}]; [at] raises on a missing key. *)
Fixpoint check_dependencies (op_to_dev_idx : gmap OpPtr Z)
    (op_handles : list OpHandleBase) : Outcome bool :=
  match op_handles with
  | [] => Returned true
  | op :: rest =>
      match op_to_dev_idx !! op_this op with
      | None => Raised OutOfRange
      | Some dev_idx =>
          if inputs_on_device op_to_dev_idx dev_idx (Inputs op)
             && outputs_on_device op_to_dev_idx dev_idx (Outputs op)
          then check_dependencies op_to_dev_idx rest
          else Returned false
      end
  end.

(** What the transfer mutates: the source graph and the vector of the
    graphs under construction. *)
Record Store := {
  source : Graph;
  graphs : list Graph
}.

(** Computations that read and write the store and may raise. *)
Definition M (A : Type) : Type := Store → Outcome A * Store.

#[global] Instance M_ret : MRet M := λ A a s, (Returned a, s).

#[global] Instance M_bind : MBind M := λ A B k m s,
  match m s with
  | (Returned a, s') => k a s'
  | (Raised e, s') => (Raised e, s')
  end.

Definition raise {A} (e : Error) : M A := λ s, (Raised e, s).

Fixpoint for_each {A} (l : list A) (body : A → M unit) : M unit :=
  match l with
  | [] => mret tt
  | x :: rest => body x ;; for_each rest body
  end.

(** Runs a failing computation on the source graph. *)
Definition on_source {A} (f : Graph → Outcome (A * Graph)) : M A :=
  λ s, match f (source s) with
       | Returned (a, g) => (Returned a, {| source := g; graphs := graphs s |})
       | Raised e => (Raised e, s)
       end.

Definition read_source {A} (f : Graph → Outcome A) : M A :=
  on_source (λ g, match f g with
                  | Returned a => Returned (a, g)
                  | Raised e => Raised e
                  end).

Definition write_source (f : Graph → Outcome Graph) : M unit :=
  on_source (λ g, match f g with
                  | Returned g' => Returned (tt, g')
                  | Raised e => Raised e
                  end).

(** [graphs[i]]; an index past the end has no defined behaviour and is
    reported as a failure. *)
Definition read_graph {A} (i : nat) (f : Graph → Outcome A) : M A :=
  λ s, match graphs s !! i with
       | None => (Raised OutOfRange, s)
       | Some g =>
           match f g with
           | Returned a => (Returned a, s)
           | Raised e => (Raised e, s)
           end
       end.

Definition write_graph (i : nat) (f : Graph → Outcome Graph) : M unit :=
  λ s, match graphs s !! i with
       | None => (Raised OutOfRange, s)
       | Some g =>
           match f g with
           | Returned g' =>
               (Returned tt,
                {| source := source s; graphs := <[i := g']> (graphs s) |})
           | Raised e => (Raised e, s)
           end
       end.

(** [ret_graph->AddNode(graph->RemoveNode(node).release())] *)
Definition move_node (node : NodePtr) (i : nat) : M unit :=
  n ← on_source (Graph_RemoveNode node);
  write_graph i (Graph_AddNode n).

(** [ret_vars.emplace(name, entry)] on [Get<GraphVars>(kGraphVars)[0]] of
    the graph: [emplace] keeps an entry that is already there. *)
Definition emplace_ret_vars (name : string) (entry : list VarPtr) (g : Graph)
    : Outcome Graph :=
  match Graph_Get_GraphVars g with
  | Returned (ret_vars :: others) =>
      let ret_vars' :=
        match ret_vars !! name with
        | Some _ => ret_vars
        | None => <[name := entry]> ret_vars
        end in
      Returned
        (set_attrs (<[kGraphVars := GraphVarsAttr (ret_vars' :: others)]> (attrs g)) g)
  | Returned [] => Raised OutOfRange
  | Raised e => Raised e
  end.

(** [ret_dummy_vars.emplace(dummy_var)] on [Get<GraphDepVars>(kGraphDepVars)]
    of the graph. *)
Definition emplace_ret_dummy_vars (dummy_var : VarPtr) (g : Graph)
    : Outcome Graph :=
  match Graph_Get_GraphDepVars g with
  | Returned ret_dummy_vars =>
      Returned
        (set_attrs
           (<[kGraphDepVars := GraphDepVarsAttr ({[dummy_var]} ∪ ret_dummy_vars)]>
              (attrs g)) g)
  | Raised e => Raised e
  end.

(** The lambda [handler] of the transfer loop, for the op whose graph is
    [graphs[i]] and whose [origin_vars] has been looked up. *)
Definition handler (i : nat) (origin_vars : gmap string (list VarPtr))
    (vars : list VarHandleBase) : M unit :=
  for_each vars (λ var,
    present ← read_source (λ g, Returned (0 <? Graph_count (var_Node var) g));
    if present : bool then
      move_node (var_Node var) i ;;
      match var_kind var with
      | VarHandle name _ =>
          match origin_vars !! name with
          | Some entry => write_graph i (emplace_ret_vars name entry)
          | None => raise OutOfRange
          end
      | DummyVarHandle =>
          write_graph i (emplace_ret_dummy_vars (var_this var))
      end
    else mret tt).

(** [vars[idx]] with an index past the end reported as a failure. *)
Definition index_GraphVars (idx : nat)
    (vars : list (gmap string (list VarPtr)))
    : Outcome (gmap string (list VarPtr)) :=
  match vars !! idx with
  | Some m => Returned m
  | None => Raised OutOfRange
  end.

(** The body of the transfer loop. *)
Definition transfer_op (op_to_dev_idx : gmap OpPtr Z) (op : OpHandleBase)
    : M unit :=
  match op_to_dev_idx !! op_this op with
  | None => raise OutOfRange
  | Some dev_idx =>
      let i := Z.to_nat dev_idx in
      _ ← read_graph i (λ ret_graph,
                match Graph_Get_GraphVars ret_graph with
                | Returned vars => index_GraphVars 0 vars
                | Raised e => Raised e
                end);
      _ ← read_graph i Graph_Get_GraphDepVars;
      origin_vars ← read_source (λ g,
                match Graph_Get_GraphVars g with
                | Returned vars => index_GraphVars i vars
                | Raised e => Raised e
                end);
      move_node (op_Node op) i ;;
      handler i origin_vars (Inputs op) ;;
      handler i origin_vars (Outputs op)
  end.

(** The last loop: the optional attributes are copied to every graph. *)
Definition copy_attrs_to (i : nat) : M unit :=
  graph ← read_source Returned;
  write_graph i (λ g, CopyGraphAttrIfExists graph g kProgramDescs) ;;
  write_graph i (λ g, CopyGraphAttrIfExists graph g kFusedVars).

Definition get_graphs : M (list Graph) := λ s, (Returned (graphs s), s).

Definition transfer (op_to_dev_idx : gmap OpPtr Z)
    (op_handles : list OpHandleBase) : M (list Graph) :=
  for_each op_handles (transfer_op op_to_dev_idx) ;;
  write_source (Graph_Erase kGraphVars) ;;
  write_source (Graph_Erase kGraphDepVars) ;;
  gs ← get_graphs;
  for_each (seq 0 (length gs)) copy_attrs_to ;;
  get_graphs.

(** A graph as the construction loop makes it: an empty graph with
    [kGraphVars] set to [GraphVars(1UL)] and [kGraphDepVars] to an empty
    set. *)
Definition new_device_graph : Outcome Graph :=
  match Graph_Set kGraphVars (GraphVarsAttr [∅]) (Graph_new ProgramDesc_new) with
  | Returned g => Graph_Set kGraphDepVars (GraphDepVarsAttr ∅) g
  | Raised e => Raised e
  end.

(** The pass returns its result, or raises, and leaves the graph it was
    given in a new state. *)
Definition TrySeparateToMultipleSingleDeviceGraphs (graph : Graph)
    : Outcome (list Graph) * Graph :=
  if ContainMultiDeviceOp (OriginProgram graph) 1 then (Returned [], graph)
  else
    let op_handles := FilterByNodeWrapper graph in
    if bool_decide (op_handles = []) then (Returned [], graph)
    else
      match assign_devices op_handles 0 ∅ with
      | None => (Returned [], graph)
      | Some (place_num, op_to_dev_idx) =>
          match check_dependencies op_to_dev_idx op_handles with
          | Raised e => (Raised e, graph)
          | Returned false => (Returned [], graph)
          | Returned true =>
              if negb (1 <=? place_num) then (Raised NoPlaceFound, graph)
              else if place_num =? 1 then (Returned [], graph)
              else
                match new_device_graph with
                | Raised e => (Raised e, graph)
                | Returned g =>
                    let r :=
                      transfer op_to_dev_idx op_handles
                        {| source := graph;
                           graphs := replicate (Z.to_nat place_num) g |} in
                    (r.1, source r.2)
                end
          end
      end.

(** ** The read-op scans *)

(** Modelled from the spec: [Attr<bool>(name)] of an operator (declared
    outside the sources): the attribute has to be there, as a boolean. *)
Definition Attr_bool (op : OperatorBase) (name : string) : Outcome bool :=
  match OpAttrs op !! name with
  | Some (BoolAttr b) => Returned b
  | Some _ => Raised AttrBadType
  | None => Raised AttrNotFound
  end.

Fixpoint has_read_op (ops : list OpHandleBase) (drop_last : bool)
    : Outcome bool :=
  match ops with
  | [] => Returned false
  | op :: rest =>
      match op_kind op with
      | ComputationOpHandle compute_op _ =>
          if String.eqb (OpType compute_op) "read" then
            match Attr_bool compute_op "drop_last" with
            | Returned b =>
                if Bool.eqb b drop_last then Returned true
                else has_read_op rest drop_last
            | Raised e => Raised e
            end
          else has_read_op rest drop_last
      | _ => has_read_op rest drop_last
      end
  end.

Definition HasDropLastReadOpImpl (graph : Graph) (drop_last : bool)
    : Outcome bool :=
  let ops := FilterByNodeWrapper graph in
  has_read_op ops drop_last.

Definition HasDropLastReadOp (graph : Graph) : Outcome bool :=
  HasDropLastReadOpImpl graph true.

Definition HasKeepLastReadOp (graph : Graph) : Outcome bool :=
  HasDropLastReadOpImpl graph false.

(** * The vocabulary of the properties *)

(** An op whose scope index fits a [size_t]. *)
Definition scope_idx_fits (op : OpHandleBase) : Prop :=
  ∀ scope_idx, GetScopeIdx (op_kind op) = Some scope_idx → is_size_t scope_idx.

(** [wp m Q s]: if [m] returns from [s], its result and final store satisfy
    [Q]. *)
Definition wp {A} (m : M A) (Q : A → Store → Prop) (s : Store) : Prop :=
  ∀ a s', m s = (Returned a, s') → Q a s'.

(** The nodes the transfer loop asks for when it handles an op: the node of
    the op and the nodes of its inputs and outputs. *)
Definition touched_nodes (op : OpHandleBase) : gset NodePtr :=
  {[op_Node op]} ∪ list_to_set (var_Node <$> Inputs op)
  ∪ list_to_set (var_Node <$> Outputs op).

(** The index of the graph an op is moved to. *)
Definition graph_index (op_to_dev_idx : gmap OpPtr Z) (op : OpHandleBase)
    : gset nat :=
  match op_to_dev_idx !! op_this op with
  | Some dev_idx => {[Z.to_nat dev_idx]}
  | None => ∅
  end.

(** The state of the transfer of [graph] to [k] graphs that started as
    [fresh], once the nodes [touched] have been asked for and the graphs at
    the indices [used] have been written to. *)
Record transfer_inv (graph fresh : Graph) (k : nat)
    (touched : gset NodePtr) (used : gset nat) (s : Store) : Prop := {
  inv_attrs : attrs (source s) = attrs graph;
  inv_length : length (graphs s) = k;
  inv_perm : Nodes (source s) ++ concat (Nodes <$> graphs s) ≡ₚ Nodes graph;
  inv_moved : ∀ n, n ∈ concat (Nodes <$> graphs s) → node_ptr n ∈ touched;
  inv_left : NoDup (node_ptr <$> Nodes graph) →
             ∀ n, n ∈ Nodes (source s) → node_ptr n ∉ touched;
  inv_unused : ∀ i, (i < k)%nat → i ∉ used → graphs s !! i = Some fresh
}.

(** What the last loop does to the graph at one index. *)
Definition attrs_copied (src g g' : Graph) : Prop :=
  ∃ g1, CopyGraphAttrIfExists src g kProgramDescs = Returned g1
        ∧ CopyGraphAttrIfExists src g1 kFusedVars = Returned g'.

(** [errors_in E m]: whenever [m] raises, the failure is in [E]. *)
Definition errors_in {A} (E : Error → Prop) (m : M A) : Prop :=
  ∀ s e s', m s = (Raised e, s') → E e.

(** The failures of the graph interface, which are not [NoPlaceFound]. *)
Definition graph_error (e : Error) : Prop := e ≠ NoPlaceFound.

(** Closes a goal [graph_error e] by cases on the matches that decide [e]. *)
Ltac graph_error_cases :=
  repeat (case_match; simplify_eq); try done;
  intros; simplify_eq; done.

(** The graph the construction loop makes. *)
Definition fresh_graph : Graph :=
  {| Nodes := [];
     attrs := <[kGraphDepVars := GraphDepVarsAttr ∅]>
                (<[kGraphVars := GraphVarsAttr [∅]]> ∅);
     OriginProgram := ProgramDesc_new |}.

(** The conditions under which the pass goes on to construct the graphs:
    none of the abort conditions holds. *)
Record separable (graph : Graph) (place_num : Z)
    (op_to_dev_idx : gmap OpPtr Z) : Prop := {
  sep_program : ContainMultiDeviceOp (OriginProgram graph) 1 = false;
  sep_ops : FilterByNodeWrapper graph ≠ [];
  sep_assign : assign_devices (FilterByNodeWrapper graph) 0 ∅
               = Some (place_num, op_to_dev_idx);
  sep_check : check_dependencies op_to_dev_idx (FilterByNodeWrapper graph)
              = Returned true;
  sep_places : 2 ≤ place_num
}.

(** A computation op of type ["read"] whose attribute ["drop_last"] is the
    boolean [drop_last]. *)
Definition is_read_op (drop_last : bool) (op : OpHandleBase) : Prop :=
  ∃ compute_op scope_idx,
    op_kind op = ComputationOpHandle compute_op scope_idx
    ∧ OpType compute_op = "read"
    ∧ OpAttrs compute_op !! "drop_last" = Some (BoolAttr drop_last).

(** A computation op of type ["read"], whatever its attributes. *)
Definition has_read_type (op : OpHandleBase) : Prop :=
  ∃ compute_op scope_idx,
    op_kind op = ComputationOpHandle compute_op scope_idx
    ∧ OpType compute_op = "read".

(** Every read op has the boolean attribute ["drop_last"], as the
    definition of the operator declares it. *)
Definition read_ops_declared (graph : Graph) : Prop :=
  ∀ op, OpNode op ∈ Nodes graph → has_read_type op →
    ∃ drop_last, is_read_op drop_last op.

(** The graphs a run of the pass has returned, if it has. *)
Definition returned_graphs (r : Outcome (list Graph) * Graph) : list Graph :=
  match r.1 with Returned gs => gs | Raised _ => [] end.

(** The dependency condition on an op that is on device [dev_idx]: the op
    that generates an input, when it is a key of the map, is on [dev_idx],
    and so is every op pending on an output that is a key of the map. *)
Definition same_device_dependencies (op_to_dev_idx : gmap OpPtr Z)
    (op : OpHandleBase) (dev_idx : Z) : Prop :=
  (∀ in_var generated_op second,
     in_var ∈ Inputs op → GeneratedOp in_var = Some generated_op →
     op_to_dev_idx !! generated_op = Some second → second = dev_idx)
  ∧ (∀ out_var pending_op second,
       out_var ∈ Outputs op → pending_op ∈ PendingOps out_var →
       op_to_dev_idx !! pending_op = Some second → second = dev_idx).

(** A node pointer is attached to an op of the graph when it is the node of
    an op handle of the graph, or the node of an input or output variable
    of one. *)
Definition attached_to_op (graph : Graph) (p : NodePtr) : Prop :=
  ∃ op, OpNode op ∈ Nodes graph
        ∧ (p = op_Node op
           ∨ ∃ var, var ∈ Inputs op ++ Outputs op ∧ p = var_Node var).

(** The attributes of a graph that the construction loop has made and the
    last loop has copied to, without anything in between. *)
Definition untouched_attrs (graph g : Graph) : Prop :=
  attrs g !! kGraphVars = Some (GraphVarsAttr [∅])
  ∧ attrs g !! kGraphDepVars = Some (GraphDepVarsAttr ∅)
  ∧ attrs g !! kProgramDescs = attrs graph !! kProgramDescs
  ∧ attrs g !! kFusedVars = attrs graph !! kFusedVars
  ∧ ∀ name, attrs g !! kOtherAttr name = None.

(** The table of variables of the graph that is given to the pass:
    [Get<GraphVars>(kGraphVars)], with no entry if the attribute is not a
    table. *)
Definition origin_vars_of (graph : Graph)
    : list (gmap string (list VarPtr)) :=
  match Graph_Get_GraphVars graph with
  | Returned vars => vars
  | Raised _ => []
  end.

(** The node [p] is asked for by the transfer of an op that goes to the
    graph at index [i]. *)
Definition on_device (op_to_dev_idx : gmap OpPtr Z)
    (op_handles : list OpHandleBase) (i : nat) (p : NodePtr) : Prop :=
  ∃ op, op ∈ op_handles ∧ i ∈ graph_index op_to_dev_idx op
        ∧ p ∈ touched_nodes op.

(** The entries of the table of variables of the graph at index [i] come
    from the table of the given graph for the device [i], under the name of
    a named variable of an op that goes to the graph. *)
Definition ret_vars_from_origin (graph : Graph) (op_to_dev_idx : gmap OpPtr Z)
    (op_handles : list OpHandleBase) (i : nat)
    (ret_vars : gmap string (list VarPtr)) : Prop :=
  ∀ name entry, ret_vars !! name = Some entry →
    (∃ origin_vars, origin_vars_of graph !! i = Some origin_vars
                    ∧ origin_vars !! name = Some entry)
    ∧ (∃ op var scope_idx,
         op ∈ op_handles ∧ i ∈ graph_index op_to_dev_idx op
         ∧ var ∈ Inputs op ++ Outputs op
         ∧ var_kind var = VarHandle name scope_idx).

(** The dependency variables of the graph at index [i] are dummy variables
    of ops that go to the graph. *)
Definition dep_vars_from_ops (op_to_dev_idx : gmap OpPtr Z)
    (op_handles : list OpHandleBase) (i : nat) (dep_vars : gset VarPtr)
    : Prop :=
  ∀ v, v ∈ dep_vars →
    ∃ op var, op ∈ op_handles ∧ i ∈ graph_index op_to_dev_idx op
              ∧ var ∈ Inputs op ++ Outputs op
              ∧ var_kind var = DummyVarHandle ∧ var_this var = v.

(** The attributes of the graph at index [i] while the transfer loop runs:
    the two tables, and nothing else. *)
Record device_graph_attrs (graph : Graph) (op_to_dev_idx : gmap OpPtr Z)
    (op_handles : list OpHandleBase) (i : nat) (g : Graph) : Prop := {
  dga_program : OriginProgram g = ProgramDesc_new;
  dga_vars : ∃ ret_vars,
    attrs g !! kGraphVars = Some (GraphVarsAttr [ret_vars])
    ∧ ret_vars_from_origin graph op_to_dev_idx op_handles i ret_vars;
  dga_dep_vars : ∃ dep_vars,
    attrs g !! kGraphDepVars = Some (GraphDepVarsAttr dep_vars)
    ∧ dep_vars_from_ops op_to_dev_idx op_handles i dep_vars;
  dga_others : ∀ name, name ≠ kGraphVars → name ≠ kGraphDepVars →
    attrs g !! name = None
}.

(** The attributes of a returned graph: the two tables, and the copies of
    the optional attributes of the given graph. *)
Record returned_graph_attrs (graph : Graph) (op_to_dev_idx : gmap OpPtr Z)
    (op_handles : list OpHandleBase) (i : nat) (g : Graph) : Prop := {
  rga_program : OriginProgram g = ProgramDesc_new;
  rga_vars : ∃ ret_vars,
    attrs g !! kGraphVars = Some (GraphVarsAttr [ret_vars])
    ∧ ret_vars_from_origin graph op_to_dev_idx op_handles i ret_vars;
  rga_dep_vars : ∃ dep_vars,
    attrs g !! kGraphDepVars = Some (GraphDepVarsAttr dep_vars)
    ∧ dep_vars_from_ops op_to_dev_idx op_handles i dep_vars;
  rga_program_descs : attrs g !! kProgramDescs = attrs graph !! kProgramDescs;
  rga_fused_vars : attrs g !! kFusedVars = attrs graph !! kFusedVars;
  rga_others : ∀ name, attrs g !! kOtherAttr name = None
}.

(** The layout of the store while the transfer loop runs: the given graph
    keeps its attributes and its program; a node of the graph at index [i]
    has been asked for by an op that goes there; the nodes [placed] are
    where they have been put; and the graphs have the attributes of
    [device_graph_attrs]. *)
Record layout_inv (graph : Graph) (op_to_dev_idx : gmap OpPtr Z)
    (op_handles : list OpHandleBase) (placed : list (nat * NodePtr))
    (s : Store) : Prop := {
  lay_attrs : attrs (source s) = attrs graph;
  lay_program : OriginProgram (source s) = OriginProgram graph;
  lay_only : ∀ i g n, graphs s !! i = Some g → n ∈ Nodes g →
    on_device op_to_dev_idx op_handles i (node_ptr n);
  lay_placed : ∀ i p, (i, p) ∈ placed →
    ∃ g n, graphs s !! i = Some g ∧ n ∈ Nodes g ∧ node_ptr n = p;
  lay_shape : ∀ i g, graphs s !! i = Some g →
    device_graph_attrs graph op_to_dev_idx op_handles i g
}.

(** ** Example graphs *)

Module Examples.

Definition compute_op (this : Z) (type : string) (scope_idx : Z)
    (ins outs : list VarHandleBase) : OpHandleBase :=
  {| op_this := this; op_Node := this;
     op_kind := ComputationOpHandle {| OpType := type; OpAttrs := ∅ |} scope_idx;
     Inputs := ins; Outputs := outs |}.

Definition var (this : Z) (name : string) (scope_idx : Z)
    (generated_op : option OpPtr) (pending_ops : list OpPtr) : VarHandleBase :=
  {| var_this := this; var_Node := this; var_kind := VarHandle name scope_idx;
     GeneratedOp := generated_op; PendingOps := pending_ops |}.

Definition dummy_var (this : Z) (generated_op : option OpPtr)
    (pending_ops : list OpPtr) : VarHandleBase :=
  {| var_this := this; var_Node := this; var_kind := DummyVarHandle;
     GeneratedOp := generated_op; PendingOps := pending_ops |}.

Definition main_program : ProgramDesc :=
  [ {| AllOps := [ {| DescType := "relu" |} ] |} ].

(** Two ops on two devices, each with a private input and output. *)
Definition x0 := var 10 "x" 0 None [1].
Definition y0 := var 11 "y" 0 (Some 1) [].
Definition x1 := var 12 "x" 1 None [2].
Definition y1 := var 13 "y" 1 (Some 2) [].
Definition relu0 := compute_op 1 "relu" 0 [x0] [y0].
Definition relu1 := compute_op 2 "relu" 1 [x1] [y1].

Definition two_device_vars : gmap AttrName AttrValue :=
  {[ kGraphVars := GraphVarsAttr [ {[ "x" := [10]; "y" := [11] ]};
                                   {[ "x" := [12]; "y" := [13] ]} ];
     kGraphDepVars := GraphDepVarsAttr ∅ ]}.

Definition two_device_graph : Graph :=
  {| Nodes := [OpNode relu0; VarNode x0; VarNode y0;
               OpNode relu1; VarNode x1; VarNode y1];
     attrs := two_device_vars;
     OriginProgram := main_program |}.

(** The same graph with one more variable node, which no op reads or
    writes. *)
Definition unused := var 20 "unused" 0 None [].

Definition graph_with_unused_var : Graph :=
  {| Nodes := VarNode unused :: Nodes two_device_graph;
     attrs :=
       {[ kGraphVars :=
            GraphVarsAttr [ {[ "x" := [10]; "y" := [11]; "unused" := [20] ]};
                            {[ "x" := [12]; "y" := [13] ]} ];
          kGraphDepVars := GraphDepVarsAttr ∅ ]};
     OriginProgram := main_program |}.

(** Ops on the devices 0 and 2 only, in a graph that has the attribute
    [kProgramDescs]. *)
Definition x2 := var 14 "x" 2 None [3].
Definition y2 := var 15 "y" 2 (Some 3) [].
Definition relu2 := compute_op 3 "relu" 2 [x2] [y2].

Definition graph_with_gap : Graph :=
  {| Nodes := [OpNode relu0; VarNode x0; VarNode y0;
               OpNode relu2; VarNode x2; VarNode y2];
     attrs := {[ kGraphVars := GraphVarsAttr [ {[ "x" := [10]; "y" := [11] ]};
                                               ∅;
                                               {[ "x" := [14]; "y" := [15] ]} ];
                 kGraphDepVars := GraphDepVarsAttr ∅;
                 kProgramDescs := ProgramDescsAttr [main_program] ]};
     OriginProgram := main_program |}.

(** An op on device 0 whose dummy output is awaited by an op on device 1. *)
Definition dep := dummy_var 30 (Some 1) [2].
Definition first0 := compute_op 1 "relu" 0 [] [dep].
Definition second1 := compute_op 2 "relu" 1 [dep] [].

Definition cross_device_graph : Graph :=
  {| Nodes := [OpNode first0; VarNode dep; OpNode second1];
     attrs := {[ kGraphVars := GraphVarsAttr [∅; ∅];
                 kGraphDepVars := GraphDepVarsAttr {[30]} ]};
     OriginProgram := main_program |}.

(** An op recorded on device 2 whose input is recorded on device 5. *)
Definition x5 := var 16 "x" 5 None [4].
Definition relu_2_5 := compute_op 4 "relu" 2 [x5] [].

Definition mismatch_graph : Graph :=
  {| Nodes := [OpNode relu_2_5; VarNode x5; OpNode relu0; VarNode x0; VarNode y0];
     attrs := {[ kGraphVars := GraphVarsAttr [ {[ "x" := [10]; "y" := [11] ]};
                                               ∅; ∅; ∅; ∅;
                                               {[ "x" := [16] ]} ];
                 kGraphDepVars := GraphDepVarsAttr ∅ ]};
     OriginProgram := main_program |}.

(** A send op, recorded on device 3. *)
Definition send3 := compute_op 5 "send" 3 [] [].

(** A program whose block 1 has a send op. *)
Definition program_with_send : ProgramDesc :=
  [ {| AllOps := [ {| DescType := "relu" |} ] |};
    {| AllOps := [ {| DescType := "relu" |}; {| DescType := "send" |} ] |} ].

Definition graph_of_program_with_send : Graph :=
  {| Nodes := Nodes two_device_graph;
     attrs := two_device_vars;
     OriginProgram := program_with_send |}.

(** Two ops, both on device 0. *)
Definition w0 := var 18 "w" 0 None [6].
Definition z0 := var 17 "z" 0 (Some 6) [].
Definition scale0 := compute_op 6 "scale" 0 [w0] [z0].

Definition one_device_graph : Graph :=
  {| Nodes := [OpNode relu0; VarNode x0; VarNode y0;
               OpNode scale0; VarNode w0; VarNode z0];
     attrs := {[ kGraphVars :=
                   GraphVarsAttr [ {[ "x" := [10]; "y" := [11];
                                      "w" := [18]; "z" := [17] ]} ];
                 kGraphDepVars := GraphDepVarsAttr ∅ ]};
     OriginProgram := main_program |}.

(** A read op that drops the last batch. *)
Definition batch := var 19 "batch" 0 (Some 7) [].
Definition read_drop_last : OpHandleBase :=
  {| op_this := 7; op_Node := 7;
     op_kind := ComputationOpHandle
       {| OpType := "read"; OpAttrs := {[ "drop_last" := BoolAttr true ]} |} 0;
     Inputs := []; Outputs := [batch] |}.

Definition graph_with_read : Graph :=
  {| Nodes := [OpNode read_drop_last; VarNode batch;
               OpNode relu0; VarNode x0; VarNode y0];
     attrs := {[ kGraphVars :=
                   GraphVarsAttr [ {[ "batch" := [19]; "x" := [10];
                                      "y" := [11] ]} ];
                 kGraphDepVars := GraphDepVarsAttr ∅ ]};
     OriginProgram := main_program |}.

(** Handles of the other kinds. *)
Definition eager_deletion4 : OpHandleBase :=
  {| op_this := 8; op_Node := 8; op_kind := EagerDeletionOpHandle 4;
     Inputs := []; Outputs := [] |}.
Definition share_buffer5 : OpHandleBase :=
  {| op_this := 9; op_Node := 9; op_kind := ShareTensorBufferOpHandle 5;
     Inputs := []; Outputs := [] |}.
Definition other_handle : OpHandleBase :=
  {| op_this := 21; op_Node := 21; op_kind := OtherOpHandle;
     Inputs := []; Outputs := [] |}.

End Examples.

(** ** More example graphs *)

Module MoreExamples.

(** An op on device 0 that reads a variable generated by an op that is not
    an op handle of the graph, beside an op on device 1. *)
Definition outside := Examples.var 40 "o" 0 (Some 99) [1].
Definition fed0 := Examples.compute_op 1 "relu" 0 [outside] [].

Definition graph_with_outside_input : Graph :=
  {| Nodes := [OpNode fed0; VarNode outside;
               OpNode Examples.relu1; VarNode Examples.x1; VarNode Examples.y1];
     attrs := {[ kGraphVars := GraphVarsAttr [ {[ "o" := [40] ]};
                                               {[ "x" := [12]; "y" := [13] ]} ];
                 kGraphDepVars := GraphDepVarsAttr ∅ ]};
     OriginProgram := Examples.main_program |}.

(** The graph of the two devices, with its nodes in another order. *)
Definition two_device_graph_reordered : Graph :=
  {| Nodes := reverse (Nodes Examples.two_device_graph);
     attrs := Examples.two_device_vars;
     OriginProgram := Examples.main_program |}.

(** Two ops on device 0 and one on device 1; the ops of device 0 are linked
    by a named variable and by a dummy variable, and the graph has the
    attribute of the fused variables. *)
Definition a := Examples.var 50 "a" 0 None [1].
Definition b := Examples.var 51 "b" 0 (Some 1) [2].
Definition done1 := Examples.dummy_var 52 (Some 1) [2].
Definition c := Examples.var 53 "c" 0 (Some 2) [].
Definition d := Examples.var 54 "d" 1 None [3].
Definition e := Examples.var 55 "e" 1 (Some 3) [].
Definition mul0 := Examples.compute_op 1 "mul" 0 [a] [b; done1].
Definition add0 := Examples.compute_op 2 "add" 0 [b; done1] [c].
Definition mul1 := Examples.compute_op 3 "mul" 1 [d] [e].

Definition linked_graph : Graph :=
  {| Nodes := [OpNode mul0; OpNode add0; OpNode mul1;
               VarNode a; VarNode b; VarNode done1; VarNode c;
               VarNode d; VarNode e];
     attrs := {[ kGraphVars :=
                   GraphVarsAttr [ {[ "a" := [50]; "b" := [51]; "c" := [53] ]};
                                   {[ "d" := [54]; "e" := [55] ]} ];
                 kGraphDepVars := GraphDepVarsAttr {[52]};
                 kFusedVars := FusedVarsAttr {[ "b" ]} ]};
     OriginProgram := Examples.main_program |}.

(** The graph with the read op, with its nodes in another order. *)
Definition graph_with_read_reordered : Graph :=
  {| Nodes := reverse (Nodes Examples.graph_with_read);
     attrs := attrs Examples.graph_with_read;
     OriginProgram := Examples.main_program |}.

(** A read op that has no attribute, enumerated before the read op that
    drops the last batch. *)
Definition first_batch := Examples.var 61 "first_batch" 0 (Some 60) [].
Definition read_undeclared : OpHandleBase :=
  {| op_this := 60; op_Node := 60;
     op_kind := ComputationOpHandle {| OpType := "read"; OpAttrs := ∅ |} 0;
     Inputs := []; Outputs := [first_batch] |}.

Definition graph_with_undeclared_read : Graph :=
  {| Nodes := [OpNode read_undeclared; VarNode first_batch;
               OpNode Examples.read_drop_last; VarNode Examples.batch];
     attrs := {[ kGraphVars :=
                   GraphVarsAttr [ {[ "first_batch" := [61];
                                      "batch" := [19] ]} ];
                 kGraphDepVars := GraphDepVarsAttr ∅ ]};
     OriginProgram := Examples.main_program |}.

End MoreExamples.

(** * Properties *)

(** ** Device classification *)

Lemma kUndefinedDevIdx_eq : kUndefinedDevIdx = 2 ^ 64 - 1.
Proof. reflexivity. Qed.

Lemma kMultiDeviceOps_count_pos (type : string) :
  (0 <? kMultiDeviceOps_count type) = bool_decide (type ∈ kMultiDeviceOps).
Proof. unfold kMultiDeviceOps_count. by case_bool_decide. Qed.

Lemma kMultiDeviceOps_count_zero (type : string) :
  (kMultiDeviceOps_count type =? 0) = negb (bool_decide (type ∈ kMultiDeviceOps)).
Proof. unfold kMultiDeviceOps_count. by case_bool_decide. Qed.

Lemma GetScopeIdxFromOp_determined (op : OpHandleBase) :
  GetScopeIdxFromOp op ≠ kUndefinedDevIdx →
  GetScopeIdx (op_kind op) = Some (GetScopeIdxFromOp op).
Proof.
  unfold GetScopeIdxFromOp. destruct (op_kind op); simpl; try done.
  by destruct (_ =? 0).
Qed.

Lemma unique_dev_idx_of_vars_cases (dev_idx : Z) (in_outs : list VarHandleBase) :
  unique_dev_idx_of_vars dev_idx in_outs = kUndefinedDevIdx
  ∨ unique_dev_idx_of_vars dev_idx in_outs = dev_idx.
Proof.
  induction in_outs as [|var rest IH]; simpl; [by right|].
  destruct (var_kind var) as [name scope_idx|]; [|done].
  destruct (dev_idx =? scope_idx); simpl; [done|by left].
Qed.

Lemma unique_dev_idx_of_vars_mismatch (dev_idx : Z)
    (in_outs : list VarHandleBase) (var : VarHandleBase) (name : string)
    (scope_idx : Z) :
  var ∈ in_outs → var_kind var = VarHandle name scope_idx →
  scope_idx ≠ dev_idx →
  unique_dev_idx_of_vars dev_idx in_outs = kUndefinedDevIdx.
Proof.
  intros Hin Hkind Hne.
  induction in_outs as [|var' rest IH]; [by apply elem_of_nil in Hin|].
  apply elem_of_cons in Hin as [<-|Hin]; simpl.
  - rewrite Hkind. destruct (Z.eqb_spec dev_idx scope_idx); [congruence|done].
  - destruct (var_kind var') as [name' scope_idx'|]; [|by apply IH].
    destruct (dev_idx =? scope_idx'); simpl; [by apply IH|done].
Qed.

Lemma unique_dev_idx_of_vars_agree (dev_idx : Z)
    (in_outs : list VarHandleBase) :
  dev_idx ≠ kUndefinedDevIdx →
  unique_dev_idx_of_vars dev_idx in_outs = dev_idx →
  ∀ var name scope_idx,
    var ∈ in_outs → var_kind var = VarHandle name scope_idx →
    scope_idx = dev_idx.
Proof.
  intros Hdet Heq var name scope_idx Hin Hkind.
  destruct (decide (scope_idx = dev_idx)) as [|Hne]; [done|].
  rewrite (unique_dev_idx_of_vars_mismatch _ _ _ _ _ Hin Hkind Hne) in Heq.
  congruence.
Qed.

Lemma GetUniqueDeviceIdOfOp_cases (op : OpHandleBase) :
  GetUniqueDeviceIdOfOp op = kUndefinedDevIdx
  ∨ (GetUniqueDeviceIdOfOp op = GetScopeIdxFromOp op
     ∧ GetScopeIdxFromOp op ≠ kUndefinedDevIdx).
Proof.
  unfold GetUniqueDeviceIdOfOp; simpl.
  destruct (Z.eqb_spec (GetScopeIdxFromOp op) kUndefinedDevIdx); [by left|].
  destruct (unique_dev_idx_of_vars_cases (GetScopeIdxFromOp op)
              (Inputs op ++ Outputs op)); [by left|by right].
Qed.

Lemma GetUniqueDeviceIdOfOp_mismatch (op : OpHandleBase) (var : VarHandleBase)
    (name : string) (scope_idx : Z) :
  var ∈ Inputs op ++ Outputs op → var_kind var = VarHandle name scope_idx →
  scope_idx ≠ GetScopeIdxFromOp op →
  GetUniqueDeviceIdOfOp op = kUndefinedDevIdx.
Proof.
  intros Hin Hkind Hne. unfold GetUniqueDeviceIdOfOp; simpl.
  destruct (_ =? kUndefinedDevIdx); [done|].
  by eapply unique_dev_idx_of_vars_mismatch.
Qed.

Lemma GetUniqueDeviceIdOfOp_range (op : OpHandleBase) :
  scope_idx_fits op → GetUniqueDeviceIdOfOp op ≠ kUndefinedDevIdx →
  0 ≤ GetUniqueDeviceIdOfOp op < 2 ^ 64 - 1.
Proof.
  intros Hfits Hdet.
  destruct (GetUniqueDeviceIdOfOp_cases op) as [|[Heq Hscope]]; [done|].
  specialize (Hfits _ (GetScopeIdxFromOp_determined _ Hscope)).
  rewrite Heq in Hdet |- *. rewrite kUndefinedDevIdx_eq in Hdet.
  unfold is_size_t in Hfits. lia.
Qed.

(** ** The program scan *)

Lemma ContainMultiDeviceOp_true (program : ProgramDesc) (begin_block_idx : nat) :
  ContainMultiDeviceOp program begin_block_idx = true ↔
  ∃ block_idx block op_desc,
    (begin_block_idx ≤ block_idx)%nat ∧ program !! block_idx = Some block
    ∧ op_desc ∈ AllOps block ∧ DescType op_desc ∈ kMultiDeviceOps.
Proof.
  unfold ContainMultiDeviceOp. rewrite existsb_exists. split.
  - intros (block & Hin & Hex). apply existsb_exists in Hex as (op_desc & Hop & Hc).
    apply list_elem_of_In, list_elem_of_lookup in Hin as [i Hi].
    rewrite lookup_drop in Hi.
    exists (begin_block_idx + i)%nat, block, op_desc. split_and!; [lia|done| |].
    + by apply list_elem_of_In.
    + rewrite kMultiDeviceOps_count_pos in Hc. by apply bool_decide_eq_true in Hc.
  - intros (block_idx & block & op_desc & Hle & Hblock & Hop & Hty).
    exists block. split.
    + apply list_elem_of_In, list_elem_of_lookup. exists (block_idx - begin_block_idx)%nat.
      rewrite lookup_drop. by replace (begin_block_idx + (block_idx - begin_block_idx))%nat
        with block_idx by lia.
    + apply existsb_exists. exists op_desc. split; [by apply list_elem_of_In|].
      rewrite kMultiDeviceOps_count_pos. by apply bool_decide_eq_true.
Qed.

(** ** The first loop: device assignment *)

Lemma assign_devices_undetermined (op_handles : list OpHandleBase)
    (place_num : Z) (op_to_dev_idx : gmap OpPtr Z) (op : OpHandleBase) :
  op ∈ op_handles → GetUniqueDeviceIdOfOp op = kUndefinedDevIdx →
  assign_devices op_handles place_num op_to_dev_idx = None.
Proof.
  intros Hin Hundet. revert place_num op_to_dev_idx.
  induction op_handles as [|op' rest IH]; intros place_num op_to_dev_idx;
    [by apply elem_of_nil in Hin|].
  simpl. apply elem_of_cons in Hin as [<-|Hin].
  - by rewrite Hundet.
  - destruct (_ =? kUndefinedDevIdx); [done|by apply IH].
Qed.

Lemma assign_devices_determined (op_handles : list OpHandleBase)
    (place_num place_num' : Z) (op_to_dev_idx op_to_dev_idx' : gmap OpPtr Z) :
  assign_devices op_handles place_num op_to_dev_idx
    = Some (place_num', op_to_dev_idx') →
  ∀ op, op ∈ op_handles → GetUniqueDeviceIdOfOp op ≠ kUndefinedDevIdx.
Proof.
  intros Hassign op Hin Hundet.
  by rewrite (assign_devices_undetermined _ _ _ _ Hin Hundet) in Hassign.
Qed.

(** Every op of the loop is a key of the final map, and every binding of the
    final map is an initial one or the device of an op of the loop. *)
Lemma assign_devices_map (op_handles : list OpHandleBase)
    (place_num place_num' : Z) (op_to_dev_idx op_to_dev_idx' : gmap OpPtr Z) :
  assign_devices op_handles place_num op_to_dev_idx
    = Some (place_num', op_to_dev_idx') →
  (∀ op, op ∈ op_handles → is_Some (op_to_dev_idx' !! op_this op))
  ∧ (∀ p dev_idx, op_to_dev_idx' !! p = Some dev_idx →
       op_to_dev_idx !! p = Some dev_idx
       ∨ ∃ op, op ∈ op_handles ∧ op_this op = p
               ∧ GetUniqueDeviceIdOfOp op = dev_idx)
  ∧ (∀ p, is_Some (op_to_dev_idx !! p) → is_Some (op_to_dev_idx' !! p)).
Proof.
  revert place_num op_to_dev_idx.
  induction op_handles as [|op rest IH]; intros place_num op_to_dev_idx; simpl.
  - intros [= <- <-]. split_and!; [by intros ? ?%elem_of_nil|by left|done].
  - destruct (_ =? kUndefinedDevIdx) eqn:Hdet; [done|].
    intros Hrest. destruct (IH _ _ Hrest) as (Hkeys & Hbind & Hmono).
    split_and!.
    + intros op' [->|Hin]%elem_of_cons; [|by apply Hkeys].
      apply Hmono. rewrite lookup_insert_eq. by eexists.
    + intros p dev_idx Hp. destruct (Hbind _ _ Hp) as [Hins|(op' & ? & ? & ?)].
      * rewrite lookup_insert in Hins. case_decide as Heq.
        -- right. exists op. split_and!; [by left|done|congruence].
        -- by left.
      * right. exists op'. split_and!; [by right|done..].
    + intros p Hp. apply Hmono. rewrite lookup_insert. by case_decide.
Qed.

(** [place_num] is the larger of its initial value and of the wrapped
    successors of the devices of the ops. *)
Lemma assign_devices_place_num (op_handles : list OpHandleBase)
    (place_num place_num' : Z) (op_to_dev_idx op_to_dev_idx' : gmap OpPtr Z) :
  assign_devices op_handles place_num op_to_dev_idx
    = Some (place_num', op_to_dev_idx') →
  place_num ≤ place_num'
  ∧ (∀ op, op ∈ op_handles →
       size_t_wrap (GetUniqueDeviceIdOfOp op + 1) ≤ place_num')
  ∧ (place_num' = place_num
     ∨ ∃ op, op ∈ op_handles
             ∧ place_num' = size_t_wrap (GetUniqueDeviceIdOfOp op + 1)).
Proof.
  revert place_num op_to_dev_idx.
  induction op_handles as [|op rest IH]; intros place_num op_to_dev_idx; simpl.
  - intros [= <- <-]. split_and!; [lia|by intros ? ?%elem_of_nil|by left].
  - destruct (_ =? kUndefinedDevIdx) eqn:Hdet; [done|].
    intros Hrest. destruct (IH _ _ Hrest) as (Hle & Hub & Hmax).
    split_and!; [lia| |].
    + intros op' [->|Hin]%elem_of_cons; [lia|by apply Hub].
    + destruct Hmax as [->|(op' & Hin & ->)].
      * destruct (Z.max_spec place_num
                    (size_t_wrap (GetUniqueDeviceIdOfOp op + 1)))
          as [[_ ->]|[_ ->]]; [|by left].
        right. exists op. split; [by left|done].
      * right. exists op'. split; [by right|done].
Qed.

Lemma size_t_wrap_succ (dev_idx : Z) :
  0 ≤ dev_idx < 2 ^ 64 - 1 → size_t_wrap (dev_idx + 1) = dev_idx + 1.
Proof. intros ?. unfold size_t_wrap. apply Z.mod_small. lia. Qed.

(** ** The second loop: the dependency check *)

Lemma check_dependencies_returns (op_to_dev_idx : gmap OpPtr Z)
    (op_handles : list OpHandleBase) :
  (∀ op, op ∈ op_handles → is_Some (op_to_dev_idx !! op_this op)) →
  ∃ passed, check_dependencies op_to_dev_idx op_handles = Returned passed.
Proof.
  induction op_handles as [|op rest IH]; intros Hkeys; simpl; [by eexists|].
  destruct (Hkeys op) as [dev_idx ->]; [by left|].
  destruct (_ && _); [|by eexists].
  apply IH. intros op' Hin. apply Hkeys. by right.
Qed.

Lemma check_dependencies_passed (op_to_dev_idx : gmap OpPtr Z)
    (op_handles : list OpHandleBase) :
  check_dependencies op_to_dev_idx op_handles = Returned true →
  ∀ op, op ∈ op_handles →
    ∃ dev_idx, op_to_dev_idx !! op_this op = Some dev_idx
      ∧ inputs_on_device op_to_dev_idx dev_idx (Inputs op) = true
      ∧ outputs_on_device op_to_dev_idx dev_idx (Outputs op) = true.
Proof.
  induction op_handles as [|op rest IH]; simpl; [by intros _ ? ?%elem_of_nil|].
  destruct (op_to_dev_idx !! op_this op) as [dev_idx|] eqn:Hdev; [|done].
  destruct (_ && _) eqn:Hok; [|done].
  apply andb_true_iff in Hok as [Hins Houts].
  intros Hrest op' [->|Hin]%elem_of_cons; [|by apply IH].
  exists dev_idx. by rewrite Hdev.
Qed.

Lemma on_other_device_false (op_to_dev_idx : gmap OpPtr Z) (dev_idx : Z)
    (p : OpPtr) :
  on_other_device op_to_dev_idx dev_idx p = false ↔
  op_to_dev_idx !! p = Some dev_idx.
Proof.
  unfold on_other_device. destruct (op_to_dev_idx !! p) as [second|]; [|done].
  destruct (Z.eqb_spec second dev_idx); simpl; split; congruence.
Qed.

Lemma inputs_on_device_true (op_to_dev_idx : gmap OpPtr Z) (dev_idx : Z)
    (ins : list VarHandleBase) :
  inputs_on_device op_to_dev_idx dev_idx ins = true ↔
  ∀ in_var generated_op,
    in_var ∈ ins → GeneratedOp in_var = Some generated_op →
    op_to_dev_idx !! generated_op = Some dev_idx.
Proof.
  unfold inputs_on_device. rewrite forallb_forall. split.
  - intros Hall in_var generated_op Hin Hgen.
    specialize (Hall in_var). rewrite <- list_elem_of_In in Hall.
    specialize (Hall Hin). rewrite Hgen in Hall.
    by apply on_other_device_false, negb_true_iff.
  - intros Hall in_var Hin%list_elem_of_In.
    destruct (GeneratedOp in_var) as [generated_op|] eqn:Hgen; [|done].
    by apply negb_true_iff, on_other_device_false, (Hall in_var).
Qed.

Lemma outputs_on_device_true (op_to_dev_idx : gmap OpPtr Z) (dev_idx : Z)
    (outs : list VarHandleBase) :
  outputs_on_device op_to_dev_idx dev_idx outs = true ↔
  ∀ out_var pending_op,
    out_var ∈ outs → pending_op ∈ PendingOps out_var →
    op_to_dev_idx !! pending_op = Some dev_idx.
Proof.
  unfold outputs_on_device. rewrite forallb_forall. split.
  - intros Hall out_var pending_op Hout Hpend.
    specialize (Hall out_var). rewrite <- list_elem_of_In in Hall.
    specialize (Hall Hout). rewrite forallb_forall in Hall.
    specialize (Hall pending_op). rewrite <- list_elem_of_In in Hall.
    by apply on_other_device_false, negb_true_iff, Hall.
  - intros Hall out_var Hout%list_elem_of_In. apply forallb_forall.
    intros pending_op Hpend%list_elem_of_In.
    by apply negb_true_iff, on_other_device_false, (Hall out_var).
Qed.

(** ** Reasoning about store computations *)

Lemma wp_ret {A} (a : A) (Q : A → Store → Prop) (s : Store) :
  Q a s → wp (mret a) Q s.
Proof. intros HQ a' s' [= <- <-]. done. Qed.

Lemma wp_raise {A} (e : Error) (Q : A → Store → Prop) (s : Store) :
  wp (raise e) Q s.
Proof. intros a s' [=]. Qed.

Lemma wp_bind {A B} (m : M A) (k : A → M B) (Q : B → Store → Prop) (s : Store) :
  wp m (λ a s', wp (k a) Q s') s → wp (m ≫= k) Q s.
Proof.
  intros Hm b s'. unfold mbind, M_bind.
  destruct (m s) as [[a|e] s1] eqn:Hms; [|done].
  intros Hk. by eapply Hm.
Qed.

Lemma wp_mono {A} (m : M A) (Q Q' : A → Store → Prop) (s : Store) :
  wp m Q s → (∀ a s', Q a s' → Q' a s') → wp m Q' s.
Proof. intros Hm HQ a s' Hrun. by apply HQ, Hm. Qed.

Lemma wp_for_each {A} (I : list A → Store → Prop) (l : list A)
    (body : A → M unit) (s : Store) :
  I [] s →
  (∀ done x rest s', l = done ++ x :: rest → I done s' →
     wp (body x) (λ _, I (done ++ [x])) s') →
  wp (for_each l body) (λ _, I l) s.
Proof.
  intros Hinit Hbody.
  cut (∀ done rest s', l = done ++ rest → I done s' →
         wp (for_each rest body) (λ _, I l) s').
  { intros Hgen. by apply (Hgen [] l). }
  intros done rest. revert done.
  induction rest as [|x rest IH]; intros done s' Hl Hdone; simpl.
  - apply wp_ret. by rewrite Hl, app_nil_r.
  - apply wp_bind. eapply wp_mono; [by eapply Hbody|].
    intros [] s'' Hstep. apply (IH (done ++ [x])); [|done].
    by rewrite <- app_assoc.
Qed.

Lemma wp_on_source {A} (f : Graph → Outcome (A * Graph))
    (Q : A → Store → Prop) (s : Store) :
  (∀ a g, f (source s) = Returned (a, g) →
     Q a {| source := g; graphs := graphs s |}) →
  wp (on_source f) Q s.
Proof.
  intros HQ a s'. unfold on_source.
  destruct (f (source s)) as [[a' g]|e]; [|done].
  intros [= <- <-]. by apply HQ.
Qed.

Lemma wp_read_source {A} (f : Graph → Outcome A) (Q : A → Store → Prop)
    (s : Store) :
  (∀ a, f (source s) = Returned a → Q a s) → wp (read_source f) Q s.
Proof.
  intros HQ. apply wp_on_source. intros a g.
  destruct (f (source s)) as [a'|e]; [|done].
  intros [= <- <-]. destruct s. by apply HQ.
Qed.

Lemma wp_write_source (f : Graph → Outcome Graph) (Q : unit → Store → Prop)
    (s : Store) :
  (∀ g, f (source s) = Returned g →
     Q tt {| source := g; graphs := graphs s |}) →
  wp (write_source f) Q s.
Proof.
  intros HQ. apply wp_on_source. intros [] g.
  destruct (f (source s)) as [g'|e]; [|done].
  intros [= <-]. by apply HQ.
Qed.

Lemma wp_read_graph {A} (i : nat) (f : Graph → Outcome A)
    (Q : A → Store → Prop) (s : Store) :
  (∀ g a, graphs s !! i = Some g → f g = Returned a → Q a s) →
  wp (read_graph i f) Q s.
Proof.
  intros HQ a s'. unfold read_graph.
  destruct (graphs s !! i) as [g|]; [|done].
  destruct (f g) as [a'|e] eqn:Hf; [|done].
  intros [= <- <-]. by eapply HQ.
Qed.

Lemma wp_write_graph (i : nat) (f : Graph → Outcome Graph)
    (Q : unit → Store → Prop) (s : Store) :
  (∀ g g', graphs s !! i = Some g → f g = Returned g' →
     Q tt {| source := source s; graphs := <[i := g']> (graphs s) |}) →
  wp (write_graph i f) Q s.
Proof.
  intros HQ a s'. unfold write_graph.
  destruct (graphs s !! i) as [g|]; [|done].
  destruct (f g) as [g'|e] eqn:Hf; [|done].
  intros [= <- <-]. by eapply HQ.
Qed.

Lemma wp_get_graphs (Q : list Graph → Store → Prop) (s : Store) :
  Q (graphs s) s → wp get_graphs Q s.
Proof. intros HQ a s' [= <- <-]. done. Qed.

(** ** Nodes of a graph *)

Lemma take_node_Some (p : NodePtr) (ns rest : list Node) (n : Node) :
  take_node p ns = Some (n, rest) →
  node_ptr n = p ∧ ns ≡ₚ n :: rest.
Proof.
  revert rest. induction ns as [|n' ns IH]; intros rest; simpl; [done|].
  case_decide as Hptr.
  - by intros [= <- <-].
  - destruct (take_node p ns) as [[m rest']|]; [|done].
    intros [= <- <-]. destruct (IH _ eq_refl) as [-> Hperm].
    split; [done|]. rewrite Hperm. apply Permutation_swap.
Qed.

Lemma take_node_None (p : NodePtr) (ns : list Node) :
  take_node p ns = None ↔ p ∉ node_ptr <$> ns.
Proof.
  induction ns as [|n ns IH]; simpl.
  - split; [intros _ ?%elem_of_nil; done|done].
  - rewrite not_elem_of_cons. case_decide as Hptr.
    + split; [done|]. by intros [? _].
    + destruct (take_node p ns) as [[m rest']|].
      * split; [done|]. intros [_ Hnot]. by apply IH in Hnot.
      * split; [|done]. intros _. split; [done|]. by apply IH.
Qed.

Lemma Graph_count_pos (p : NodePtr) (g : Graph) :
  (0 <? Graph_count p g) = bool_decide (p ∈ node_ptr <$> Nodes g).
Proof. unfold Graph_count. by case_bool_decide. Qed.

Lemma Graph_RemoveNode_Returned (p : NodePtr) (g g' : Graph) (n : Node) :
  Graph_RemoveNode p g = Returned (n, g') →
  node_ptr n = p ∧ Nodes g ≡ₚ n :: Nodes g' ∧ attrs g' = attrs g
  ∧ OriginProgram g' = OriginProgram g.
Proof.
  unfold Graph_RemoveNode.
  destruct (take_node p (Nodes g)) as [[m rest]|] eqn:Htake; [|done].
  intros [= <- <-]. by destruct (take_node_Some _ _ _ _ Htake).
Qed.

Lemma Graph_AddNode_Returned (n : Node) (g g' : Graph) :
  Graph_AddNode n g = Returned g' →
  Nodes g' = Nodes g ++ [n] ∧ attrs g' = attrs g.
Proof.
  unfold Graph_AddNode. destruct (0 <? _); [done|]. by intros [= <-].
Qed.

Lemma concat_insert_snoc (gs : list Graph) (i : nat) (g g' : Graph) (n : Node) :
  gs !! i = Some g → Nodes g' = Nodes g ++ [n] →
  concat (Nodes <$> <[i := g']> gs) ≡ₚ n :: concat (Nodes <$> gs).
Proof.
  intros Hi Hnodes.
  rewrite insert_take_drop by (by eapply lookup_lt_Some).
  rewrite <- (take_drop_middle gs i g Hi) at 3.
  rewrite !fmap_app, !fmap_cons, !concat_app, !concat_cons, Hnodes.
  rewrite (Permutation_app_comm (Nodes g) [n]). simpl.
  symmetry. apply Permutation_middle.
Qed.

Lemma fmap_Nodes_insert_same (gs : list Graph) (i : nat) (g g' : Graph) :
  gs !! i = Some g → Nodes g' = Nodes g →
  Nodes <$> <[i := g']> gs = Nodes <$> gs.
Proof.
  intros Hi Hnodes. rewrite list_fmap_insert, Hnodes.
  apply list_insert_id. by rewrite list_lookup_fmap, Hi.
Qed.

Lemma emplace_ret_vars_Nodes (name : string) (entry : list VarPtr)
    (g g' : Graph) :
  emplace_ret_vars name entry g = Returned g' → Nodes g' = Nodes g.
Proof.
  unfold emplace_ret_vars.
  destruct (Graph_Get_GraphVars g) as [[|ret_vars others]|e]; [done| |done].
  by intros [= <-].
Qed.

Lemma emplace_ret_dummy_vars_Nodes (dummy_var : VarPtr) (g g' : Graph) :
  emplace_ret_dummy_vars dummy_var g = Returned g' → Nodes g' = Nodes g.
Proof.
  unfold emplace_ret_dummy_vars.
  destruct (Graph_Get_GraphDepVars g) as [ret_dummy_vars|e]; [|done].
  by intros [= <-].
Qed.

Lemma concat_replicate_empty (k : nat) (g : Graph) :
  Nodes g = [] → concat (Nodes <$> replicate k g) = [].
Proof.
  intros Hg. induction k as [|k IH]; [done|].
  cbn [replicate]. by rewrite fmap_cons, concat_cons, Hg, IH.
Qed.

(** ** The transfer loop *)

Section transfer_invariant.
(** The graph given to the pass, the graph the construction loop makes,
    and the number of graphs. *)
Variable graph : Graph.
Variable fresh : Graph.
Variable k : nat.

Local Abbreviation inv := (transfer_inv graph fresh k).

Lemma transfer_inv_init :
  Nodes fresh = [] →
  inv ∅ ∅ {| source := graph; graphs := replicate k fresh |}.
Proof.
  intros Hfresh.
  pose proof (concat_replicate_empty k fresh Hfresh) as Hnil.
  split; simpl.
  - done.
  - apply length_replicate.
  - by rewrite Hnil, app_nil_r.
  - rewrite Hnil. by intros n ?%elem_of_nil.
  - intros _ n _. set_solver.
  - intros i Hi _. by apply lookup_replicate_2.
Qed.

Lemma transfer_inv_write_attrs (touched : gset NodePtr) (used : gset nat)
    (s : Store) (i : nat) (g g' : Graph) :
  inv touched used s →
  graphs s !! i = Some g → Nodes g' = Nodes g → i ∈ used →
  inv touched used
    {| source := source s; graphs := <[i := g']> (graphs s) |}.
Proof.
  intros [Hattrs Hlen Hperm Hmoved Hleft Hunused] Hi Hnodes Hused.
  split; simpl.
  - done.
  - by rewrite length_insert.
  - by rewrite (fmap_Nodes_insert_same _ _ _ _ Hi Hnodes).
  - by rewrite (fmap_Nodes_insert_same _ _ _ _ Hi Hnodes).
  - done.
  - intros j Hj Hnot. rewrite list_lookup_insert_ne; [by apply Hunused|].
    by intros ->.
Qed.

Lemma transfer_inv_move (touched : gset NodePtr) (used : gset nat)
    (s : Store) (p : NodePtr) (i : nat) (n : Node) (src' g g' : Graph) :
  inv touched used s →
  Graph_RemoveNode p (source s) = Returned (n, src') →
  graphs s !! i = Some g → Graph_AddNode n g = Returned g' →
  inv ({[p]} ∪ touched) ({[i]} ∪ used)
    {| source := src'; graphs := <[i := g']> (graphs s) |}.
Proof.
  intros [Hattrs Hlen Hperm Hmoved Hleft Hunused] Hremove Hi Hadd.
  apply Graph_RemoveNode_Returned in Hremove as (Hptr & Hsrc & Hattrs' & _).
  apply Graph_AddNode_Returned in Hadd as [Hnodes _].
  pose proof (concat_insert_snoc _ _ _ _ _ Hi Hnodes) as Hconcat.
  split; simpl.
  - congruence.
  - by rewrite length_insert.
  - rewrite Hconcat, <- Permutation_middle, <- Hperm, Hsrc. done.
  - intros n'. rewrite Hconcat. intros [->|Hin]%elem_of_cons.
    + set_solver.
    + specialize (Hmoved _ Hin). set_solver.
  - intros Hnodup n' Hin.
    assert (n' ∈ Nodes (source s)) as Hin'.
    { rewrite Hsrc. by right. }
    specialize (Hleft Hnodup _ Hin').
    assert (node_ptr n' ≠ p) as Hne; [|set_solver].
    rewrite <- Hperm, Hsrc in Hnodup. simpl in Hnodup.
    apply NoDup_cons in Hnodup as [Hfirst _].
    intros Heq. apply Hfirst. rewrite Hptr, <- Heq, fmap_app.
    apply elem_of_app. left. by apply list_elem_of_fmap_2.
  - intros j Hj Hnot. rewrite list_lookup_insert_ne; [|set_solver].
    apply Hunused; [done|set_solver].
Qed.

Lemma transfer_inv_absent (touched : gset NodePtr) (used : gset nat)
    (s : Store) (p : NodePtr) :
  inv touched used s →
  p ∉ node_ptr <$> Nodes (source s) →
  inv ({[p]} ∪ touched) used s.
Proof.
  intros [Hattrs Hlen Hperm Hmoved Hleft Hunused] Habsent.
  split; try done.
  - intros n Hin. specialize (Hmoved _ Hin). set_solver.
  - intros Hnodup n Hin. specialize (Hleft Hnodup _ Hin).
    assert (node_ptr n ≠ p); [|set_solver].
    intros <-. apply Habsent. by apply list_elem_of_fmap_2.
Qed.

Lemma wp_move_node (touched : gset NodePtr) (used : gset nat) (s : Store)
    (p : NodePtr) (i : nat) :
  inv touched used s →
  wp (move_node p i)
     (λ _, inv ({[p]} ∪ touched) ({[i]} ∪ used)) s.
Proof.
  intros Hinv. unfold move_node. apply wp_bind, wp_on_source.
  intros n src' Hremove. apply wp_write_graph. simpl.
  intros g g' Hi Hadd. by eapply (transfer_inv_move _ _ s).
Qed.

Lemma wp_handler (touched : gset NodePtr) (used : gset nat) (s : Store)
    (i : nat) (origin_vars : gmap string (list VarPtr))
    (vars : list VarHandleBase) :
  inv touched used s → i ∈ used →
  wp (handler i origin_vars vars)
     (λ _, inv (list_to_set (var_Node <$> vars) ∪ touched) used) s.
Proof.
  intros Hinv Hused. unfold handler.
  apply (wp_for_each
    (λ done, inv (list_to_set (var_Node <$> done) ∪ touched) used)).
  { simpl. by rewrite (left_id_L ∅ (∪)). }
  intros done var rest s' _ Hdone.
  assert (list_to_set (var_Node <$> done ++ [var]) ∪ touched
          = {[var_Node var]} ∪ (list_to_set (var_Node <$> done) ∪ touched))
    as -> by (rewrite fmap_app, list_to_set_app_L; set_solver).
  assert ({[i]} ∪ used = used) as Hsame by set_solver.
  apply wp_bind, wp_read_source. intros present [= <-].
  rewrite Graph_count_pos. case_bool_decide as Hpresent.
  - apply wp_bind. eapply wp_mono; [by apply wp_move_node|].
    simpl. intros [] s'' Hmoved. rewrite Hsame in Hmoved.
    destruct (var_kind var) as [name scope_idx|].
    + destruct (origin_vars !! name) as [entry|]; [|apply wp_raise].
      apply wp_write_graph. intros g g' Hi Hemplace.
      eapply transfer_inv_write_attrs; [done..| |done].
      by eapply emplace_ret_vars_Nodes.
    + apply wp_write_graph. intros g g' Hi Hemplace.
      eapply transfer_inv_write_attrs; [done..| |done].
      by eapply emplace_ret_dummy_vars_Nodes.
  - apply wp_ret. by apply transfer_inv_absent.
Qed.

Lemma wp_transfer_op (touched : gset NodePtr) (used : gset nat) (s : Store)
    (op_to_dev_idx : gmap OpPtr Z) (op : OpHandleBase) :
  inv touched used s →
  wp (transfer_op op_to_dev_idx op)
     (λ _, inv (touched ∪ touched_nodes op)
             (used ∪ graph_index op_to_dev_idx op)) s.
Proof.
  intros Hinv. unfold transfer_op, graph_index.
  destruct (op_to_dev_idx !! op_this op) as [dev_idx|]; [|apply wp_raise].
  apply wp_bind, wp_read_graph. intros _ _ _ _.
  apply wp_bind, wp_read_graph. intros _ _ _ _.
  apply wp_bind, wp_read_source. intros origin_vars _.
  apply wp_bind. eapply wp_mono; [by apply wp_move_node|].
  simpl. intros [] s1 Hop.
  apply wp_bind. eapply wp_mono; [apply wp_handler; [done|set_solver]|].
  simpl. intros [] s2 Hins.
  eapply wp_mono; [apply wp_handler; [done|set_solver]|].
  simpl. intros [] s3 Houts. unfold touched_nodes.
  by replace (touched ∪ ({[op_Node op]} ∪ list_to_set (var_Node <$> Inputs op)
                ∪ list_to_set (var_Node <$> Outputs op)))
    with (list_to_set (var_Node <$> Outputs op)
          ∪ (list_to_set (var_Node <$> Inputs op)
             ∪ ({[op_Node op]} ∪ touched))) by set_solver;
  replace (used ∪ {[Z.to_nat dev_idx]}) with ({[Z.to_nat dev_idx]} ∪ used)
    by set_solver.
Qed.

Lemma wp_transfer_loop (s : Store) (op_to_dev_idx : gmap OpPtr Z)
    (op_handles : list OpHandleBase) :
  inv ∅ ∅ s →
  wp (for_each op_handles (transfer_op op_to_dev_idx))
     (λ _, inv (⋃ (touched_nodes <$> op_handles))
             (⋃ (graph_index op_to_dev_idx <$> op_handles))) s.
Proof.
  intros Hinit.
  apply (wp_for_each
    (λ done, inv (⋃ (touched_nodes <$> done))
               (⋃ (graph_index op_to_dev_idx <$> done)))); [done|].
  intros done op rest s' _ Hdone.
  rewrite !fmap_app, !union_list_app_L. simpl.
  rewrite !(right_id_L ∅ (∪)). by apply wp_transfer_op.
Qed.
End transfer_invariant.

(** ** The last loop: copying the optional attributes *)

Lemma Graph_Set_Returned (name : AttrName) (v : AttrValue) (g g' : Graph) :
  Graph_Set name v g = Returned g' →
  attrs g !! name = None ∧ Nodes g' = Nodes g
  ∧ attrs g' = <[name := v]> (attrs g).
Proof.
  unfold Graph_Set, Graph_Has. case_bool_decide as Hset; [done|].
  intros [= <-]. split_and!; [|done..].
  by apply eq_None_not_Some.
Qed.

Lemma Graph_Erase_Returned (name : AttrName) (g g' : Graph) :
  Graph_Erase name g = Returned g' →
  Nodes g' = Nodes g ∧ attrs g' = delete name (attrs g).
Proof.
  unfold Graph_Erase. destruct (Graph_Has name g); [|done].
  by intros [= <-].
Qed.

(** A successful copy leaves the nodes alone and adds the attribute of the
    source, if it has it, to the destination. *)
Lemma CopyGraphAttrIfExists_Returned (src dst dst' : Graph) (name : AttrName) :
  CopyGraphAttrIfExists src dst name = Returned dst' →
  Nodes dst' = Nodes dst
  ∧ ((attrs src !! name = None ∧ attrs dst' = attrs dst)
     ∨ (∃ v, attrs src !! name = Some v ∧ attrs dst !! name = None
             ∧ attrs dst' = <[name := v]> (attrs dst))).
Proof.
  unfold CopyGraphAttrIfExists, Graph_Has, Graph_Get.
  case_bool_decide as Hhas.
  - destruct Hhas as [v Hv]. rewrite Hv.
    destruct v, name; try done; intros (? & ? & ?)%Graph_Set_Returned;
      (split; [done|]); right; by eexists.
  - intros [= <-]. split; [done|]. left. split; [|done].
    by apply eq_None_not_Some.
Qed.

Lemma attrs_copied_Nodes (src g g' : Graph) :
  attrs_copied src g g' → Nodes g' = Nodes g.
Proof.
  intros (g1 & [H1 _]%CopyGraphAttrIfExists_Returned
             & [H2 _]%CopyGraphAttrIfExists_Returned). congruence.
Qed.

Lemma wp_copy_attrs_loop (s : Store) :
  wp (for_each (seq 0 (length (graphs s))) copy_attrs_to)
     (λ _ s', source s' = source s
              ∧ length (graphs s') = length (graphs s)
              ∧ ∀ i g, graphs s !! i = Some g →
                  ∃ g', graphs s' !! i = Some g'
                        ∧ attrs_copied (source s) g g') s.
Proof.
  eapply wp_mono.
  - apply (wp_for_each
      (λ done s', source s' = source s
                  ∧ length (graphs s') = length (graphs s)
                  ∧ (∀ i, i ∉ done → graphs s' !! i = graphs s !! i)
                  ∧ (∀ i g, i ∈ done → graphs s !! i = Some g →
                       ∃ g', graphs s' !! i = Some g'
                             ∧ attrs_copied (source s) g g'))).
    { split_and!; [done..|]. by intros i g ?%elem_of_nil. }
    intros done i rest s' Hseq (Hsrc & Hlen & Hrest & Hdone).
    assert (i ∉ done) as Hfresh.
    { pose proof (NoDup_seq 0 (length (graphs s))) as Hnodup.
      rewrite Hseq in Hnodup. apply NoDup_app in Hnodup as (_ & Hdisj & _).
      intros Hin. apply (Hdisj _ Hin). by left. }
    unfold copy_attrs_to.
    apply wp_bind, wp_read_source. intros graph [= <-].
    apply wp_bind, wp_write_graph. intros g g1 Hi Hcopy1. simpl.
    apply wp_write_graph. simpl. intros g1' g2 Hi1 Hcopy2.
    assert (i < length (graphs s'))%nat as Hlt by (by eapply lookup_lt_Some).
    rewrite list_lookup_insert_eq in Hi1 by done. injection Hi1 as <-.
    rewrite list_insert_insert_eq.
    split_and!.
    + done.
    + by rewrite length_insert.
    + intros j Hj. apply not_elem_of_app in Hj as [Hj Hne].
      rewrite list_lookup_insert_ne; [by apply Hrest|].
      intros ->. apply Hne. by left.
    + intros j gj [Hj|Hj%list_elem_of_singleton]%elem_of_app Hgj.
      * rewrite list_lookup_insert_ne; [by apply Hdone|]. by intros ->.
      * subst j. rewrite list_lookup_insert_eq by done.
        exists g2. split; [done|]. exists g1.
        rewrite (Hrest _ Hfresh), Hgj in Hi. injection Hi as <-.
        by rewrite <- Hsrc.
  - simpl. intros [] s' (Hsrc & Hlen & _ & Hdone). split_and!; [done..|].
    intros i g Hi. apply (Hdone i g); [|done].
    apply elem_of_seq. apply lookup_lt_Some in Hi. lia.
Qed.

(** ** The transfer as a whole *)

Section transfer_result.
Variable graph : Graph.
Variable fresh : Graph.
Variable k : nat.
Hypothesis fresh_empty : Nodes fresh = [].

(** What a transfer that returns has done. *)
Lemma transfer_Returned (op_to_dev_idx : gmap OpPtr Z)
    (op_handles : list OpHandleBase) (gs : list Graph) (s' : Store) :
  transfer op_to_dev_idx op_handles
    {| source := graph; graphs := replicate k fresh |} = (Returned gs, s') →
  length gs = k
  ∧ attrs (source s') = delete kGraphDepVars (delete kGraphVars (attrs graph))
  ∧ Nodes (source s') ++ concat (Nodes <$> gs) ≡ₚ Nodes graph
  ∧ (∀ n, n ∈ concat (Nodes <$> gs) →
       node_ptr n ∈ ⋃ (touched_nodes <$> op_handles))
  ∧ (NoDup (node_ptr <$> Nodes graph) →
     ∀ n, n ∈ Nodes (source s') →
       node_ptr n ∉ ⋃ (touched_nodes <$> op_handles))
  ∧ (∀ i, (i < k)%nat →
       i ∉ ⋃ (graph_index op_to_dev_idx <$> op_handles) →
       ∃ g, gs !! i = Some g ∧ attrs_copied (source s') fresh g).
Proof.
  revert gs s'.
  change (wp (transfer op_to_dev_idx op_handles)
    (λ gs s', length gs = k
       ∧ attrs (source s')
         = delete kGraphDepVars (delete kGraphVars (attrs graph))
       ∧ Nodes (source s') ++ concat (Nodes <$> gs) ≡ₚ Nodes graph
       ∧ (∀ n, n ∈ concat (Nodes <$> gs) →
            node_ptr n ∈ ⋃ (touched_nodes <$> op_handles))
       ∧ (NoDup (node_ptr <$> Nodes graph) →
          ∀ n, n ∈ Nodes (source s') →
            node_ptr n ∉ ⋃ (touched_nodes <$> op_handles))
       ∧ (∀ i, (i < k)%nat →
            i ∉ ⋃ (graph_index op_to_dev_idx <$> op_handles) →
            ∃ g, gs !! i = Some g ∧ attrs_copied (source s') fresh g))
    {| source := graph; graphs := replicate k fresh |}).
  unfold transfer. apply wp_bind.
  eapply wp_mono;
    [by apply (wp_transfer_loop graph fresh k), transfer_inv_init|].
  simpl. intros [] s1 [Hattrs Hlen Hperm Hmoved Hleft Hunused].
  apply wp_bind, wp_write_source. intros src1 Herase1.
  apply Graph_Erase_Returned in Herase1 as [Hnodes1 Hattrs1].
  apply wp_bind, wp_write_source. simpl. intros src2 Herase2.
  apply Graph_Erase_Returned in Herase2 as [Hnodes2 Hattrs2].
  apply wp_bind, wp_get_graphs. simpl.
  apply wp_bind.
  eapply wp_mono;
    [apply (wp_copy_attrs_loop {| source := src2; graphs := graphs s1 |})|].
  simpl. intros [] s2 (Hsrc & Hlen2 & Hcopied).
  apply wp_get_graphs.
  assert (Nodes <$> graphs s2 = Nodes <$> graphs s1) as Hsame.
  { apply list_eq. intros i. rewrite !list_lookup_fmap.
    destruct (graphs s1 !! i) as [g|] eqn:Hi; simpl.
    - destruct (Hcopied _ _ Hi) as (g' & -> & Hcopy). simpl.
      by rewrite (attrs_copied_Nodes _ _ _ Hcopy).
    - apply lookup_ge_None in Hi. rewrite <- Hlen2 in Hi.
      apply lookup_ge_None in Hi. by rewrite Hi. }
  rewrite Hsrc, Hsame, Hnodes2, Hnodes1. split_and!.
  - congruence.
  - by rewrite Hattrs2, Hattrs1, Hattrs.
  - done.
  - done.
  - done.
  - intros i Hi Hnot. specialize (Hunused i Hi Hnot).
    by apply Hcopied.
Qed.
End transfer_result.

(** ** The failures of the transfer *)

Lemma errors_in_ret {A} (E : Error → Prop) (a : A) : errors_in E (mret a).
Proof. intros s e s' [=]. Qed.

Lemma errors_in_raise {A} (E : Error → Prop) (e : Error) :
  E e → errors_in E (raise (A:=A) e).
Proof. intros He s e' s' [= <- <-]. done. Qed.

Lemma errors_in_bind {A B} (E : Error → Prop) (m : M A) (k : A → M B) :
  errors_in E m → (∀ a, errors_in E (k a)) → errors_in E (m ≫= k).
Proof.
  intros Hm Hk s e s'. unfold mbind, M_bind.
  destruct (m s) as [[a|e1] s1] eqn:Hms.
  - apply Hk.
  - intros [= <- <-]. by eapply Hm.
Qed.

Lemma errors_in_for_each {A} (E : Error → Prop) (l : list A)
    (body : A → M unit) :
  (∀ x, errors_in E (body x)) → errors_in E (for_each l body).
Proof.
  intros Hbody. induction l as [|x l IH]; simpl.
  - apply errors_in_ret.
  - apply errors_in_bind; [done|]. by intros [].
Qed.

Lemma errors_in_on_source {A} (E : Error → Prop)
    (f : Graph → Outcome (A * Graph)) :
  (∀ g e, f g = Raised e → E e) → errors_in E (on_source f).
Proof.
  intros Hf s e s'. unfold on_source.
  destruct (f (source s)) as [[a g]|e1] eqn:Hfs; [done|].
  intros [= <- <-]. by eapply Hf.
Qed.

Lemma errors_in_read_source {A} (E : Error → Prop) (f : Graph → Outcome A) :
  (∀ g e, f g = Raised e → E e) → errors_in E (read_source f).
Proof.
  intros Hf. apply errors_in_on_source. intros g e.
  destruct (f g) as [a|e1] eqn:Hfg; [done|]. intros [= <-]. by eapply Hf.
Qed.

Lemma errors_in_write_source (E : Error → Prop) (f : Graph → Outcome Graph) :
  (∀ g e, f g = Raised e → E e) → errors_in E (write_source f).
Proof.
  intros Hf. apply errors_in_on_source. intros g e.
  destruct (f g) as [a|e1] eqn:Hfg; [done|]. intros [= <-]. by eapply Hf.
Qed.

Lemma errors_in_read_graph {A} (E : Error → Prop) (i : nat)
    (f : Graph → Outcome A) :
  E OutOfRange → (∀ g e, f g = Raised e → E e) → errors_in E (read_graph i f).
Proof.
  intros Hrange Hf s e s'. unfold read_graph.
  destruct (graphs s !! i) as [g|]; [|by intros [= <- <-]].
  destruct (f g) as [a|e1] eqn:Hfg; [done|]. intros [= <- <-]. by eapply Hf.
Qed.

Lemma errors_in_write_graph (E : Error → Prop) (i : nat)
    (f : Graph → Outcome Graph) :
  E OutOfRange → (∀ g e, f g = Raised e → E e) → errors_in E (write_graph i f).
Proof.
  intros Hrange Hf s e s'. unfold write_graph.
  destruct (graphs s !! i) as [g|]; [|by intros [= <- <-]].
  destruct (f g) as [a|e1] eqn:Hfg; [done|]. intros [= <- <-]. by eapply Hf.
Qed.

Lemma Graph_Get_error (name : AttrName) (g : Graph) (e : Error) :
  Graph_Get name g = Raised e → graph_error e.
Proof. unfold Graph_Get, graph_error. graph_error_cases. Qed.

Lemma Graph_Get_GraphVars_error (g : Graph) (e : Error) :
  Graph_Get_GraphVars g = Raised e → graph_error e.
Proof.
  unfold Graph_Get_GraphVars.
  destruct (Graph_Get kGraphVars g) as [v|e1] eqn:Hget.
  - unfold graph_error. graph_error_cases.
  - intros [= <-]. by eapply Graph_Get_error.
Qed.

Lemma Graph_Get_GraphDepVars_error (g : Graph) (e : Error) :
  Graph_Get_GraphDepVars g = Raised e → graph_error e.
Proof.
  unfold Graph_Get_GraphDepVars.
  destruct (Graph_Get kGraphDepVars g) as [v|e1] eqn:Hget.
  - unfold graph_error. graph_error_cases.
  - intros [= <-]. by eapply Graph_Get_error.
Qed.

Lemma Graph_Set_error (name : AttrName) (v : AttrValue) (g : Graph) (e : Error) :
  Graph_Set name v g = Raised e → graph_error e.
Proof. unfold Graph_Set, graph_error. graph_error_cases. Qed.

Lemma Graph_Erase_error (name : AttrName) (g : Graph) (e : Error) :
  Graph_Erase name g = Raised e → graph_error e.
Proof. unfold Graph_Erase, graph_error. graph_error_cases. Qed.

Lemma Graph_RemoveNode_error (p : NodePtr) (g : Graph) (e : Error) :
  Graph_RemoveNode p g = Raised e → graph_error e.
Proof. unfold Graph_RemoveNode, graph_error. graph_error_cases. Qed.

Lemma Graph_AddNode_error (n : Node) (g : Graph) (e : Error) :
  Graph_AddNode n g = Raised e → graph_error e.
Proof. unfold Graph_AddNode, graph_error. graph_error_cases. Qed.

Lemma index_GraphVars_error (idx : nat)
    (vars : list (gmap string (list VarPtr))) (e : Error) :
  index_GraphVars idx vars = Raised e → graph_error e.
Proof. unfold index_GraphVars, graph_error. graph_error_cases. Qed.

Lemma CopyGraphAttrIfExists_error (src dst : Graph) (name : AttrName)
    (e : Error) :
  CopyGraphAttrIfExists src dst name = Raised e → graph_error e.
Proof.
  unfold CopyGraphAttrIfExists.
  destruct (Graph_Has name src); [|done].
  destruct (Graph_Get name src) as [v|e1] eqn:Hget.
  - destruct v, name; try (by intros [= <-]); apply Graph_Set_error.
  - destruct name; intros [= <-]; by eapply Graph_Get_error.
Qed.

Lemma emplace_ret_vars_error (name : string) (entry : list VarPtr)
    (g : Graph) (e : Error) :
  emplace_ret_vars name entry g = Raised e → graph_error e.
Proof.
  unfold emplace_ret_vars.
  destruct (Graph_Get_GraphVars g) as [[|ret_vars others]|e1] eqn:Hget;
    [by intros [= <-]|done|].
  intros [= <-]. by eapply Graph_Get_GraphVars_error.
Qed.

Lemma emplace_ret_dummy_vars_error (dummy_var : VarPtr) (g : Graph) (e : Error) :
  emplace_ret_dummy_vars dummy_var g = Raised e → graph_error e.
Proof.
  unfold emplace_ret_dummy_vars.
  destruct (Graph_Get_GraphDepVars g) as [ret_dummy_vars|e1] eqn:Hget; [done|].
  intros [= <-]. by eapply Graph_Get_GraphDepVars_error.
Qed.

Lemma move_node_errors (node : NodePtr) (i : nat) :
  errors_in graph_error (move_node node i).
Proof.
  unfold move_node. apply errors_in_bind.
  - apply errors_in_on_source, Graph_RemoveNode_error.
  - intros n. apply errors_in_write_graph; [done|apply Graph_AddNode_error].
Qed.

Lemma handler_errors (i : nat) (origin_vars : gmap string (list VarPtr))
    (vars : list VarHandleBase) :
  errors_in graph_error (handler i origin_vars vars).
Proof.
  unfold handler. apply errors_in_for_each. intros var.
  apply errors_in_bind; [by apply errors_in_read_source|].
  intros [|]; [|apply errors_in_ret].
  apply errors_in_bind; [apply move_node_errors|]. intros _.
  destruct (var_kind var) as [name scope_idx|].
  - destruct (origin_vars !! name) as [entry|].
    + apply errors_in_write_graph; [done|apply emplace_ret_vars_error].
    + by apply errors_in_raise.
  - apply errors_in_write_graph; [done|apply emplace_ret_dummy_vars_error].
Qed.

Lemma transfer_op_errors (op_to_dev_idx : gmap OpPtr Z) (op : OpHandleBase) :
  errors_in graph_error (transfer_op op_to_dev_idx op).
Proof.
  unfold transfer_op.
  destruct (op_to_dev_idx !! op_this op) as [dev_idx|];
    [|by apply errors_in_raise].
  apply errors_in_bind.
  { apply errors_in_read_graph; [done|]. intros g e.
    destruct (Graph_Get_GraphVars g) as [vars|e1] eqn:Hget.
    - apply index_GraphVars_error.
    - intros [= <-]. by eapply Graph_Get_GraphVars_error. }
  intros _. apply errors_in_bind.
  { apply errors_in_read_graph; [done|apply Graph_Get_GraphDepVars_error]. }
  intros _. apply errors_in_bind.
  { apply errors_in_read_source. intros g e.
    destruct (Graph_Get_GraphVars g) as [vars|e1] eqn:Hget.
    - apply index_GraphVars_error.
    - intros [= <-]. by eapply Graph_Get_GraphVars_error. }
  intros origin_vars. apply errors_in_bind; [apply move_node_errors|].
  intros _. apply errors_in_bind; intros; apply handler_errors.
Qed.

Lemma transfer_errors (op_to_dev_idx : gmap OpPtr Z)
    (op_handles : list OpHandleBase) :
  errors_in graph_error (transfer op_to_dev_idx op_handles).
Proof.
  unfold transfer. apply errors_in_bind.
  { apply errors_in_for_each, transfer_op_errors. }
  intros _. apply errors_in_bind.
  { apply errors_in_write_source, Graph_Erase_error. }
  intros _. apply errors_in_bind.
  { apply errors_in_write_source, Graph_Erase_error. }
  intros _. apply errors_in_bind; [by intros s e s' [=]|].
  intros gs. apply errors_in_bind.
  { apply errors_in_for_each. intros i. unfold copy_attrs_to.
    apply errors_in_bind; [by apply errors_in_read_source|].
    intros graph. apply errors_in_bind; intros;
      (apply errors_in_write_graph;
        [done|intros ? ?; apply CopyGraphAttrIfExists_error]). }
  intros _. by intros s e s' [=].
Qed.

(** ** The pass as a whole *)

Lemma new_device_graph_Returned : new_device_graph = Returned fresh_graph.
Proof. reflexivity. Qed.

Lemma TrySeparate_separable (graph : Graph) (place_num : Z)
    (op_to_dev_idx : gmap OpPtr Z) :
  separable graph place_num op_to_dev_idx →
  TrySeparateToMultipleSingleDeviceGraphs graph =
  let r := transfer op_to_dev_idx (FilterByNodeWrapper graph)
             {| source := graph;
                graphs := replicate (Z.to_nat place_num) fresh_graph |} in
  (r.1, source r.2).
Proof.
  intros [Hprogram Hops Hassign Hcheck Hplaces].
  unfold TrySeparateToMultipleSingleDeviceGraphs.
  rewrite Hprogram, Hassign, Hcheck, new_device_graph_Returned.
  rewrite bool_decide_eq_false_2 by done.
  destruct (Z.leb_spec 1 place_num); [|lia].
  destruct (Z.eqb_spec place_num 1); [lia|done].
Qed.

(** The pass either aborts, leaving the graph as it was, or fails one of
    its two checks that raise, or goes through the transfer. *)
Lemma TrySeparate_cases (graph : Graph) :
  TrySeparateToMultipleSingleDeviceGraphs graph = (Returned [], graph)
  ∨ (∃ place_num op_to_dev_idx e,
       assign_devices (FilterByNodeWrapper graph) 0 ∅
         = Some (place_num, op_to_dev_idx)
       ∧ check_dependencies op_to_dev_idx (FilterByNodeWrapper graph)
         = Raised e
       ∧ TrySeparateToMultipleSingleDeviceGraphs graph = (Raised e, graph))
  ∨ (∃ place_num op_to_dev_idx,
       FilterByNodeWrapper graph ≠ []
       ∧ assign_devices (FilterByNodeWrapper graph) 0 ∅
         = Some (place_num, op_to_dev_idx)
       ∧ check_dependencies op_to_dev_idx (FilterByNodeWrapper graph)
         = Returned true
       ∧ place_num < 1
       ∧ TrySeparateToMultipleSingleDeviceGraphs graph
         = (Raised NoPlaceFound, graph))
  ∨ (∃ place_num op_to_dev_idx, separable graph place_num op_to_dev_idx).
Proof.
  unfold TrySeparateToMultipleSingleDeviceGraphs.
  destruct (ContainMultiDeviceOp _ 1) eqn:Hprogram; [by left|].
  case_bool_decide as Hops; [by left|].
  destruct (assign_devices _ 0 ∅) as [[place_num op_to_dev_idx]|] eqn:Hassign;
    [|by left].
  destruct (check_dependencies _ _) as [[|]|e] eqn:Hcheck; [|by left|].
  - destruct (Z.leb_spec 1 place_num); simpl.
    + destruct (Z.eqb_spec place_num 1); [by left|].
      do 3 right. exists place_num, op_to_dev_idx. split; [done..|lia].
    + right. right. left. by exists place_num, op_to_dev_idx.
  - right. left. by exists place_num, op_to_dev_idx, e.
Qed.

(** A pass that returns graphs has gone through the transfer. *)
Lemma TrySeparate_Returned (graph graph' : Graph) (gs : list Graph) :
  TrySeparateToMultipleSingleDeviceGraphs graph = (Returned gs, graph') →
  (gs = [] ∧ graph' = graph)
  ∨ ∃ place_num op_to_dev_idx s',
      separable graph place_num op_to_dev_idx
      ∧ transfer op_to_dev_idx (FilterByNodeWrapper graph)
          {| source := graph;
             graphs := replicate (Z.to_nat place_num) fresh_graph |}
        = (Returned gs, s')
      ∧ graph' = source s'.
Proof.
  intros Hrun.
  destruct (TrySeparate_cases graph)
    as [Habort|[(? & ? & ? & _ & _ & Hraise)|[(? & ? & _ & _ & _ & _ & Hraise)
        |(place_num & op_to_dev_idx & Hsep)]]]; [|congruence..|].
  - left. rewrite Habort in Hrun. by injection Hrun as <- <-.
  - right. rewrite (TrySeparate_separable _ _ _ Hsep) in Hrun. simpl in Hrun.
    destruct (transfer _ _ _) as [r s'] eqn:Htransfer. simpl in Hrun.
    injection Hrun as -> <-. by exists place_num, op_to_dev_idx, s'.
Qed.

Lemma separable_length (graph : Graph) (place_num : Z)
    (op_to_dev_idx : gmap OpPtr Z) (gs : list Graph) (s' : Store) :
  separable graph place_num op_to_dev_idx →
  transfer op_to_dev_idx (FilterByNodeWrapper graph)
    {| source := graph; graphs := replicate (Z.to_nat place_num) fresh_graph |}
    = (Returned gs, s') →
  Z.of_nat (length gs) = place_num ∧ (2 ≤ length gs)%nat.
Proof.
  intros Hsep Htransfer. pose proof (sep_places _ _ _ Hsep).
  apply transfer_Returned in Htransfer as (Hlen & _); [|done].
  rewrite Hlen. lia.
Qed.

Lemma elem_of_FilterByNodeWrapper (graph : Graph) (op : OpHandleBase) :
  op ∈ FilterByNodeWrapper graph ↔ OpNode op ∈ Nodes graph.
Proof.
  unfold FilterByNodeWrapper. rewrite list_elem_of_omap. split.
  - intros (n & Hin & Hn). destruct n; by simplify_eq.
  - intros Hin. by exists (OpNode op).
Qed.

Lemma TrySeparate_program_veto (graph : Graph) :
  ContainMultiDeviceOp (OriginProgram graph) 1 = true →
  TrySeparateToMultipleSingleDeviceGraphs graph = (Returned [], graph).
Proof.
  intros Hprogram. unfold TrySeparateToMultipleSingleDeviceGraphs.
  by rewrite Hprogram.
Qed.

Lemma TrySeparate_no_ops (graph : Graph) :
  FilterByNodeWrapper graph = [] →
  TrySeparateToMultipleSingleDeviceGraphs graph = (Returned [], graph).
Proof.
  intros Hops. unfold TrySeparateToMultipleSingleDeviceGraphs.
  rewrite Hops. simpl. by destruct (ContainMultiDeviceOp _ 1).
Qed.

Lemma TrySeparate_undetermined (graph : Graph) (op : OpHandleBase) :
  OpNode op ∈ Nodes graph →
  GetUniqueDeviceIdOfOp op = kUndefinedDevIdx →
  TrySeparateToMultipleSingleDeviceGraphs graph = (Returned [], graph).
Proof.
  intros Hin%elem_of_FilterByNodeWrapper Hundet.
  unfold TrySeparateToMultipleSingleDeviceGraphs.
  rewrite (assign_devices_undetermined _ _ _ _ Hin Hundet).
  destruct (ContainMultiDeviceOp _ 1); [done|]. by case_bool_decide.
Qed.

Lemma assign_devices_Some (op_handles : list OpHandleBase) (place_num : Z)
    (op_to_dev_idx : gmap OpPtr Z) :
  (∀ op, op ∈ op_handles → GetUniqueDeviceIdOfOp op ≠ kUndefinedDevIdx) →
  is_Some (assign_devices op_handles place_num op_to_dev_idx).
Proof.
  revert place_num op_to_dev_idx.
  induction op_handles as [|op rest IH]; intros place_num op_to_dev_idx Hdet;
    simpl; [by eexists|].
  destruct (Z.eqb_spec (GetUniqueDeviceIdOfOp op) kUndefinedDevIdx) as [Heq|_].
  - exfalso. by apply (Hdet op); [left|].
  - apply IH. intros op' Hin. apply Hdet. by right.
Qed.

Lemma assign_devices_check_returns (op_handles : list OpHandleBase)
    (place_num : Z) (op_to_dev_idx : gmap OpPtr Z) :
  assign_devices op_handles 0 ∅ = Some (place_num, op_to_dev_idx) →
  ∃ passed, check_dependencies op_to_dev_idx op_handles = Returned passed.
Proof.
  intros Hassign. apply check_dependencies_returns.
  by destruct (assign_devices_map _ _ _ _ _ Hassign) as [Hkeys _].
Qed.

(** ** The read-op scans *)

Lemma has_read_op_true (ops : list OpHandleBase) (drop_last : bool) :
  has_read_op ops drop_last = Returned true →
  ∃ op, op ∈ ops ∧ is_read_op drop_last op.
Proof.
  induction ops as [|op rest IH]; simpl; [done|].
  intros Hscan.
  assert (has_read_op rest drop_last = Returned true →
          ∃ op', op' ∈ op :: rest ∧ is_read_op drop_last op') as Hrest.
  { intros (op' & Hin & Hread)%IH. exists op'. split; [by right|done]. }
  destruct (op_kind op) as [compute_op scope_idx| | |] eqn:Hkind; try by auto.
  destruct (String.eqb_spec (OpType compute_op) "read") as [Htype|]; [|by auto].
  unfold Attr_bool in Hscan.
  destruct (OpAttrs compute_op !! "drop_last") as [[b| |]|] eqn:Hattr; try done.
  destruct (Bool.eqb_spec b drop_last) as [->|]; [|by auto].
  exists op. split; [by left|]. by exists compute_op, scope_idx.
Qed.

Lemma has_read_op_no_read (ops : list OpHandleBase) (drop_last : bool) :
  (∀ op, op ∈ ops → ¬ has_read_type op) →
  has_read_op ops drop_last = Returned false.
Proof.
  induction ops as [|op rest IH]; intros Hnone; simpl; [done|].
  assert (has_read_op rest drop_last = Returned false) as Hrest.
  { apply IH. intros op' Hin. apply Hnone. by right. }
  destruct (op_kind op) as [compute_op scope_idx| | |] eqn:Hkind; try done.
  destruct (String.eqb_spec (OpType compute_op) "read") as [Htype|]; [|done].
  exfalso. apply (Hnone op); [by left|]. by exists compute_op, scope_idx.
Qed.

Lemma has_read_op_declared (ops : list OpHandleBase) (drop_last : bool) :
  (∀ op, op ∈ ops → has_read_type op → ∃ b, is_read_op b op) →
  has_read_op ops drop_last = Returned true
  ∨ (has_read_op ops drop_last = Returned false
     ∧ ∀ op, op ∈ ops → ¬ is_read_op drop_last op).
Proof.
  induction ops as [|op rest IH]; intros Hdecl; simpl.
  { right. split; [done|]. by intros op ?%elem_of_nil. }
  assert (has_read_op rest drop_last = Returned true
          ∨ has_read_op rest drop_last = Returned false
            ∧ ∀ op', op' ∈ rest → ¬ is_read_op drop_last op') as Hrest.
  { apply IH. intros op' Hin. apply Hdecl. by right. }
  assert (¬ is_read_op drop_last op →
          has_read_op rest drop_last = Returned true
          ∨ has_read_op rest drop_last = Returned false
            ∧ ∀ op', op' ∈ op :: rest → ¬ is_read_op drop_last op') as Hskip.
  { intros Hnot. destruct Hrest as [|[? Hnone]]; [by left|right].
    split; [done|]. intros op' [->|Hin]%elem_of_cons; [done|by apply Hnone]. }
  destruct (op_kind op) as [compute_op scope_idx| | |] eqn:Hkind;
    try (apply Hskip; intros (? & ? & ? & _); congruence).
  destruct (String.eqb_spec (OpType compute_op) "read") as [Htype|Htype].
  - destruct (Hdecl op) as (b & c & s & Hkind' & _ & Hattr); [by left| |].
    { by exists compute_op, scope_idx. }
    rewrite Hkind in Hkind'. injection Hkind' as <- <-.
    unfold Attr_bool. rewrite Hattr.
    destruct (Bool.eqb_spec b drop_last) as [->|Hne]; [by left|].
    apply Hskip. intros (c & s & Hkind' & _ & Hattr').
    rewrite Hkind in Hkind'. injection Hkind' as <- <-. congruence.
  - apply Hskip. intros (c & s & Hkind' & Htype' & _).
    rewrite Hkind in Hkind'. injection Hkind' as <- <-. done.
Qed.

(** ** Lemmas for the claims *)

Lemma check_dependencies_same_device (op_to_dev_idx : gmap OpPtr Z)
    (op_handles : list OpHandleBase) (op : OpHandleBase) :
  check_dependencies op_to_dev_idx op_handles = Returned true →
  op ∈ op_handles →
  ∃ dev_idx, op_to_dev_idx !! op_this op = Some dev_idx
             ∧ same_device_dependencies op_to_dev_idx op dev_idx.
Proof.
  intros Hcheck Hin.
  destruct (check_dependencies_passed _ _ Hcheck op Hin)
    as (dev_idx & Hdev & Hins & Houts).
  exists dev_idx. split; [done|]. split.
  - intros in_var generated_op second Hvar Hgen Hsecond.
    rewrite inputs_on_device_true in Hins.
    specialize (Hins _ _ Hvar Hgen). congruence.
  - intros out_var pending_op second Hvar Hpending Hsecond.
    rewrite outputs_on_device_true in Houts.
    specialize (Houts _ _ Hvar Hpending). congruence.
Qed.

Lemma elem_of_touched_nodes (graph : Graph) (p : NodePtr) :
  p ∈ ⋃ (touched_nodes <$> FilterByNodeWrapper graph) ↔ attached_to_op graph p.
Proof.
  rewrite elem_of_union_list. unfold attached_to_op. split.
  - intros (X & (op & -> & Hin)%list_elem_of_fmap & Hp).
    exists op. split; [by apply elem_of_FilterByNodeWrapper|].
    unfold touched_nodes in Hp.
    rewrite !elem_of_union, elem_of_singleton, !elem_of_list_to_set in Hp.
    destruct Hp as [[->|(var & -> & Hvar)%list_elem_of_fmap]
                   |(var & -> & Hvar)%list_elem_of_fmap]; [by left|right..];
      exists var; (split; [|done]); apply elem_of_app; [by left|by right].
  - intros (op & Hin & Hp). exists (touched_nodes op). split.
    + apply list_elem_of_fmap_2. by apply elem_of_FilterByNodeWrapper.
    + unfold touched_nodes.
      rewrite !elem_of_union, elem_of_singleton, !elem_of_list_to_set.
      destruct Hp as [->|(var & [Hvar|Hvar]%elem_of_app & ->)];
        [by left; left|left; right|right]; by apply list_elem_of_fmap_2.
Qed.

Lemma elem_of_concat {A} (x : A) (ls : list (list A)) :
  x ∈ concat ls ↔ ∃ l, l ∈ ls ∧ x ∈ l.
Proof.
  induction ls as [|l' ls IH]; simpl.
  - split; [by intros ?%elem_of_nil|by intros (l & ?%elem_of_nil & _)].
  - rewrite elem_of_app, IH. split.
    + intros [Hx|(l & Hl & Hx)]; [exists l'|exists l];
        (split; [|done]); [by left|by right].
    + intros (l & [->|Hl]%elem_of_cons & Hx); [by left|right]. by exists l.
Qed.

Lemma NoDup_concat_lookup {A B} (f : A → B) (ls : list (list A))
    (i j : nat) (a b : list A) (x y : A) :
  NoDup (f <$> concat ls) →
  ls !! i = Some a → ls !! j = Some b → x ∈ a → y ∈ b → f x = f y → i = j.
Proof.
  revert i j. induction ls as [|l ls IH]; intros i j Hnodup Hi Hj Hx Hy Hf;
    [done|].
  simpl in Hnodup. rewrite fmap_app in Hnodup.
  apply NoDup_app in Hnodup as (_ & Hdisj & Hrest).
  assert (∀ k c z, ls !! k = Some c → z ∈ c → f z ∈ f <$> concat ls) as Hlater.
  { intros k c z Hk Hz. apply list_elem_of_fmap_2, elem_of_concat.
    exists c. split; [|done]. by eapply list_elem_of_lookup_2. }
  destruct i as [|i], j as [|j]; simpl in Hi, Hj; simplify_eq.
  - done.
  - exfalso. apply (Hdisj (f x)); [by apply list_elem_of_fmap_2|].
    rewrite Hf. by eapply Hlater.
  - exfalso. apply (Hdisj (f y)); [by apply list_elem_of_fmap_2|].
    rewrite <- Hf. by eapply Hlater.
  - f_equal. by eapply IH.
Qed.

Lemma attrs_copied_fresh (src g : Graph) :
  attrs_copied src fresh_graph g →
  Nodes g = [] ∧ untouched_attrs src g.
Proof.
  intros (g1 & Hcopy1 & Hcopy2).
  apply CopyGraphAttrIfExists_Returned in Hcopy1 as [Hnodes1 Hattrs1].
  apply CopyGraphAttrIfExists_Returned in Hcopy2 as [Hnodes2 Hattrs2].
  split; [by rewrite Hnodes2, Hnodes1|].
  unfold untouched_attrs.
  destruct Hattrs1 as [[Hnone1 Heq1]|(v1 & Hsome1 & _ & Heq1)],
           Hattrs2 as [[Hnone2 Heq2]|(v2 & Hsome2 & _ & Heq2)];
    rewrite Heq2, Heq1; simpl;
    split_and!; try intros name; by simplify_map_eq.
Qed.

Lemma graph_index_unused (graph : Graph) (place_num : Z)
    (op_to_dev_idx : gmap OpPtr Z) (i : nat) :
  (∀ op, OpNode op ∈ Nodes graph → scope_idx_fits op) →
  assign_devices (FilterByNodeWrapper graph) 0 ∅
    = Some (place_num, op_to_dev_idx) →
  (∀ op, OpNode op ∈ Nodes graph → GetUniqueDeviceIdOfOp op ≠ Z.of_nat i) →
  i ∉ ⋃ (graph_index op_to_dev_idx <$> FilterByNodeWrapper graph).
Proof.
  intros Hfits Hassign Hunused
    (X & (op & -> & Hin)%list_elem_of_fmap & Hi)%elem_of_union_list.
  unfold graph_index in Hi.
  destruct (op_to_dev_idx !! op_this op) as [dev_idx|] eqn:Hdev;
    [|by apply not_elem_of_empty in Hi].
  apply elem_of_singleton in Hi.
  destruct (assign_devices_map _ _ _ _ _ Hassign) as (_ & Hbind & _).
  destruct (Hbind _ _ Hdev) as [Hempty|(op' & Hin' & _ & Hdev')];
    [by rewrite lookup_empty in Hempty|].
  pose proof (assign_devices_determined _ _ _ _ _ Hassign op' Hin') as Hdet.
  apply GetUniqueDeviceIdOfOp_range in Hdet;
    [|by apply Hfits, elem_of_FilterByNodeWrapper].
  apply (Hunused op'); [by apply elem_of_FilterByNodeWrapper|]. lia.
Qed.

(** * The claims *)

(** C1. The pass returns graphs only if the dependency check passes: every
    op node has a device index in the classification map, the op that
    generates one of its inputs has the same index if it is in the map, and
    so has every op pending on one of its outputs that is in the map; an op
    node for which this fails makes the pass return an empty sequence. *)
Theorem TrySeparate_dependency_check (graph graph' : Graph) (gs : list Graph) :
  (TrySeparateToMultipleSingleDeviceGraphs graph = (Returned gs, graph') →
   gs ≠ [] →
   ∃ place_num op_to_dev_idx,
     assign_devices (FilterByNodeWrapper graph) 0 ∅
       = Some (place_num, op_to_dev_idx)
     ∧ ∀ op, OpNode op ∈ Nodes graph →
         ∃ dev_idx, op_to_dev_idx !! op_this op = Some dev_idx
                    ∧ same_device_dependencies op_to_dev_idx op dev_idx)
  ∧ (∀ place_num op_to_dev_idx op dev_idx,
       assign_devices (FilterByNodeWrapper graph) 0 ∅
         = Some (place_num, op_to_dev_idx) →
       OpNode op ∈ Nodes graph →
       op_to_dev_idx !! op_this op = Some dev_idx →
       ¬ same_device_dependencies op_to_dev_idx op dev_idx →
       TrySeparateToMultipleSingleDeviceGraphs graph = (Returned [], graph)).
Proof.
  split.
  - intros [[-> _]|(place_num & op_to_dev_idx & s' & Hsep & _)]
      %TrySeparate_Returned Hne; [done|].
    destruct Hsep as [_ _ Hassign Hcheck _].
    exists place_num, op_to_dev_idx. split; [done|].
    intros op Hin%elem_of_FilterByNodeWrapper.
    by eapply check_dependencies_same_device.
  - intros place_num op_to_dev_idx op dev_idx Hassign
      Hin%elem_of_FilterByNodeWrapper Hdev Hmismatch.
    assert (check_dependencies op_to_dev_idx (FilterByNodeWrapper graph)
            ≠ Returned true) as Hfails.
    { intros Hcheck.
      destruct (check_dependencies_same_device _ _ _ Hcheck Hin)
        as (dev_idx' & Hdev' & Hsame).
      rewrite Hdev in Hdev'. by injection Hdev' as <-. }
    destruct (TrySeparate_cases graph)
      as [Habort|[(place_num' & op_to_dev_idx' & e & Hassign' & Hcheck & _)
          |[(place_num' & op_to_dev_idx' & _ & Hassign' & Hcheck & _)
          |(place_num' & op_to_dev_idx' & [_ _ Hassign' Hcheck _])]]];
      [done|..]; rewrite Hassign in Hassign'; simplify_eq.
    destruct (assign_devices_check_returns _ _ _ Hassign). congruence.
Qed.

Lemma TrySeparate_dependency_check_witness :
  (∃ place_num op_to_dev_idx,
     assign_devices (FilterByNodeWrapper Examples.two_device_graph) 0 ∅
       = Some (place_num, op_to_dev_idx)
     ∧ ∀ op, OpNode op ∈ Nodes Examples.two_device_graph →
         ∃ dev_idx, op_to_dev_idx !! op_this op = Some dev_idx
                    ∧ same_device_dependencies op_to_dev_idx op dev_idx)
  ∧ TrySeparateToMultipleSingleDeviceGraphs Examples.cross_device_graph
    = (Returned [], Examples.cross_device_graph).
Proof.
  split.
  - destruct (TrySeparateToMultipleSingleDeviceGraphs Examples.two_device_graph)
      as [[gs|e] graph'] eqn:Hrun; [|by vm_compute in Hrun].
    destruct (TrySeparate_dependency_check Examples.two_device_graph graph' gs)
      as [Hpassed _].
    apply Hpassed; [done|]. intros ->. by vm_compute in Hrun.
  - destruct (TrySeparate_dependency_check Examples.cross_device_graph
                Examples.cross_device_graph []) as [_ Hmismatch].
    apply (Hmismatch 2 (<[2 := 1]> (<[1 := 0]> ∅)) Examples.first0 0).
    + by vm_compute.
    + by left.
    + by vm_compute.
    + intros [_ Houts].
      specialize (Houts Examples.dep 2 1). simpl in Houts.
      assert (1 = 0) as Habsurd; [|done].
      apply Houts; [by left|by left|by vm_compute].
Defined.

(** C2. Whenever the pass returns an empty sequence, the graph is as it was
    given: the same nodes, the same attributes.  Each abort condition (a
    multi-device op in a sub-block, no op node, an op that is not
    determined, a dependency across devices, a single device) makes it
    return the empty sequence in this way. *)
Theorem TrySeparate_empty_unchanged (graph graph' : Graph) :
  (TrySeparateToMultipleSingleDeviceGraphs graph = (Returned [], graph') →
   graph' = graph)
  ∧ (ContainMultiDeviceOp (OriginProgram graph) 1 = true
     ∨ FilterByNodeWrapper graph = []
     ∨ (∃ op, OpNode op ∈ Nodes graph
              ∧ GetUniqueDeviceIdOfOp op = kUndefinedDevIdx)
     ∨ (∃ place_num op_to_dev_idx,
          assign_devices (FilterByNodeWrapper graph) 0 ∅
            = Some (place_num, op_to_dev_idx)
          ∧ (check_dependencies op_to_dev_idx (FilterByNodeWrapper graph)
               = Returned false
             ∨ place_num = 1)) →
     TrySeparateToMultipleSingleDeviceGraphs graph = (Returned [], graph)).
Proof.
  split.
  - intros [[_ ->]|(place_num & op_to_dev_idx & s' & Hsep & Htransfer & _)]
      %TrySeparate_Returned; [done|].
    destruct (separable_length _ _ _ _ _ Hsep Htransfer) as [_ Hlen].
    simpl in Hlen. lia.
  - intros [Hprogram|[Hnone|[(op & Hin & Hundet)
      |(place_num & op_to_dev_idx & Hassign & Habort)]]].
    + by apply TrySeparate_program_veto.
    + by apply TrySeparate_no_ops.
    + by eapply TrySeparate_undetermined.
    + unfold TrySeparateToMultipleSingleDeviceGraphs. rewrite Hassign.
      destruct (ContainMultiDeviceOp _ 1); [done|].
      case_bool_decide; [done|].
      destruct (assign_devices_check_returns _ _ _ Hassign) as [passed Hcheck].
      rewrite Hcheck. destruct Habort as [Hfalse| ->].
      * rewrite Hcheck in Hfalse. by injection Hfalse as ->.
      * by destruct passed.
Qed.

Lemma TrySeparate_empty_unchanged_witness :
  (TrySeparateToMultipleSingleDeviceGraphs Examples.cross_device_graph).2
  = Examples.cross_device_graph
  ∧ TrySeparateToMultipleSingleDeviceGraphs Examples.cross_device_graph
    = (Returned [], Examples.cross_device_graph).
Proof.
  destruct (TrySeparate_empty_unchanged Examples.cross_device_graph
    (TrySeparateToMultipleSingleDeviceGraphs Examples.cross_device_graph).2)
    as [Hsame Habort].
  split.
  - apply Hsame. by vm_compute.
  - apply Habort. do 3 right.
    eexists _, _. split; [by vm_compute|]. left. by vm_compute.
Defined.

(** C3, as the code has it.  On a graph whose nodes are distinct, when the
    pass returns graphs: the nodes left in the given graph and the nodes of
    the returned graphs are, together, the nodes the graph had, each once
    (a node is moved, never copied); the nodes of the returned graphs are
    the op nodes and the nodes of the inputs and outputs of the ops, and the
    nodes attached to no op stay in the given graph; no node is in two
    returned graphs, nor in a returned graph and in the given one. *)
Theorem TrySeparate_moves_attached_nodes (graph graph' : Graph)
    (gs : list Graph) :
  NoDup (node_ptr <$> Nodes graph) →
  TrySeparateToMultipleSingleDeviceGraphs graph = (Returned gs, graph') →
  gs ≠ [] →
  Nodes graph' ++ concat (Nodes <$> gs) ≡ₚ Nodes graph
  ∧ (∀ n, n ∈ concat (Nodes <$> gs) ↔
          n ∈ Nodes graph ∧ attached_to_op graph (node_ptr n))
  ∧ (∀ n, n ∈ Nodes graph' ↔
          n ∈ Nodes graph ∧ ¬ attached_to_op graph (node_ptr n))
  ∧ (∀ i j gi gj ni nj,
       gs !! i = Some gi → gs !! j = Some gj →
       ni ∈ Nodes gi → nj ∈ Nodes gj → node_ptr ni = node_ptr nj → i = j)
  ∧ (∀ g n, g ∈ gs → n ∈ Nodes g → node_ptr n ∉ node_ptr <$> Nodes graph').
Proof.
  intros Hnodup [[-> _]|(place_num & op_to_dev_idx & s' & _ & Htransfer & ->)]
    %TrySeparate_Returned Hne; [done|].
  apply transfer_Returned in Htransfer
    as (_ & _ & Hperm & Hmoved & Hleft & _); [|done].
  specialize (Hleft Hnodup).
  assert (NoDup (node_ptr <$> (Nodes (source s') ++ concat (Nodes <$> gs))))
    as Hnodup' by (by rewrite Hperm).
  rewrite fmap_app in Hnodup'.
  apply NoDup_app in Hnodup' as (_ & Hdisj & Hnodup_gs).
  split_and!.
  - done.
  - intros n. split.
    + intros Hin. split.
      * rewrite <- Hperm. apply elem_of_app. by right.
      * by apply elem_of_touched_nodes, Hmoved.
    + intros [Hin Hattached]. rewrite <- Hperm in Hin.
      apply elem_of_app in Hin as [Hin|Hin]; [|done].
      apply Hleft in Hin. by rewrite elem_of_touched_nodes in Hin.
  - intros n. split.
    + intros Hin. split.
      * rewrite <- Hperm. apply elem_of_app. by left.
      * intros Hattached%elem_of_touched_nodes. by apply (Hleft n).
    + intros [Hin Hfree]. rewrite <- Hperm in Hin.
      apply elem_of_app in Hin as [Hin|Hin]; [done|].
      apply Hmoved in Hin. by rewrite elem_of_touched_nodes in Hin.
  - intros i j gi gj ni nj Hi Hj Hni Hnj Hptr.
    apply (NoDup_concat_lookup node_ptr (Nodes <$> gs) i j
             (Nodes gi) (Nodes gj) ni nj); try done.
    + by rewrite list_lookup_fmap, Hi.
    + by rewrite list_lookup_fmap, Hj.
  - intros g n Hg Hn Hsrc. apply (Hdisj _ Hsrc).
    apply list_elem_of_fmap_2, elem_of_concat. exists (Nodes g).
    split; [|done]. by apply list_elem_of_fmap_2.
Qed.

Lemma TrySeparate_moves_attached_nodes_witness :
  ∃ gs graph',
    TrySeparateToMultipleSingleDeviceGraphs Examples.graph_with_unused_var
      = (Returned gs, graph')
    ∧ Nodes graph' ++ concat (Nodes <$> gs)
      ≡ₚ Nodes Examples.graph_with_unused_var
    ∧ (∀ n, n ∈ Nodes graph' ↔
            n ∈ Nodes Examples.graph_with_unused_var
            ∧ ¬ attached_to_op Examples.graph_with_unused_var (node_ptr n)).
Proof.
  exists (returned_graphs (TrySeparateToMultipleSingleDeviceGraphs
              Examples.graph_with_unused_var)),
     (TrySeparateToMultipleSingleDeviceGraphs
              Examples.graph_with_unused_var).2.
  assert (TrySeparateToMultipleSingleDeviceGraphs Examples.graph_with_unused_var
      = (Returned (returned_graphs (TrySeparateToMultipleSingleDeviceGraphs
              Examples.graph_with_unused_var)),
     (TrySeparateToMultipleSingleDeviceGraphs
              Examples.graph_with_unused_var).2)) as Hrun.
  { by vm_compute. }
  split; [done|].
  destruct (TrySeparate_moves_attached_nodes
              Examples.graph_with_unused_var _ _ 
     ltac:(apply (bool_decide_unpack _); by vm_compute) Hrun) as (Hperm & _ & Hleft & _).
  - intros Heq. apply (f_equal length) in Heq. by vm_compute in Heq.
  - split; [exact Hperm|exact Hleft].
Defined.

(** C3 fails as it is stated: the pass returns two graphs for a graph that
    has a variable node attached to no op, and this node is in none of
    them. *)
Lemma TrySeparate_leaves_unattached_node :
  ∃ gs graph',
    TrySeparateToMultipleSingleDeviceGraphs Examples.graph_with_unused_var
      = (Returned gs, graph')
    ∧ gs ≠ []
    ∧ ¬ (∀ n, n ∈ Nodes Examples.graph_with_unused_var →
              n ∈ concat (Nodes <$> gs)).
Proof.
  exists (returned_graphs (TrySeparateToMultipleSingleDeviceGraphs
              Examples.graph_with_unused_var)),
     (TrySeparateToMultipleSingleDeviceGraphs
              Examples.graph_with_unused_var).2.
  split_and!.
  - by vm_compute.
  - intros Heq. apply (f_equal length) in Heq. by vm_compute in Heq.
  - intros Hall. specialize (Hall (VarNode Examples.unused) ltac:(by left)).
    apply (list_elem_of_fmap_2 node_ptr) in Hall.
    apply (bool_decide_pack _) in Hall. by vm_compute in Hall.
Qed.

(** C4. Device classification by handle kind: a computation op whose
    operator type is in the multi-device operator set is undetermined, every
    other computation op gets its recorded scope index; an eager-deletion
    handle and a share-tensor-buffer handle get their recorded scope index,
    without any look at the operator set; every other kind of handle is
    undetermined. *)
Theorem GetScopeIdxFromOp_by_kind (op : OpHandleBase) :
  (∀ compute_op scope_idx,
     op_kind op = ComputationOpHandle compute_op scope_idx →
     (OpType compute_op ∈ kMultiDeviceOps →
        GetScopeIdxFromOp op = kUndefinedDevIdx)
     ∧ (OpType compute_op ∉ kMultiDeviceOps →
        GetScopeIdxFromOp op = scope_idx))
  ∧ (∀ scope_idx, op_kind op = EagerDeletionOpHandle scope_idx →
       GetScopeIdxFromOp op = scope_idx)
  ∧ (∀ scope_idx, op_kind op = ShareTensorBufferOpHandle scope_idx →
       GetScopeIdxFromOp op = scope_idx)
  ∧ (op_kind op = OtherOpHandle → GetScopeIdxFromOp op = kUndefinedDevIdx).
Proof.
  unfold GetScopeIdxFromOp. split_and!.
  - intros compute_op scope_idx ->. rewrite kMultiDeviceOps_count_zero.
    split; intros Hset.
    + by rewrite bool_decide_eq_true_2.
    + by rewrite bool_decide_eq_false_2.
  - by intros scope_idx ->.
  - by intros scope_idx ->.
  - by intros ->.
Qed.

Lemma GetScopeIdxFromOp_by_kind_witness :
  GetScopeIdxFromOp Examples.send3 = kUndefinedDevIdx
  ∧ GetScopeIdxFromOp Examples.relu1 = 1
  ∧ GetScopeIdxFromOp Examples.eager_deletion4 = 4
  ∧ GetScopeIdxFromOp Examples.share_buffer5 = 5
  ∧ GetScopeIdxFromOp Examples.other_handle = kUndefinedDevIdx.
Proof.
  split_and!.
  - destruct (GetScopeIdxFromOp_by_kind Examples.send3) as (Hcompute & _).
    destruct (Hcompute _ _ eq_refl) as [Hin _]. apply Hin.
    by vm_compute.
  - destruct (GetScopeIdxFromOp_by_kind Examples.relu1) as (Hcompute & _).
    destruct (Hcompute _ _ eq_refl) as [_ Hout]. apply Hout.
    by vm_compute.
  - destruct (GetScopeIdxFromOp_by_kind Examples.eager_deletion4)
      as (_ & Heager & _). by apply Heager.
  - destruct (GetScopeIdxFromOp_by_kind Examples.share_buffer5)
      as (_ & _ & Hshare & _). by apply Hshare.
  - destruct (GetScopeIdxFromOp_by_kind Examples.other_handle)
      as (_ & _ & _ & Hother). by apply Hother.
Defined.

(** C5. Uniqueness refinement: when the device index of an op itself is
    determined and some variable among its inputs and outputs is recorded on
    another device index, the op is undetermined; and a graph with an op
    recorded on device index 2 whose one input variable is recorded on
    device index 5 makes the pass return an empty sequence. *)
Theorem GetUniqueDeviceIdOfOp_downgrade (op : OpHandleBase) :
  (GetScopeIdxFromOp op ≠ kUndefinedDevIdx →
   (∃ var name scope_idx,
      var ∈ Inputs op ++ Outputs op
      ∧ var_kind var = VarHandle name scope_idx
      ∧ scope_idx ≠ GetScopeIdxFromOp op) →
   GetUniqueDeviceIdOfOp op = kUndefinedDevIdx)
  ∧ (∀ graph var name,
       OpNode op ∈ Nodes graph →
       GetScopeIdx (op_kind op) = Some 2 →
       Inputs op = [var] → var_kind var = VarHandle name 5 →
       TrySeparateToMultipleSingleDeviceGraphs graph = (Returned [], graph)).
Proof.
  split.
  - intros _ (var & name & scope_idx & Hin & Hkind & Hne).
    by eapply GetUniqueDeviceIdOfOp_mismatch.
  - intros graph var name Hop Hscope Hins Hkind.
    apply (TrySeparate_undetermined _ op Hop).
    destruct (GetUniqueDeviceIdOfOp_cases op) as [|[_ Hdet]]; [done|].
    apply GetScopeIdxFromOp_determined in Hdet.
    apply (GetUniqueDeviceIdOfOp_mismatch op var name 5); [|done|].
    + rewrite Hins. by left.
    + intros Heq. rewrite Hscope in Hdet. rewrite <- Heq in Hdet. done.
Qed.

Lemma GetUniqueDeviceIdOfOp_downgrade_witness :
  GetUniqueDeviceIdOfOp Examples.relu_2_5 = kUndefinedDevIdx
  ∧ TrySeparateToMultipleSingleDeviceGraphs Examples.mismatch_graph
    = (Returned [], Examples.mismatch_graph).
Proof.
  destruct (GetUniqueDeviceIdOfOp_downgrade Examples.relu_2_5) as [Hop Hgraph].
  split.
  - apply Hop; [by vm_compute|].
    exists Examples.x5, "x", 5. split_and!; [by left|done|by vm_compute].
  - apply (Hgraph _ Examples.x5 "x"); [by left|done..].
Defined.

(** C6. Global veto: when the program the graph comes from has an operator
    of a multi-device type in a block other than the top-level one, the pass
    returns an empty sequence and leaves the graph as it was. *)
Theorem TrySeparate_sub_block_veto (graph : Graph) :
  (∃ block_idx block op_desc,
     (1 ≤ block_idx)%nat
     ∧ OriginProgram graph !! block_idx = Some block
     ∧ op_desc ∈ AllOps block
     ∧ DescType op_desc ∈ kMultiDeviceOps) →
  TrySeparateToMultipleSingleDeviceGraphs graph = (Returned [], graph).
Proof.
  intros Hop. by apply TrySeparate_program_veto, ContainMultiDeviceOp_true.
Qed.

Lemma TrySeparate_sub_block_veto_witness :
  TrySeparateToMultipleSingleDeviceGraphs Examples.graph_of_program_with_send
  = (Returned [], Examples.graph_of_program_with_send).
Proof.
  apply TrySeparate_sub_block_veto.
  exists 1%nat, {| AllOps := [ {| DescType := "relu" |}; {| DescType := "send" |} ] |},
    {| DescType := "send" |}.
  split_and!; [lia|done|by right; left|].
  by vm_compute.
Defined.

(** C7. Degenerate inputs: a graph without op nodes, and a graph all of
    whose op nodes resolve to device index 0, make the pass return an empty
    sequence. *)
Theorem TrySeparate_degenerate (graph : Graph) :
  FilterByNodeWrapper graph = []
  ∨ (∀ op, OpNode op ∈ Nodes graph → GetUniqueDeviceIdOfOp op = 0) →
  TrySeparateToMultipleSingleDeviceGraphs graph = (Returned [], graph).
Proof.
  intros [Hnone|Hzero]; [by apply TrySeparate_no_ops|].
  destruct (TrySeparate_cases graph)
    as [Habort|[(place_num & op_to_dev_idx & e & Hassign & Hcheck & _)
        |[(place_num & op_to_dev_idx & Hops & Hassign & _ & Hlt & _)
        |(place_num & op_to_dev_idx & [_ Hops Hassign _ Hge])]]]; [done|..].
  - destruct (assign_devices_check_returns _ _ _ Hassign). congruence.
  - exfalso. destruct (FilterByNodeWrapper graph) as [|op rest] eqn:Hlist; [done|].
    destruct (assign_devices_place_num _ _ _ _ _ Hassign) as (_ & Hub & _).
    specialize (Hub op). rewrite Hzero in Hub.
    + specialize (Hub ltac:(by left)).
      change (size_t_wrap (0 + 1)) with 1 in Hub. lia.
    + apply elem_of_FilterByNodeWrapper. rewrite Hlist. by left.
  - exfalso.
    destruct (assign_devices_place_num _ _ _ _ _ Hassign)
      as (_ & _ & [->|(op & Hin & ->)]); [lia|].
    rewrite Hzero in Hge by (by apply elem_of_FilterByNodeWrapper).
    change (size_t_wrap (0 + 1)) with 1 in Hge. lia.
Qed.

Lemma TrySeparate_degenerate_witness :
  TrySeparateToMultipleSingleDeviceGraphs Examples.one_device_graph
  = (Returned [], Examples.one_device_graph).
Proof.
  apply TrySeparate_degenerate. right. intros op Hin.
  repeat (apply elem_of_cons in Hin as [Hin|Hin]; [by simplify_eq|]).
  by apply elem_of_nil in Hin.
Defined.

(** C8, as the code has it.  Marker scan, on a graph whose computation ops
    of type ["read"] all have the boolean attribute ["drop_last"]:
    [HasDropLastReadOp] returns true if and only if the graph has a
    computation op of type ["read"] whose ["drop_last"] is true, and
    [HasKeepLastReadOp] returns true if and only if it has one whose
    ["drop_last"] is false; both return a boolean, and on a graph without a
    ["read"] op both return false.  Both are functions of the graph alone,
    and leave it as it is. *)
Theorem HasReadOp_spec (graph : Graph) :
  read_ops_declared graph →
  (HasDropLastReadOp graph = Returned true ↔
     ∃ op, OpNode op ∈ Nodes graph ∧ is_read_op true op)
  ∧ (HasKeepLastReadOp graph = Returned true ↔
       ∃ op, OpNode op ∈ Nodes graph ∧ is_read_op false op)
  ∧ (∃ dropped kept, HasDropLastReadOp graph = Returned dropped
                     ∧ HasKeepLastReadOp graph = Returned kept)
  ∧ ((∀ op, OpNode op ∈ Nodes graph → ¬ has_read_type op) →
       HasDropLastReadOp graph = Returned false
       ∧ HasKeepLastReadOp graph = Returned false).
Proof.
  intros Hdecl. unfold HasDropLastReadOp, HasKeepLastReadOp, HasDropLastReadOpImpl.
  assert (∀ drop_last,
    has_read_op (FilterByNodeWrapper graph) drop_last = Returned true
    ∨ has_read_op (FilterByNodeWrapper graph) drop_last = Returned false
      ∧ ∀ op, op ∈ FilterByNodeWrapper graph → ¬ is_read_op drop_last op)
    as Hscan.
  { intros drop_last. apply has_read_op_declared. intros op Hin.
    by apply Hdecl, elem_of_FilterByNodeWrapper. }
  assert (∀ drop_last,
    has_read_op (FilterByNodeWrapper graph) drop_last = Returned true ↔
    ∃ op, OpNode op ∈ Nodes graph ∧ is_read_op drop_last op) as Hiff.
  { intros drop_last. split.
    - intros (op & Hin & Hread)%has_read_op_true. exists op.
      by rewrite <- elem_of_FilterByNodeWrapper.
    - intros (op & Hin%elem_of_FilterByNodeWrapper & Hread).
      destruct (Hscan drop_last) as [|[_ Hnone]]; [done|].
      by destruct (Hnone op). }
  split_and!; [apply Hiff..| |].
  - destruct (Hscan true) as [->|[-> _]], (Hscan false) as [->|[-> _]];
      by do 2 eexists.
  - intros Hnone. split; apply has_read_op_no_read; intros op Hin;
      by apply Hnone, elem_of_FilterByNodeWrapper.
Qed.

Lemma HasReadOp_spec_witness :
  HasDropLastReadOp Examples.graph_with_read = Returned true
  ∧ HasKeepLastReadOp Examples.graph_with_read = Returned false
  ∧ HasDropLastReadOp Examples.two_device_graph = Returned false
  ∧ HasKeepLastReadOp Examples.two_device_graph = Returned false.
Proof.
  assert (is_read_op true Examples.read_drop_last) as Hread.
  { eexists _, _. split_and!; [reflexivity..|by vm_compute]. }
  assert (read_ops_declared Examples.graph_with_read) as Hdecl.
  { intros op Hin (compute_op & scope_idx & Hkind & Htype).
    repeat (apply elem_of_cons in Hin as [Hin|Hin]; [simplify_eq|]);
      [..|by apply elem_of_nil in Hin];
      cbn in Hkind; simplify_eq.
    by exists true. }
  assert (∀ op, OpNode op ∈ Nodes Examples.two_device_graph →
                ¬ has_read_type op) as Hnone.
  { intros op Hin (compute_op & scope_idx & Hkind & Htype).
    repeat (apply elem_of_cons in Hin as [Hin|Hin]; [simplify_eq|]);
      [..|by apply elem_of_nil in Hin];
      cbn in Hkind; simplify_eq. }
  assert (read_ops_declared Examples.two_device_graph) as Hdecl'.
  { intros op Hin Hop. by destruct (Hnone op). }
  destruct (HasReadOp_spec Examples.graph_with_read Hdecl)
    as (Hdrop & Hkeep & _ & _).
  destruct (HasReadOp_spec Examples.two_device_graph Hdecl')
    as (_ & _ & _ & Hfalse).
  split_and!.
  - apply Hdrop. exists Examples.read_drop_last. split; [by left|done].
  - by vm_compute.
  - by apply Hfalse.
  - by apply Hfalse.
Defined.

(** C8 fails as it is stated: a graph has a computation op of type ["read"]
    whose ["drop_last"] is true, and [HasDropLastReadOp] does not return
    true on it.  The graph enumerates a ["read"] op without the attribute
    first, and the look-up of the attribute raises there. *)
Lemma HasDropLastReadOp_undeclared_read :
  HasDropLastReadOp MoreExamples.graph_with_undeclared_read
    = Raised AttrNotFound
  ∧ (∃ op, OpNode op ∈ Nodes MoreExamples.graph_with_undeclared_read
           ∧ is_read_op true op)
  ∧ ¬ (HasDropLastReadOp MoreExamples.graph_with_undeclared_read
         = Returned true ↔
       ∃ op, OpNode op ∈ Nodes MoreExamples.graph_with_undeclared_read
             ∧ is_read_op true op).
Proof.
  assert (∃ op, OpNode op ∈ Nodes MoreExamples.graph_with_undeclared_read
                ∧ is_read_op true op) as Hop.
  { exists Examples.read_drop_last. split.
    - do 2 right. by left.
    - eexists _, _. split_and!; [reflexivity..|by vm_compute]. }
  assert (HasDropLastReadOp MoreExamples.graph_with_undeclared_read
            = Raised AttrNotFound) as Hraised by (vm_compute; reflexivity).
  split_and!; [exact Hraised|exact Hop|].
  intros [_ Hreturned]. specialize (Hreturned Hop).
  rewrite Hraised in Hreturned. discriminate Hreturned.
Qed.

(** C9. Internal consistency: when the op handles are not empty and every
    one of them has got a device index, the device count is at least 1, so
    that the pass never raises the failure of its enforce on the count.
    The scope indices are taken to fit a [size_t]. *)
Theorem place_num_enforce_unreachable (graph : Graph) :
  (∀ op, OpNode op ∈ Nodes graph → scope_idx_fits op) →
  (∀ place_num op_to_dev_idx,
     FilterByNodeWrapper graph ≠ [] →
     assign_devices (FilterByNodeWrapper graph) 0 ∅
       = Some (place_num, op_to_dev_idx) →
     1 ≤ place_num)
  ∧ (TrySeparateToMultipleSingleDeviceGraphs graph).1 ≠ Raised NoPlaceFound.
Proof.
  intros Hfits.
  assert (∀ place_num op_to_dev_idx,
     FilterByNodeWrapper graph ≠ [] →
     assign_devices (FilterByNodeWrapper graph) 0 ∅
       = Some (place_num, op_to_dev_idx) →
     1 ≤ place_num) as Hcount.
  { intros place_num op_to_dev_idx Hops Hassign.
    destruct (FilterByNodeWrapper graph) as [|op rest] eqn:Hlist; [done|].
    assert (op ∈ FilterByNodeWrapper graph) as Hin by (rewrite Hlist; by left).
    rewrite <- Hlist in Hassign.
    destruct (assign_devices_place_num _ _ _ _ _ Hassign) as (_ & Hub & _).
    specialize (Hub op Hin).
    pose proof (assign_devices_determined _ _ _ _ _ Hassign op Hin) as Hdet.
    apply GetUniqueDeviceIdOfOp_range in Hdet;
      [|by apply Hfits, elem_of_FilterByNodeWrapper].
    rewrite size_t_wrap_succ in Hub by done. lia. }
  split; [done|].
  destruct (TrySeparate_cases graph)
    as [->|[(place_num & op_to_dev_idx & e & Hassign & Hcheck & _)
        |[(place_num & op_to_dev_idx & Hops & Hassign & _ & Hlt & _)
        |(place_num & op_to_dev_idx & Hsep)]]]; [done|..].
  - destruct (assign_devices_check_returns _ _ _ Hassign). congruence.
  - specialize (Hcount _ _ Hops Hassign). lia.
  - rewrite (TrySeparate_separable _ _ _ Hsep). simpl.
    destruct (transfer _ _ _) as [[gs|e] s'] eqn:Htransfer; simpl; [done|].
    intros [= ->]. by apply transfer_errors in Htransfer.
Qed.

Lemma place_num_enforce_unreachable_witness :
  (∀ place_num op_to_dev_idx,
     FilterByNodeWrapper Examples.two_device_graph ≠ [] →
     assign_devices (FilterByNodeWrapper Examples.two_device_graph) 0 ∅
       = Some (place_num, op_to_dev_idx) →
     1 ≤ place_num)
  ∧ (TrySeparateToMultipleSingleDeviceGraphs Examples.two_device_graph).1
    ≠ Raised NoPlaceFound.
Proof.
  apply place_num_enforce_unreachable. intros op Hin scope_idx Hscope.
  repeat (apply elem_of_cons in Hin as [Hin|Hin]; [simplify_eq|]);
    [..|by apply elem_of_nil in Hin];
    cbn in Hscope; simplify_eq; unfold is_size_t; lia.
Defined.

(** C10, as the code has it.  When the pass returns graphs, their number is
    one more than the largest device index of an op node, and at least 2.
    At a position whose device index no op node has, the sequence has a
    graph without nodes; its attributes are the two tables the construction
    loop has set, still empty, and the copies of the attributes
    [kProgramDescs] and [kFusedVars] of the given graph, where it has them.
    The scope indices are taken to fit a [size_t]. *)
Theorem TrySeparate_graph_count (graph graph' : Graph) (gs : list Graph) :
  (∀ op, OpNode op ∈ Nodes graph → scope_idx_fits op) →
  TrySeparateToMultipleSingleDeviceGraphs graph = (Returned gs, graph') →
  gs ≠ [] →
  (∃ op, OpNode op ∈ Nodes graph
         ∧ Z.of_nat (length gs) = 1 + GetUniqueDeviceIdOfOp op)
  ∧ (∀ op, OpNode op ∈ Nodes graph →
       0 ≤ GetUniqueDeviceIdOfOp op < Z.of_nat (length gs))
  ∧ (2 ≤ length gs)%nat
  ∧ (∀ i, (i < length gs)%nat →
       (∀ op, OpNode op ∈ Nodes graph →
          GetUniqueDeviceIdOfOp op ≠ Z.of_nat i) →
       ∃ g, gs !! i = Some g ∧ Nodes g = [] ∧ untouched_attrs graph g).
Proof.
  intros Hfits [[-> _]|(place_num & op_to_dev_idx & s' & Hsep & Htransfer & ->)]
    %TrySeparate_Returned Hne; [done|].
  destruct (separable_length _ _ _ _ _ Hsep Htransfer) as [Hlen Htwo].
  destruct Hsep as [_ _ Hassign _ Hplaces].
  assert (∀ op, OpNode op ∈ Nodes graph →
            0 ≤ GetUniqueDeviceIdOfOp op < 2 ^ 64 - 1) as Hrange.
  { intros op Hin. apply GetUniqueDeviceIdOfOp_range; [by apply Hfits|].
    eapply assign_devices_determined; [done|].
    by apply elem_of_FilterByNodeWrapper. }
  destruct (assign_devices_place_num _ _ _ _ _ Hassign) as (_ & Hub & Hmax).
  split_and!.
  - destruct Hmax as [->|(op & Hin%elem_of_FilterByNodeWrapper & Hop)]; [lia|].
    exists op. split; [done|].
    rewrite size_t_wrap_succ in Hop by (by apply Hrange). lia.
  - intros op Hin. specialize (Hrange op Hin).
    specialize (Hub op). rewrite size_t_wrap_succ in Hub by done.
    apply elem_of_FilterByNodeWrapper in Hin. specialize (Hub Hin). lia.
  - done.
  - intros i Hi Hunused.
    apply transfer_Returned in Htransfer
      as (_ & Hattrs & _ & _ & _ & Hfresh); [|done].
    destruct (Hfresh i) as (g & Hg & Hcopied); [lia| |].
    { by eapply graph_index_unused. }
    exists g. split; [done|].
    apply attrs_copied_fresh in Hcopied as [Hnodes Huntouched].
    split; [done|].
    destruct Huntouched as (Hvars & Hdeps & Hdescs & Hfused & Hother).
    unfold untouched_attrs. rewrite Hattrs in Hdescs, Hfused.
    rewrite !lookup_delete_ne in Hdescs, Hfused by done.
    by split_and!.
Qed.

Lemma TrySeparate_graph_count_witness :
  ∃ gs graph',
    TrySeparateToMultipleSingleDeviceGraphs Examples.graph_with_gap
      = (Returned gs, graph')
    ∧ (2 ≤ length gs)%nat
    ∧ (∃ g, gs !! 1%nat = Some g ∧ Nodes g = []
            ∧ untouched_attrs Examples.graph_with_gap g).
Proof.
  assert (∀ op, OpNode op ∈ Nodes Examples.graph_with_gap →
            op = Examples.relu0 ∨ op = Examples.relu2) as Hops.
  { intros op Hin%elem_of_FilterByNodeWrapper.
    change (op ∈ [Examples.relu0; Examples.relu2]) in Hin.
    apply elem_of_cons in Hin as [->|Hin]; [by left|].
    apply elem_of_cons in Hin as [->|Hin]; [by right|].
    by apply elem_of_nil in Hin. }
  assert (∀ op, OpNode op ∈ Nodes Examples.graph_with_gap → scope_idx_fits op)
    as Hfits.
  { intros op [-> | ->]%Hops scope_idx [= <-]; unfold is_size_t; lia. }
  assert (∀ op, OpNode op ∈ Nodes Examples.graph_with_gap →
            GetUniqueDeviceIdOfOp op ≠ Z.of_nat 1) as Hunused.
  { intros op [-> | ->]%Hops; by vm_compute. }
  exists (returned_graphs
            (TrySeparateToMultipleSingleDeviceGraphs Examples.graph_with_gap)),
    (TrySeparateToMultipleSingleDeviceGraphs Examples.graph_with_gap).2.
  assert (TrySeparateToMultipleSingleDeviceGraphs Examples.graph_with_gap
    = (Returned (returned_graphs
         (TrySeparateToMultipleSingleDeviceGraphs Examples.graph_with_gap)),
       (TrySeparateToMultipleSingleDeviceGraphs Examples.graph_with_gap).2))
    as Hrun by (vm_compute; reflexivity).
  split; [exact Hrun|].
  destruct (TrySeparate_graph_count Examples.graph_with_gap _ _ Hfits Hrun)
    as (_ & _ & Htwo & Hgap).
  - clear. intros Heq. apply (f_equal length) in Heq.
    vm_compute in Heq. discriminate Heq.
  - split; [exact Htwo|]. apply Hgap; [|exact Hunused].
    clear. apply Nat.ltb_lt. vm_compute. reflexivity.
Defined.

(** C10 fails as it is stated: no op of the graph has device index 1, and
    the graph returned at position 1 holds, besides its two empty tables, a
    copy of the attribute [kProgramDescs] of the given graph. *)
Lemma TrySeparate_gap_graph_has_copied_attr :
  ∃ gs graph' g,
    TrySeparateToMultipleSingleDeviceGraphs Examples.graph_with_gap
      = (Returned gs, graph')
    ∧ (∀ op, OpNode op ∈ Nodes Examples.graph_with_gap →
         GetUniqueDeviceIdOfOp op ≠ 1)
    ∧ gs !! 1%nat = Some g
    ∧ ¬ (Nodes g = [] ∧ attrs g = attrs fresh_graph).
Proof.
  exists (returned_graphs
            (TrySeparateToMultipleSingleDeviceGraphs Examples.graph_with_gap)),
    (TrySeparateToMultipleSingleDeviceGraphs Examples.graph_with_gap).2,
    (default fresh_graph
       (returned_graphs
          (TrySeparateToMultipleSingleDeviceGraphs Examples.graph_with_gap)
        !! 1%nat)).
  split_and!.
  - by vm_compute.
  - intros op Hin%elem_of_FilterByNodeWrapper.
    change (op ∈ [Examples.relu0; Examples.relu2]) in Hin.
    apply elem_of_cons in Hin as [->|Hin]; [by vm_compute|].
    apply elem_of_cons in Hin as [->|Hin]; [by vm_compute|].
    by apply elem_of_nil in Hin.
  - by vm_compute.
  - intros [_ Heq]. apply (f_equal (.!! kProgramDescs)) in Heq.
    by vm_compute in Heq.
Qed.

(** * Further properties *)

(** ** The scans and the classification *)

Lemma unique_dev_idx_of_vars_all_agree (dev_idx : Z)
    (in_outs : list VarHandleBase) :
  (∀ var name scope_idx,
     var ∈ in_outs → var_kind var = VarHandle name scope_idx →
     scope_idx = dev_idx) →
  unique_dev_idx_of_vars dev_idx in_outs = dev_idx.
Proof.
  induction in_outs as [|var rest IH]; intros Hagree; simpl; [done|].
  assert (unique_dev_idx_of_vars dev_idx rest = dev_idx) as Hrest.
  { apply IH. intros var' name scope_idx Hin. apply Hagree. by right. }
  destruct (var_kind var) as [name scope_idx|] eqn:Hkind; [|done].
  rewrite (Hagree var name scope_idx) by (done || by left).
  by rewrite Z.eqb_refl.
Qed.

Lemma assign_devices_None (op_handles : list OpHandleBase) (place_num : Z)
    (op_to_dev_idx : gmap OpPtr Z) :
  assign_devices op_handles place_num op_to_dev_idx = None →
  ∃ op, op ∈ op_handles ∧ GetUniqueDeviceIdOfOp op = kUndefinedDevIdx.
Proof.
  revert place_num op_to_dev_idx.
  induction op_handles as [|op rest IH]; intros place_num op_to_dev_idx;
    simpl; [done|].
  destruct (Z.eqb_spec (GetUniqueDeviceIdOfOp op) kUndefinedDevIdx) as [Heq|_].
  - intros _. exists op. split; [by left|done].
  - intros (op' & Hin & Hundet)%IH. exists op'. split; [by right|done].
Qed.

Lemma TrySeparate_assign_None (graph : Graph) :
  assign_devices (FilterByNodeWrapper graph) 0 ∅ = None →
  TrySeparateToMultipleSingleDeviceGraphs graph = (Returned [], graph).
Proof.
  intros Hassign. unfold TrySeparateToMultipleSingleDeviceGraphs.
  rewrite Hassign. destruct (ContainMultiDeviceOp _ 1); [done|].
  by case_bool_decide.
Qed.

Lemma TrySeparate_check_failed (graph : Graph) (place_num : Z)
    (op_to_dev_idx : gmap OpPtr Z) :
  assign_devices (FilterByNodeWrapper graph) 0 ∅
    = Some (place_num, op_to_dev_idx) →
  check_dependencies op_to_dev_idx (FilterByNodeWrapper graph)
    ≠ Returned true →
  TrySeparateToMultipleSingleDeviceGraphs graph = (Returned [], graph).
Proof.
  intros Hassign Hcheck. unfold TrySeparateToMultipleSingleDeviceGraphs.
  rewrite Hassign. destruct (ContainMultiDeviceOp _ 1); [done|].
  case_bool_decide; [done|].
  destruct (assign_devices_check_returns _ _ _ Hassign) as [[|] Hpassed];
    by rewrite Hpassed in *.
Qed.

Lemma TrySeparate_one_place (graph : Graph) (op_to_dev_idx : gmap OpPtr Z) :
  assign_devices (FilterByNodeWrapper graph) 0 ∅ = Some (1, op_to_dev_idx) →
  TrySeparateToMultipleSingleDeviceGraphs graph = (Returned [], graph).
Proof.
  intros Hassign. unfold TrySeparateToMultipleSingleDeviceGraphs.
  rewrite Hassign. destruct (ContainMultiDeviceOp _ 1); [done|].
  case_bool_decide; [done|].
  by destruct (assign_devices_check_returns _ _ _ Hassign) as [[|] ->].
Qed.

(** X1. The program scan returns true exactly when a block from
    [begin_block_idx] on has an op of a multi-device type.  It returns false
    when [begin_block_idx] is past the last block; a scan that finds an op
    finds it from every earlier start too; and the scan from block 1 does
    not depend on the top-level block. *)
Theorem ContainMultiDeviceOp_scan (program : ProgramDesc)
    (begin_block_idx : nat) :
  (ContainMultiDeviceOp program begin_block_idx = true ↔
   ∃ block_idx block op_desc,
     (begin_block_idx ≤ block_idx)%nat ∧ program !! block_idx = Some block
     ∧ op_desc ∈ AllOps block ∧ DescType op_desc ∈ kMultiDeviceOps)
  ∧ ((length program ≤ begin_block_idx)%nat →
     ContainMultiDeviceOp program begin_block_idx = false)
  ∧ (∀ earlier, (earlier ≤ begin_block_idx)%nat →
       ContainMultiDeviceOp program begin_block_idx = true →
       ContainMultiDeviceOp program earlier = true)
  ∧ (∀ top top',
       ContainMultiDeviceOp (top :: program) 1
       = ContainMultiDeviceOp (top' :: program) 1).
Proof.
  split_and!.
  - apply ContainMultiDeviceOp_true.
  - intros Hpast. unfold ContainMultiDeviceOp. by rewrite drop_ge.
  - intros earlier Hle
      (block_idx & block & op_desc & Hidx & Hrest)%ContainMultiDeviceOp_true.
    apply ContainMultiDeviceOp_true. exists block_idx, block, op_desc.
    split; [lia|done].
  - done.
Qed.

Lemma ContainMultiDeviceOp_scan_witness :
  ContainMultiDeviceOp Examples.program_with_send 1 = true
  ∧ ContainMultiDeviceOp Examples.program_with_send 2 = false
  ∧ ContainMultiDeviceOp Examples.program_with_send 0 = true.
Proof.
  destruct (ContainMultiDeviceOp_scan Examples.program_with_send 1)
    as (Hiff & _ & Hearlier & _).
  destruct (ContainMultiDeviceOp_scan Examples.program_with_send 2)
    as (_ & Hpast & _).
  assert (ContainMultiDeviceOp Examples.program_with_send 1 = true) as Hfound.
  { apply Hiff.
    exists 1%nat,
      {| AllOps := [ {| DescType := "relu" |}; {| DescType := "send" |} ] |},
      {| DescType := "send" |}.
    split_and!; [lia|done|by right; left|by vm_compute]. }
  split_and!; [done|apply Hpast; simpl; lia|apply Hearlier; [lia|done]].
Defined.

(** X2. An op gets the determined device index [dev_idx] exactly when its
    own scope index is [dev_idx] and every named variable among its inputs
    and outputs is recorded on [dev_idx]; the dummy variables do not count. *)
Theorem GetUniqueDeviceIdOfOp_determined_iff (op : OpHandleBase) (dev_idx : Z) :
  dev_idx ≠ kUndefinedDevIdx →
  (GetUniqueDeviceIdOfOp op = dev_idx ↔
   GetScopeIdxFromOp op = dev_idx
   ∧ ∀ var name scope_idx,
       var ∈ Inputs op ++ Outputs op →
       var_kind var = VarHandle name scope_idx → scope_idx = dev_idx).
Proof.
  intros Hdet. unfold GetUniqueDeviceIdOfOp; simpl. split.
  - destruct (Z.eqb_spec (GetScopeIdxFromOp op) kUndefinedDevIdx) as [|Hown];
      [congruence|].
    intros Hunique.
    destruct (unique_dev_idx_of_vars_cases (GetScopeIdxFromOp op)
                (Inputs op ++ Outputs op)) as [Hundet|Hsame]; [congruence|].
    assert (GetScopeIdxFromOp op = dev_idx) as Hscope by congruence.
    split; [done|]. rewrite <- Hscope.
    by apply unique_dev_idx_of_vars_agree.
  - intros [Hscope Hagree]. rewrite Hscope.
    destruct (Z.eqb_spec dev_idx kUndefinedDevIdx); [done|].
    by apply unique_dev_idx_of_vars_all_agree.
Qed.

Lemma GetUniqueDeviceIdOfOp_determined_iff_witness :
  GetUniqueDeviceIdOfOp Examples.second1 = 1.
Proof.
  apply (GetUniqueDeviceIdOfOp_determined_iff Examples.second1 1);
    [by vm_compute|].
  split; [by vm_compute|].
  intros var name scope_idx Hin Hkind.
  apply elem_of_cons in Hin as [->|Hin]; [done|].
  by apply elem_of_nil in Hin.
Defined.

(** ** The abort decision *)

(** The pass returns the empty sequence exactly when one of its abort
    conditions holds. *)
Lemma TrySeparate_empty_conditions (graph : Graph) :
  (TrySeparateToMultipleSingleDeviceGraphs graph).1 = Returned [] ↔
  ContainMultiDeviceOp (OriginProgram graph) 1 = true
  ∨ FilterByNodeWrapper graph = []
  ∨ (∃ op, OpNode op ∈ Nodes graph
           ∧ GetUniqueDeviceIdOfOp op = kUndefinedDevIdx)
  ∨ (∃ place_num op_to_dev_idx,
       assign_devices (FilterByNodeWrapper graph) 0 ∅
         = Some (place_num, op_to_dev_idx)
       ∧ (check_dependencies op_to_dev_idx (FilterByNodeWrapper graph)
            = Returned false
          ∨ place_num = 1)).
Proof.
  split.
  - intros Hempty.
    destruct (ContainMultiDeviceOp (OriginProgram graph) 1) eqn:Hprogram;
      [by left|].
    destruct (decide (FilterByNodeWrapper graph = [])) as [|Hops];
      [by right; left|].
    destruct (assign_devices (FilterByNodeWrapper graph) 0 ∅)
      as [[place_num op_to_dev_idx]|] eqn:Hassign.
    + do 3 right. exists place_num, op_to_dev_idx. split; [done|].
      destruct (assign_devices_check_returns _ _ _ Hassign) as [[|] Hcheck];
        [|by left].
      right. destruct (decide (place_num = 1)) as [|Hne]; [done|exfalso].
      destruct (Z.le_gt_cases 1 place_num) as [Hge|Hlt].
      * assert (separable graph place_num op_to_dev_idx) as Hsep
          by (split; [done..|lia]).
        rewrite (TrySeparate_separable _ _ _ Hsep) in Hempty. simpl in Hempty.
        destruct (transfer _ _ _) as [[gs|e] s'] eqn:Htransfer;
          simpl in Hempty; [|done].
        injection Hempty as ->.
        destruct (separable_length _ _ _ _ _ Hsep Htransfer) as [_ Hlen].
        simpl in Hlen. lia.
      * unfold TrySeparateToMultipleSingleDeviceGraphs in Hempty.
        rewrite Hprogram, Hassign, Hcheck in Hempty.
        rewrite bool_decide_eq_false_2 in Hempty by done.
        destruct (Z.leb_spec 1 place_num); [lia|done].
    + right. right. left.
      destruct (assign_devices_None _ _ _ Hassign) as (op & Hin & Hundet).
      exists op. by rewrite <- elem_of_FilterByNodeWrapper.
  - intros [Hprogram|[Hnone|[(op & Hin & Hundet)
      |(place_num & op_to_dev_idx & Hassign & [Hfalse| ->])]]].
    + by rewrite TrySeparate_program_veto.
    + by rewrite TrySeparate_no_ops.
    + by rewrite (TrySeparate_undetermined _ _ Hin Hundet).
    + rewrite (TrySeparate_check_failed _ _ _ Hassign); [done|congruence].
    + by rewrite (TrySeparate_one_place _ _ Hassign).
Qed.

(** X3. The pass returns the empty sequence exactly when one of its abort
    conditions holds: a multi-device op in a sub-block of the program, no op
    node, an op node that is not determined, a failed dependency check, or
    a single device. *)
Theorem TrySeparate_empty_iff (graph : Graph) :
  (TrySeparateToMultipleSingleDeviceGraphs graph).1 = Returned [] ↔
  ContainMultiDeviceOp (OriginProgram graph) 1 = true
  ∨ FilterByNodeWrapper graph = []
  ∨ (∃ op, OpNode op ∈ Nodes graph
           ∧ GetUniqueDeviceIdOfOp op = kUndefinedDevIdx)
  ∨ (∃ place_num op_to_dev_idx,
       assign_devices (FilterByNodeWrapper graph) 0 ∅
         = Some (place_num, op_to_dev_idx)
       ∧ (check_dependencies op_to_dev_idx (FilterByNodeWrapper graph)
            = Returned false
          ∨ place_num = 1)).
Proof. apply TrySeparate_empty_conditions. Qed.

(** X4. Neither look-up [op_to_dev_idx.at(op)] of the pass can fail: once
    the first loop has gone through, every op handle is a key of the map,
    the value at an op handle is the device index of an op with that handle,
    and the dependency check returns. *)
Theorem op_to_dev_idx_at_defined (graph : Graph) (place_num : Z)
    (op_to_dev_idx : gmap OpPtr Z) :
  assign_devices (FilterByNodeWrapper graph) 0 ∅
    = Some (place_num, op_to_dev_idx) →
  (∀ op, OpNode op ∈ Nodes graph →
     ∃ dev_idx op',
       op_to_dev_idx !! op_this op = Some dev_idx
       ∧ OpNode op' ∈ Nodes graph ∧ op_this op' = op_this op
       ∧ GetUniqueDeviceIdOfOp op' = dev_idx)
  ∧ (∀ p, is_Some (op_to_dev_idx !! p) ↔
          ∃ op, OpNode op ∈ Nodes graph ∧ op_this op = p)
  ∧ (∃ passed,
       check_dependencies op_to_dev_idx (FilterByNodeWrapper graph)
       = Returned passed).
Proof.
  intros Hassign.
  destruct (assign_devices_map _ _ _ _ _ Hassign) as (Hkeys & Hbind & _).
  split_and!.
  - intros op Hin%elem_of_FilterByNodeWrapper.
    destruct (Hkeys op Hin) as [dev_idx Hdev].
    destruct (Hbind _ _ Hdev) as [Hempty|(op' & Hin' & Hthis & Hdev')];
      [by rewrite lookup_empty in Hempty|].
    exists dev_idx, op'. by rewrite <- elem_of_FilterByNodeWrapper.
  - intros p. split.
    + intros [dev_idx Hdev].
      destruct (Hbind _ _ Hdev) as [Hempty|(op & Hin & Hthis & _)];
        [by rewrite lookup_empty in Hempty|].
      exists op. by rewrite <- elem_of_FilterByNodeWrapper.
    + intros (op & Hin%elem_of_FilterByNodeWrapper & <-). by apply Hkeys.
  - by eapply assign_devices_check_returns.
Qed.

(** X5. When the pass returns graphs, every op node is determined, on the
    device index of its own scope; it is a computation op whose type is not
    a multi-device type, an eager-deletion handle or a share-tensor-buffer
    handle; and every named variable among its inputs and outputs is
    recorded on the device index of the op. *)
Theorem TrySeparate_success_ops (graph graph' : Graph) (gs : list Graph) :
  TrySeparateToMultipleSingleDeviceGraphs graph = (Returned gs, graph') →
  gs ≠ [] →
  ContainMultiDeviceOp (OriginProgram graph) 1 = false
  ∧ ∀ op, OpNode op ∈ Nodes graph →
      GetUniqueDeviceIdOfOp op ≠ kUndefinedDevIdx
      ∧ GetUniqueDeviceIdOfOp op = GetScopeIdxFromOp op
      ∧ GetScopeIdx (op_kind op) = Some (GetUniqueDeviceIdOfOp op)
      ∧ (∀ compute_op scope_idx,
           op_kind op = ComputationOpHandle compute_op scope_idx →
           OpType compute_op ∉ kMultiDeviceOps)
      ∧ (∀ var name scope_idx,
           var ∈ Inputs op ++ Outputs op →
           var_kind var = VarHandle name scope_idx →
           scope_idx = GetUniqueDeviceIdOfOp op).
Proof.
  intros [[-> _]|(place_num & op_to_dev_idx & s' & Hsep & _)]
    %TrySeparate_Returned Hne; [done|].
  destruct Hsep as [Hprogram _ Hassign _ _]. split; [done|].
  intros op Hin%elem_of_FilterByNodeWrapper.
  pose proof (assign_devices_determined _ _ _ _ _ Hassign op Hin) as Hdet.
  destruct (GetUniqueDeviceIdOfOp_cases op) as [|[Heq Hown]]; [done|].
  split_and!; [done|done| | |].
  - rewrite Heq. by apply GetScopeIdxFromOp_determined.
  - intros compute_op scope_idx Hkind Hmulti.
    apply Hown. unfold GetScopeIdxFromOp. rewrite Hkind.
    by rewrite kMultiDeviceOps_count_zero, bool_decide_eq_true_2.
  - intros var name scope_idx Hvar Hkind.
    destruct (decide (scope_idx = GetScopeIdxFromOp op)) as [|Hne'];
      [congruence|].
    by rewrite (GetUniqueDeviceIdOfOp_mismatch _ _ _ _ Hvar Hkind Hne') in Hdet.
Qed.

Lemma TrySeparate_success_ops_witness :
  ContainMultiDeviceOp (OriginProgram Examples.two_device_graph) 1 = false
  ∧ ∀ op, OpNode op ∈ Nodes Examples.two_device_graph →
      GetUniqueDeviceIdOfOp op ≠ kUndefinedDevIdx
      ∧ GetUniqueDeviceIdOfOp op = GetScopeIdxFromOp op
      ∧ GetScopeIdx (op_kind op) = Some (GetUniqueDeviceIdOfOp op)
      ∧ (∀ compute_op scope_idx,
           op_kind op = ComputationOpHandle compute_op scope_idx →
           OpType compute_op ∉ kMultiDeviceOps)
      ∧ (∀ var name scope_idx,
           var ∈ Inputs op ++ Outputs op →
           var_kind var = VarHandle name scope_idx →
           scope_idx = GetUniqueDeviceIdOfOp op).
Proof.
  assert (TrySeparateToMultipleSingleDeviceGraphs Examples.two_device_graph
    = (Returned (returned_graphs
         (TrySeparateToMultipleSingleDeviceGraphs Examples.two_device_graph)),
       (TrySeparateToMultipleSingleDeviceGraphs Examples.two_device_graph).2))
    as Hrun by (vm_compute; reflexivity).
  apply (TrySeparate_success_ops _ _ _ Hrun).
  clear. intros Heq. apply (f_equal length) in Heq.
  vm_compute in Heq. discriminate Heq.
Defined.

(** X6. The dependency check is strict.  When the pass returns graphs, the
    op that generates an input of an op node is an op handle of the graph
    with the device index of the op node, and so is every op pending on one
    of its outputs.  An op node with an input generated by an op that is no
    op handle of the graph, or with an output awaited by one, makes the pass
    return the empty sequence and leave the graph as it was. *)
Theorem TrySeparate_strict_dependencies (graph graph' : Graph)
    (gs : list Graph) :
  (TrySeparateToMultipleSingleDeviceGraphs graph = (Returned gs, graph') →
   gs ≠ [] →
   ∃ place_num op_to_dev_idx,
     assign_devices (FilterByNodeWrapper graph) 0 ∅
       = Some (place_num, op_to_dev_idx)
     ∧ ∀ op, OpNode op ∈ Nodes graph →
         ∃ dev_idx, op_to_dev_idx !! op_this op = Some dev_idx
           ∧ (∀ in_var generated_op,
                in_var ∈ Inputs op → GeneratedOp in_var = Some generated_op →
                op_to_dev_idx !! generated_op = Some dev_idx)
           ∧ (∀ out_var pending_op,
                out_var ∈ Outputs op → pending_op ∈ PendingOps out_var →
                op_to_dev_idx !! pending_op = Some dev_idx))
  ∧ (∀ op other,
       OpNode op ∈ Nodes graph →
       (∃ in_var, in_var ∈ Inputs op ∧ GeneratedOp in_var = Some other)
       ∨ (∃ out_var, out_var ∈ Outputs op ∧ other ∈ PendingOps out_var) →
       (∀ op', OpNode op' ∈ Nodes graph → op_this op' ≠ other) →
       TrySeparateToMultipleSingleDeviceGraphs graph = (Returned [], graph)).
Proof.
  split.
  - intros [[-> _]|(place_num & op_to_dev_idx & s' & Hsep & _)]
      %TrySeparate_Returned Hne; [done|].
    destruct Hsep as [_ _ Hassign Hcheck _].
    exists place_num, op_to_dev_idx. split; [done|].
    intros op Hin%elem_of_FilterByNodeWrapper.
    destruct (check_dependencies_passed _ _ Hcheck op Hin)
      as (dev_idx & Hdev & Hins & Houts).
    exists dev_idx. split; [done|].
    by rewrite inputs_on_device_true in Hins;
       rewrite outputs_on_device_true in Houts.
  - intros op other Hin%elem_of_FilterByNodeWrapper Hedge Habsent.
    destruct (assign_devices (FilterByNodeWrapper graph) 0 ∅)
      as [[place_num op_to_dev_idx]|] eqn:Hassign;
      [|by apply TrySeparate_assign_None].
    apply (TrySeparate_check_failed _ _ _ Hassign). intros Hcheck.
    destruct (check_dependencies_passed _ _ Hcheck op Hin)
      as (dev_idx & Hdev & Hins & Houts).
    rewrite inputs_on_device_true in Hins.
    rewrite outputs_on_device_true in Houts.
    assert (op_to_dev_idx !! other = Some dev_idx) as Hother.
    { destruct Hedge as [(in_var & Hvar & Hgen)|(out_var & Hvar & Hpending)];
        [by eapply Hins|by eapply Houts]. }
    destruct (assign_devices_map _ _ _ _ _ Hassign) as (_ & Hbind & _).
    destruct (Hbind _ _ Hother) as [Hempty|(op' & Hin' & Hthis & _)];
      [by rewrite lookup_empty in Hempty|].
    by apply (Habsent op'); [apply elem_of_FilterByNodeWrapper|].
Qed.

(** ** The layout of the returned graphs *)

Lemma Graph_RemoveNode_source (p : NodePtr) (g g' : Graph) (n : Node) :
  Graph_RemoveNode p g = Returned (n, g') →
  node_ptr n = p ∧ attrs g' = attrs g ∧ OriginProgram g' = OriginProgram g.
Proof.
  intros (? & _ & ? & ?)%Graph_RemoveNode_Returned. done.
Qed.

Lemma Graph_AddNode_program (n : Node) (g g' : Graph) :
  Graph_AddNode n g = Returned g' →
  Nodes g' = Nodes g ++ [n] ∧ attrs g' = attrs g
  ∧ OriginProgram g' = OriginProgram g.
Proof.
  unfold Graph_AddNode. destruct (0 <? _); [done|]. by intros [= <-].
Qed.

Lemma Graph_Get_GraphVars_attrs (g g' : Graph) :
  attrs g = attrs g' → Graph_Get_GraphVars g = Graph_Get_GraphVars g'.
Proof. intros Heq. unfold Graph_Get_GraphVars, Graph_Get. by rewrite Heq. Qed.

Lemma Graph_Get_GraphVars_Returned (g : Graph)
    (vars : list (gmap string (list VarPtr))) :
  Graph_Get_GraphVars g = Returned vars ↔
  attrs g !! kGraphVars = Some (GraphVarsAttr vars).
Proof.
  unfold Graph_Get_GraphVars, Graph_Get.
  destruct (attrs g !! kGraphVars) as [[]|]; split; intros; by simplify_eq.
Qed.

Lemma Graph_Get_GraphDepVars_Returned (g : Graph) (dep_vars : gset VarPtr) :
  Graph_Get_GraphDepVars g = Returned dep_vars ↔
  attrs g !! kGraphDepVars = Some (GraphDepVarsAttr dep_vars).
Proof.
  unfold Graph_Get_GraphDepVars, Graph_Get.
  destruct (attrs g !! kGraphDepVars) as [[]|]; split; intros; by simplify_eq.
Qed.

Lemma device_graph_attrs_same (graph : Graph) (op_to_dev_idx : gmap OpPtr Z)
    (op_handles : list OpHandleBase) (i : nat) (g g' : Graph) :
  attrs g' = attrs g → OriginProgram g' = OriginProgram g →
  device_graph_attrs graph op_to_dev_idx op_handles i g →
  device_graph_attrs graph op_to_dev_idx op_handles i g'.
Proof.
  intros Hattrs Hprogram [? ? ? ?]. split; by rewrite ?Hattrs, ?Hprogram.
Qed.

Section layout.
Variable graph : Graph.
Variable op_to_dev_idx : gmap OpPtr Z.
Variable op_handles : list OpHandleBase.

Local Abbreviation lay := (layout_inv graph op_to_dev_idx op_handles).
Local Abbreviation shape :=
  (device_graph_attrs graph op_to_dev_idx op_handles).

Lemma device_graph_attrs_fresh (i : nat) : shape i fresh_graph.
Proof.
  split.
  - done.
  - exists ∅. split; [done|]. by intros name entry ?.
  - exists ∅. split; [done|]. intros v Hv. by apply not_elem_of_empty in Hv.
  - intros name Hvars Hdeps. unfold fresh_graph; simpl.
    by rewrite !lookup_insert_ne, lookup_empty.
Qed.

Lemma layout_inv_init (k : nat) :
  lay [] {| source := graph; graphs := replicate k fresh_graph |}.
Proof.
  split; simpl; try done.
  - intros i g n [-> _]%lookup_replicate Hn. by apply elem_of_nil in Hn.
  - by intros i p ?%elem_of_nil.
  - intros i g [-> _]%lookup_replicate. apply device_graph_attrs_fresh.
Qed.

Lemma layout_inv_weaken (placed placed' : list (nat * NodePtr)) (s : Store) :
  placed' ⊆ placed → lay placed s → lay placed' s.
Proof.
  intros Hsub [? ? ? Hplaced ?]. split; try done.
  intros i p Hin. by apply Hplaced, Hsub.
Qed.

Lemma layout_inv_write_attrs (placed : list (nat * NodePtr)) (s : Store)
    (i : nat) (g g' : Graph) :
  lay placed s → graphs s !! i = Some g →
  Nodes g' = Nodes g → shape i g' →
  lay placed {| source := source s; graphs := <[i := g']> (graphs s) |}.
Proof.
  intros [Hattrs Hprogram Honly Hplaced Hshape] Hi Hnodes Hnew.
  assert (i < length (graphs s))%nat as Hlt by (by eapply lookup_lt_Some).
  split; simpl; try done.
  - intros j gj n Hj Hn. destruct (decide (i = j)) as [<-|Hne].
    + rewrite list_lookup_insert_eq in Hj by done. injection Hj as <-.
      rewrite Hnodes in Hn. by eapply Honly.
    + rewrite list_lookup_insert_ne in Hj by done. by eapply Honly.
  - intros j p (gj & n & Hj & Hn & Hp)%Hplaced.
    destruct (decide (i = j)) as [<-|Hne].
    + exists g', n. rewrite list_lookup_insert_eq by done.
      rewrite Hj in Hi. injection Hi as ->. by rewrite Hnodes.
    + exists gj, n. by rewrite list_lookup_insert_ne.
  - intros j gj Hj. destruct (decide (i = j)) as [<-|Hne].
    + rewrite list_lookup_insert_eq in Hj by done. by injection Hj as <-.
    + rewrite list_lookup_insert_ne in Hj by done. by apply Hshape.
Qed.

Lemma layout_inv_move (placed : list (nat * NodePtr)) (s : Store)
    (p : NodePtr) (i : nat) (n : Node) (src' g g' : Graph) :
  lay placed s → on_device op_to_dev_idx op_handles i p →
  Graph_RemoveNode p (source s) = Returned (n, src') →
  graphs s !! i = Some g → Graph_AddNode n g = Returned g' →
  lay ((i, p) :: placed)
    {| source := src'; graphs := <[i := g']> (graphs s) |}.
Proof.
  intros [Hattrs Hprogram Honly Hplaced Hshape] Hdev Hremove Hi Hadd.
  apply Graph_RemoveNode_source in Hremove as (Hptr & Hattrs' & Hprogram').
  apply Graph_AddNode_program in Hadd as (Hnodes & Hattrs_g & Hprogram_g).
  assert (i < length (graphs s))%nat as Hlt by (by eapply lookup_lt_Some).
  split; simpl.
  - congruence.
  - congruence.
  - intros j gj n' Hj Hn. destruct (decide (i = j)) as [<-|Hne].
    + rewrite list_lookup_insert_eq in Hj by done. injection Hj as <-.
      rewrite Hnodes in Hn.
      apply elem_of_app in Hn as [Hn|Hn%list_elem_of_singleton].
      * by eapply Honly.
      * by rewrite Hn, Hptr.
    + rewrite list_lookup_insert_ne in Hj by done. by eapply Honly.
  - intros j q [Heq|(gj & n' & Hj & Hn & Hq)%Hplaced]%elem_of_cons.
    + injection Heq as -> ->. exists g', n. rewrite list_lookup_insert_eq by done.
      split_and!; [done| |done]. rewrite Hnodes. apply elem_of_app.
      right. by apply list_elem_of_singleton.
    + destruct (decide (i = j)) as [<-|Hne].
      * exists g', n'. rewrite list_lookup_insert_eq by done.
        rewrite Hj in Hi. injection Hi as ->.
        split_and!; [done| |done]. rewrite Hnodes. apply elem_of_app.
        by left.
      * exists gj, n'. by rewrite list_lookup_insert_ne.
  - intros j gj Hj. destruct (decide (i = j)) as [<-|Hne].
    + rewrite list_lookup_insert_eq in Hj by done. injection Hj as <-.
      apply (device_graph_attrs_same _ _ _ _ g); [done..|by apply Hshape].
    + rewrite list_lookup_insert_ne in Hj by done. by apply Hshape.
Qed.

Lemma wp_move_node_layout (placed : list (nat * NodePtr)) (s : Store)
    (p : NodePtr) (i : nat) :
  lay placed s → on_device op_to_dev_idx op_handles i p →
  wp (move_node p i) (λ _, lay ((i, p) :: placed)) s.
Proof.
  intros Hinv Hdev. unfold move_node. apply wp_bind, wp_on_source.
  intros n src' Hremove. apply wp_write_graph. simpl.
  intros g g' Hi Hadd. by eapply (layout_inv_move _ s).
Qed.

Lemma emplace_ret_vars_shape (i : nat) (name : string)
    (entry : list VarPtr) (origin_vars : gmap string (list VarPtr))
    (op : OpHandleBase) (var : VarHandleBase) (scope_idx : Z) (g g' : Graph) :
  origin_vars_of graph !! i = Some origin_vars →
  origin_vars !! name = Some entry →
  op ∈ op_handles → i ∈ graph_index op_to_dev_idx op →
  var ∈ Inputs op ++ Outputs op → var_kind var = VarHandle name scope_idx →
  emplace_ret_vars name entry g = Returned g' →
  shape i g → shape i g'.
Proof.
  intros Horigin Hentry Hop Hi Hvar Hkind Hemplace
    [Hprogram (ret_vars & Hvars & Hfrom) Hdeps Hothers].
  unfold emplace_ret_vars in Hemplace.
  rewrite (proj2 (Graph_Get_GraphVars_Returned _ _) Hvars) in Hemplace.
  injection Hemplace as <-. split; simpl.
  - done.
  - eexists. rewrite lookup_insert_eq. split; [done|].
    destruct (ret_vars !! name) as [old|] eqn:Hold; [done|].
    intros name' entry' Hlookup. rewrite lookup_insert in Hlookup.
    case_decide as Hname; [|by apply Hfrom].
    simplify_eq. split; [by exists origin_vars|].
    by exists op, var, scope_idx.
  - by rewrite lookup_insert_ne.
  - intros name' Hne1 Hne2. rewrite lookup_insert_ne by done.
    by apply Hothers.
Qed.

Lemma emplace_ret_dummy_vars_shape (i : nat) (op : OpHandleBase)
    (var : VarHandleBase) (g g' : Graph) :
  op ∈ op_handles → i ∈ graph_index op_to_dev_idx op →
  var ∈ Inputs op ++ Outputs op → var_kind var = DummyVarHandle →
  emplace_ret_dummy_vars (var_this var) g = Returned g' →
  shape i g → shape i g'.
Proof.
  intros Hop Hi Hvar Hkind Hemplace
    [Hprogram Hvars (dep_vars & Hdeps & Hfrom) Hothers].
  unfold emplace_ret_dummy_vars in Hemplace.
  rewrite (proj2 (Graph_Get_GraphDepVars_Returned _ _) Hdeps) in Hemplace.
  injection Hemplace as <-. split; simpl.
  - done.
  - by rewrite lookup_insert_ne.
  - eexists. rewrite lookup_insert_eq. split; [done|].
    intros v [->%elem_of_singleton|Hv]%elem_of_union; [|by apply Hfrom].
    by exists op, var.
  - intros name' Hne1 Hne2. rewrite lookup_insert_ne by done.
    by apply Hothers.
Qed.

Lemma wp_handler_layout (placed : list (nat * NodePtr)) (s : Store)
    (i : nat) (origin_vars : gmap string (list VarPtr))
    (vars : list VarHandleBase) (op : OpHandleBase) :
  lay placed s → op ∈ op_handles → i ∈ graph_index op_to_dev_idx op →
  origin_vars_of graph !! i = Some origin_vars →
  (∀ var, var ∈ vars → var ∈ Inputs op ++ Outputs op) →
  wp (handler i origin_vars vars) (λ _, lay placed) s.
Proof.
  intros Hinv Hop Hi Horigin Hvars. unfold handler.
  apply (wp_for_each (λ _, lay placed)); [done|].
  intros done var rest s' Hsplit Hdone.
  assert (var ∈ Inputs op ++ Outputs op) as Hvar.
  { apply Hvars. rewrite Hsplit. apply elem_of_app. right. by left. }
  assert (on_device op_to_dev_idx op_handles i (var_Node var)) as Hdev.
  { exists op. split_and!; [done..|]. unfold touched_nodes.
    rewrite !elem_of_union, !elem_of_list_to_set.
    apply elem_of_app in Hvar as [Hvar|Hvar];
      [left; right|right]; by apply list_elem_of_fmap_2. }
  apply wp_bind, wp_read_source. intros present [= <-].
  rewrite Graph_count_pos. case_bool_decide as Hpresent; [|by apply wp_ret].
  apply wp_bind. eapply wp_mono; [by apply wp_move_node_layout|].
  simpl. intros [] s'' Hmoved.
  apply (layout_inv_weaken _ placed) in Hmoved;
    [|by intros x Hx; right].
  destruct (var_kind var) as [name scope_idx|] eqn:Hkind.
  - destruct (origin_vars !! name) as [entry|] eqn:Hentry; [|apply wp_raise].
    apply wp_write_graph. intros g g' Hg Hemplace.
    eapply layout_inv_write_attrs; [done..| |].
    + by eapply emplace_ret_vars_Nodes.
    + eapply emplace_ret_vars_shape; [done..|].
      by eapply (lay_shape _ _ _ _ _ Hmoved).
  - apply wp_write_graph. intros g g' Hg Hemplace.
    eapply layout_inv_write_attrs; [done..| |].
    + by eapply emplace_ret_dummy_vars_Nodes.
    + eapply emplace_ret_dummy_vars_shape; [done..|].
      by eapply (lay_shape _ _ _ _ _ Hmoved).
Qed.

Lemma wp_transfer_op_layout (placed : list (nat * NodePtr)) (s : Store)
    (op : OpHandleBase) :
  lay placed s → op ∈ op_handles →
  wp (transfer_op op_to_dev_idx op)
     (λ _ s', ∃ i, i ∈ graph_index op_to_dev_idx op
                   ∧ lay ((i, op_Node op) :: placed) s') s.
Proof.
  intros Hinv Hop. unfold transfer_op.
  destruct (op_to_dev_idx !! op_this op) as [dev_idx|] eqn:Hdev;
    [|apply wp_raise].
  assert (Z.to_nat dev_idx ∈ graph_index op_to_dev_idx op) as Hi.
  { unfold graph_index. rewrite Hdev. by apply elem_of_singleton. }
  apply wp_bind, wp_read_graph. intros _ _ _ _.
  apply wp_bind, wp_read_graph. intros _ _ _ _.
  apply wp_bind, wp_read_source. intros origin_vars Horigin.
  assert (origin_vars_of graph !! Z.to_nat dev_idx = Some origin_vars)
    as Horigin'.
  { unfold origin_vars_of.
    rewrite <- (Graph_Get_GraphVars_attrs (source s) graph)
      by apply (lay_attrs _ _ _ _ _ Hinv).
    destruct (Graph_Get_GraphVars (source s)) as [vars|e]; [|done].
    unfold index_GraphVars in Horigin.
    by destruct (vars !! Z.to_nat dev_idx); simplify_eq. }
  apply wp_bind. eapply wp_mono.
  { apply wp_move_node_layout; [done|]. exists op. split_and!; [done..|].
    unfold touched_nodes. set_solver. }
  simpl. intros [] s1 Hmoved.
  apply wp_bind. eapply wp_mono.
  { eapply (wp_handler_layout _ _ _ _ _ op); [done..|].
    intros var Hvar. apply elem_of_app. by left. }
  simpl. intros [] s2 Hins.
  eapply wp_mono.
  { eapply (wp_handler_layout _ _ _ _ _ op); [done..|].
    intros var Hvar. apply elem_of_app. by right. }
  simpl. intros [] s3 Houts. by exists (Z.to_nat dev_idx).
Qed.

Lemma wp_transfer_loop_layout (s : Store) :
  lay [] s →
  wp (for_each op_handles (transfer_op op_to_dev_idx))
     (λ _ s', ∃ placed,
        lay placed s'
        ∧ ∀ op, op ∈ op_handles →
            ∃ i, i ∈ graph_index op_to_dev_idx op
                 ∧ (i, op_Node op) ∈ placed) s.
Proof.
  intros Hinit.
  apply (wp_for_each
    (λ done s', ∃ placed,
       lay placed s'
       ∧ ∀ op, op ∈ done →
           ∃ i, i ∈ graph_index op_to_dev_idx op ∧ (i, op_Node op) ∈ placed)).
  { exists []. split; [done|]. by intros op ?%elem_of_nil. }
  intros done op rest s' Hsplit (placed & Hinv & Hdone).
  eapply wp_mono.
  { apply wp_transfer_op_layout; [done|].
    rewrite Hsplit. apply elem_of_app. right. by left. }
  simpl. intros [] s'' (i & Hi & Hinv').
  exists ((i, op_Node op) :: placed). split; [done|].
  intros op' [Hin| ->%list_elem_of_singleton]%elem_of_app.
  - destruct (Hdone op' Hin) as (j & Hj & Hplaced). exists j.
    split; [done|by right].
  - exists i. split; [done|by left].
Qed.
End layout.

Lemma Graph_Set_program (name : AttrName) (v : AttrValue) (g g' : Graph) :
  Graph_Set name v g = Returned g' → OriginProgram g' = OriginProgram g.
Proof. unfold Graph_Set. destruct (Graph_Has name g); [done|]. by intros [= <-]. Qed.

Lemma Graph_Erase_program (name : AttrName) (g g' : Graph) :
  Graph_Erase name g = Returned g' → OriginProgram g' = OriginProgram g.
Proof. unfold Graph_Erase. destruct (Graph_Has name g); [|done]. by intros [= <-]. Qed.

Lemma CopyGraphAttrIfExists_program (src dst dst' : Graph) (name : AttrName) :
  CopyGraphAttrIfExists src dst name = Returned dst' →
  OriginProgram dst' = OriginProgram dst.
Proof.
  unfold CopyGraphAttrIfExists. destruct (Graph_Has name src);
    [|by intros [= <-]].
  destruct (Graph_Get name src) as [[]|]; destruct name; try done;
    apply Graph_Set_program.
Qed.

(** What the last loop makes of a graph of the transfer loop. *)
Lemma attrs_copied_returned (graph src : Graph)
    (op_to_dev_idx : gmap OpPtr Z) (op_handles : list OpHandleBase)
    (i : nat) (g g' : Graph) :
  attrs src !! kProgramDescs = attrs graph !! kProgramDescs →
  attrs src !! kFusedVars = attrs graph !! kFusedVars →
  attrs_copied src g g' →
  device_graph_attrs graph op_to_dev_idx op_handles i g →
  returned_graph_attrs graph op_to_dev_idx op_handles i g'.
Proof.
  intros Hdescs Hfused (g1 & Hcopy1 & Hcopy2)
    [Hprogram (ret_vars & Hvars & Hfrom) (dep_vars & Hdeps & Hops) Hothers].
  pose proof (CopyGraphAttrIfExists_program _ _ _ _ Hcopy1) as Hprogram1.
  pose proof (CopyGraphAttrIfExists_program _ _ _ _ Hcopy2) as Hprogram2.
  apply CopyGraphAttrIfExists_Returned in Hcopy1 as [_ Hattrs1].
  apply CopyGraphAttrIfExists_Returned in Hcopy2 as [_ Hattrs2].
  pose proof (Hothers kProgramDescs ltac:(done) ltac:(done)) as Hno_descs.
  pose proof (Hothers kFusedVars ltac:(done) ltac:(done)) as Hno_fused.
  assert (∀ name, attrs g !! kOtherAttr name = None) as Hno_other
    by (intros name; by apply Hothers).
  assert (∀ name, name ≠ kProgramDescs → name ≠ kFusedVars →
            attrs g' !! name = attrs g !! name) as Hkeep.
  { intros name Hne1 Hne2.
    destruct Hattrs1 as [[_ Heq1]|(v1 & _ & _ & Heq1)],
             Hattrs2 as [[_ Heq2]|(v2 & _ & _ & Heq2)];
      rewrite Heq2, Heq1, ?lookup_insert_ne; done. }
  assert (attrs g' !! kProgramDescs = attrs src !! kProgramDescs) as Hcopy1.
  { destruct Hattrs1 as [[Hnone1 Heq1]|(v1 & Hsome1 & _ & Heq1)],
             Hattrs2 as [[_ Heq2]|(v2 & _ & _ & Heq2)];
      rewrite Heq2, Heq1, ?(lookup_insert_ne _ kFusedVars) by done;
      rewrite ?lookup_insert_eq; congruence. }
  assert (attrs g' !! kFusedVars = attrs src !! kFusedVars) as Hcopy2.
  { destruct Hattrs1 as [[_ Heq1]|(v1 & _ & _ & Heq1)],
             Hattrs2 as [[Hnone2 Heq2]|(v2 & Hsome2 & _ & Heq2)];
      rewrite Heq2, ?lookup_insert_eq; [|done| |done];
      rewrite Heq1, ?(lookup_insert_ne _ kProgramDescs) by done; congruence. }
  split.
  - congruence.
  - exists ret_vars. split; [|done]. by rewrite Hkeep.
  - exists dep_vars. split; [|done]. by rewrite Hkeep.
  - congruence.
  - congruence.
  - intros name. by rewrite Hkeep.
Qed.

(** Where a transfer that returns has put the nodes, and the attributes it
    has given to the graphs. *)
Lemma transfer_layout (graph : Graph) (k : nat)
    (op_to_dev_idx : gmap OpPtr Z) (op_handles : list OpHandleBase)
    (gs : list Graph) (s' : Store) :
  transfer op_to_dev_idx op_handles
    {| source := graph; graphs := replicate k fresh_graph |}
    = (Returned gs, s') →
  OriginProgram (source s') = OriginProgram graph
  ∧ (∀ i g n, gs !! i = Some g → n ∈ Nodes g →
       on_device op_to_dev_idx op_handles i (node_ptr n))
  ∧ (∀ op, op ∈ op_handles →
       ∃ i g n, i ∈ graph_index op_to_dev_idx op ∧ gs !! i = Some g
                ∧ n ∈ Nodes g ∧ node_ptr n = op_Node op)
  ∧ (∀ i g, gs !! i = Some g →
       returned_graph_attrs graph op_to_dev_idx op_handles i g).
Proof.
  revert gs s'.
  change (wp (transfer op_to_dev_idx op_handles)
    (λ gs s',
       OriginProgram (source s') = OriginProgram graph
       ∧ (∀ i g n, gs !! i = Some g → n ∈ Nodes g →
            on_device op_to_dev_idx op_handles i (node_ptr n))
       ∧ (∀ op, op ∈ op_handles →
            ∃ i g n, i ∈ graph_index op_to_dev_idx op ∧ gs !! i = Some g
                     ∧ n ∈ Nodes g ∧ node_ptr n = op_Node op)
       ∧ (∀ i g, gs !! i = Some g →
            returned_graph_attrs graph op_to_dev_idx op_handles i g))
    {| source := graph; graphs := replicate k fresh_graph |}).
  unfold transfer. apply wp_bind.
  eapply wp_mono; [apply wp_transfer_loop_layout, layout_inv_init|].
  simpl. intros [] s1 (placed & [Hattrs Hprogram Honly Hplaced Hshape] & Hops).
  apply wp_bind, wp_write_source. intros src1 Herase1.
  pose proof (Graph_Erase_program _ _ _ Herase1) as Hprogram1.
  apply Graph_Erase_Returned in Herase1 as [_ Hattrs1].
  apply wp_bind, wp_write_source. simpl. intros src2 Herase2.
  pose proof (Graph_Erase_program _ _ _ Herase2) as Hprogram2.
  apply Graph_Erase_Returned in Herase2 as [_ Hattrs2].
  apply wp_bind, wp_get_graphs. simpl.
  apply wp_bind.
  eapply wp_mono;
    [apply (wp_copy_attrs_loop {| source := src2; graphs := graphs s1 |})|].
  simpl. intros [] s2 (Hsrc & Hlen & Hcopied).
  apply wp_get_graphs.
  assert (∀ i g', graphs s2 !! i = Some g' →
            ∃ g, graphs s1 !! i = Some g ∧ attrs_copied src2 g g') as Hback.
  { intros i g' Hi.
    destruct (graphs s1 !! i) as [g|] eqn:Hi1.
    - exists g. split; [done|].
      destruct (Hcopied _ _ Hi1) as (g'' & Hi2 & Hcopy). congruence.
    - apply lookup_ge_None in Hi1. apply lookup_lt_Some in Hi. lia. }
  split_and!.
  - congruence.
  - intros i g' n (g & Hi & Hcopy)%Hback Hn.
    rewrite (attrs_copied_Nodes _ _ _ Hcopy) in Hn. by eapply Honly.
  - intros op (i & Hi & (g & n & Hg & Hn & Hp)%Hplaced)%Hops.
    destruct (Hcopied _ _ Hg) as (g' & Hg' & Hcopy).
    exists i, g', n. by rewrite (attrs_copied_Nodes _ _ _ Hcopy).
  - intros i g' (g & Hi & Hcopy)%Hback.
    apply (attrs_copied_returned graph src2 _ _ _ g); [| |done|by apply Hshape].
    + by rewrite Hattrs2, Hattrs1, Hattrs, !lookup_delete_ne.
    + by rewrite Hattrs2, Hattrs1, Hattrs, !lookup_delete_ne.
Qed.

Lemma NoDup_fmap_elem_eq {A B} (f : A → B) (l : list A) (x y : A) :
  NoDup (f <$> l) → x ∈ l → y ∈ l → f x = f y → x = y.
Proof.
  induction l as [|a l IH]; intros Hnodup Hx Hy Hf;
    [by apply elem_of_nil in Hx|].
  rewrite fmap_cons in Hnodup. apply NoDup_cons in Hnodup as [Hfresh Hnodup].
  apply elem_of_cons in Hx as [->|Hx], Hy as [->|Hy].
  - done.
  - exfalso. apply Hfresh. rewrite Hf. by apply list_elem_of_fmap_2.
  - exfalso. apply Hfresh. rewrite <- Hf. by apply list_elem_of_fmap_2.
  - by apply IH.
Qed.

(** With distinct op handles, the map holds the device index of each op. *)
Lemma assign_devices_lookup (op_handles : list OpHandleBase) (place_num : Z)
    (op_to_dev_idx : gmap OpPtr Z) (op : OpHandleBase) :
  NoDup (op_this <$> op_handles) →
  assign_devices op_handles 0 ∅ = Some (place_num, op_to_dev_idx) →
  op ∈ op_handles →
  op_to_dev_idx !! op_this op = Some (GetUniqueDeviceIdOfOp op).
Proof.
  intros Hnodup Hassign Hin.
  destruct (assign_devices_map _ _ _ _ _ Hassign) as (Hkeys & Hbind & _).
  destruct (Hkeys op Hin) as [dev_idx Hdev].
  destruct (Hbind _ _ Hdev) as [Hempty|(op' & Hin' & Hthis & Hdev')];
    [by rewrite lookup_empty in Hempty|].
  by rewrite Hdev, <- Hdev',
    (NoDup_fmap_elem_eq op_this op_handles op' op Hnodup Hin' Hin Hthis).
Qed.

Lemma op_to_dev_idx_at_defined_witness :
  ∃ passed,
    check_dependencies (<[2 := 1]> (<[1 := 0]> ∅))
      (FilterByNodeWrapper Examples.cross_device_graph) = Returned passed.
Proof.
  destruct (op_to_dev_idx_at_defined Examples.cross_device_graph 2
              (<[2 := 1]> (<[1 := 0]> ∅))) as (_ & _ & Hcheck).
  - by vm_compute.
  - exact Hcheck.
Defined.

Lemma TrySeparate_strict_dependencies_witness :
  TrySeparateToMultipleSingleDeviceGraphs MoreExamples.graph_with_outside_input
  = (Returned [], MoreExamples.graph_with_outside_input).
Proof.
  destruct (TrySeparate_strict_dependencies
              MoreExamples.graph_with_outside_input
              MoreExamples.graph_with_outside_input []) as [_ Habsent].
  apply (Habsent MoreExamples.fed0 99).
  - by left.
  - left. exists MoreExamples.outside. split; [by left|done].
  - intros op' Hin%elem_of_FilterByNodeWrapper.
    change (op' ∈ [MoreExamples.fed0; Examples.relu1]) in Hin.
    apply elem_of_cons in Hin as [->|Hin]; [done|].
    apply elem_of_cons in Hin as [->|Hin]; [done|].
    by apply elem_of_nil in Hin.
Defined.

(** The facts about a run of the pass that returns graphs, on a graph with
    distinct nodes and distinct op handles. *)
Lemma TrySeparate_placed (graph graph' : Graph) (gs : list Graph) :
  NoDup (node_ptr <$> Nodes graph) →
  NoDup (op_this <$> FilterByNodeWrapper graph) →
  TrySeparateToMultipleSingleDeviceGraphs graph = (Returned gs, graph') →
  gs ≠ [] →
  (∀ op, OpNode op ∈ Nodes graph →
     ∃ g, gs !! Z.to_nat (GetUniqueDeviceIdOfOp op) = Some g
          ∧ OpNode op ∈ Nodes g)
  ∧ (∀ i g n, gs !! i = Some g → n ∈ Nodes g →
       n ∈ Nodes graph
       ∧ ∃ op, OpNode op ∈ Nodes graph
               ∧ Z.to_nat (GetUniqueDeviceIdOfOp op) = i
               ∧ (node_ptr n = op_Node op
                  ∨ ∃ var, var ∈ Inputs op ++ Outputs op
                           ∧ node_ptr n = var_Node var))
  ∧ (∀ i g op, gs !! i = Some g → OpNode op ∈ Nodes g →
       OpNode op ∈ Nodes graph ∧ i = Z.to_nat (GetUniqueDeviceIdOfOp op)).
Proof.
  intros Hnodes Hhandles
    [[-> _]|(place_num & op_to_dev_idx & s' & Hsep & Htransfer & ->)]
    %TrySeparate_Returned Hne; [done|].
  destruct Hsep as [_ _ Hassign _ _].
  pose proof (transfer_layout _ _ _ _ _ _ Htransfer)
    as (_ & Honly & Hplaced & _).
  apply transfer_Returned in Htransfer as (_ & _ & Hperm & _); [|done].
  assert (∀ i g n, gs !! i = Some g → n ∈ Nodes g → n ∈ Nodes graph)
    as Hfrom.
  { intros i g n Hi Hn. rewrite <- Hperm. apply elem_of_app. right.
    apply elem_of_concat. exists (Nodes g). split; [|done].
    apply list_elem_of_fmap_2. by eapply list_elem_of_lookup_2. }
  assert (∀ op, op ∈ FilterByNodeWrapper graph →
            graph_index op_to_dev_idx op
            = {[Z.to_nat (GetUniqueDeviceIdOfOp op)]}) as Hindex.
  { intros op Hin. unfold graph_index.
    by rewrite (assign_devices_lookup _ _ _ _ Hhandles Hassign Hin). }
  assert (∀ op, OpNode op ∈ Nodes graph →
     ∃ g, gs !! Z.to_nat (GetUniqueDeviceIdOfOp op) = Some g
          ∧ OpNode op ∈ Nodes g) as Hops.
  { intros op Hin.
    pose proof (proj2 (elem_of_FilterByNodeWrapper _ _) Hin) as Hin'.
    destruct (Hplaced op Hin') as (i & g & n & Hi & Hg & Hn & Hp).
    rewrite (Hindex op Hin') in Hi. apply elem_of_singleton in Hi as ->.
    exists g. split; [done|].
    by rewrite <- (NoDup_fmap_elem_eq node_ptr (Nodes graph) n (OpNode op)
                     Hnodes (Hfrom _ _ _ Hg Hn) Hin Hp). }
  split_and!.
  - done.
  - intros i g n Hi Hn. split; [by eapply Hfrom|].
    destruct (Honly i g n Hi Hn) as (op & Hin & Hidx & Htouched).
    rewrite (Hindex op Hin) in Hidx. apply elem_of_singleton in Hidx.
    exists op. split_and!; [by apply elem_of_FilterByNodeWrapper|done|].
    unfold touched_nodes in Htouched.
    rewrite !elem_of_union, elem_of_singleton, !elem_of_list_to_set
      in Htouched.
    destruct Htouched as [[->|(var & -> & Hvar)%list_elem_of_fmap]
                         |(var & -> & Hvar)%list_elem_of_fmap];
      [by left|right; exists var..];
      (split; [|done]); apply elem_of_app; [by left|by right].
  - intros i g op Hi Hn. pose proof (Hfrom _ _ _ Hi Hn) as Hin.
    split; [done|]. destruct (Hops op Hin) as (g' & Hg' & Hn').
    assert (NoDup (node_ptr <$> concat (Nodes <$> gs))) as Hdisj.
    { rewrite <- Hperm, fmap_app in Hnodes.
      by apply NoDup_app in Hnodes as (_ & _ & ?). }
    apply (NoDup_concat_lookup node_ptr (Nodes <$> gs) _ _
             (Nodes g) (Nodes g') (OpNode op) (OpNode op) Hdisj);
      [by rewrite list_lookup_fmap, Hi|by rewrite list_lookup_fmap, Hg'
      |done..].
Qed.

(** X7. Placement.  On a graph with distinct nodes and distinct op handles,
    when the pass returns graphs, every op node is in the graph at the
    index of its device; every node of the graph at index [i] comes from
    the given graph and is the node of an op of device [i], or of an input
    or output of one; and the op nodes of the graph at index [i] are of
    device [i]. *)
Theorem TrySeparate_placement (graph graph' : Graph) (gs : list Graph) :
  NoDup (node_ptr <$> Nodes graph) →
  NoDup (op_this <$> FilterByNodeWrapper graph) →
  TrySeparateToMultipleSingleDeviceGraphs graph = (Returned gs, graph') →
  gs ≠ [] →
  (∀ op, OpNode op ∈ Nodes graph →
     ∃ g, gs !! Z.to_nat (GetUniqueDeviceIdOfOp op) = Some g
          ∧ OpNode op ∈ Nodes g)
  ∧ (∀ i g n, gs !! i = Some g → n ∈ Nodes g →
       n ∈ Nodes graph
       ∧ ∃ op, OpNode op ∈ Nodes graph
               ∧ Z.to_nat (GetUniqueDeviceIdOfOp op) = i
               ∧ (node_ptr n = op_Node op
                  ∨ ∃ var, var ∈ Inputs op ++ Outputs op
                           ∧ node_ptr n = var_Node var))
  ∧ (∀ i g op, gs !! i = Some g → OpNode op ∈ Nodes g →
       OpNode op ∈ Nodes graph ∧ i = Z.to_nat (GetUniqueDeviceIdOfOp op)).
Proof. apply TrySeparate_placed. Qed.

(** X8. The returned graphs are closed under the dependencies.  On a graph
    with distinct nodes and distinct op handles, when the pass returns
    graphs, the op that generates an input of an op node of a returned
    graph is the handle of an op node of the same graph, and so is every op
    pending on one of its outputs. *)
Theorem TrySeparate_dependency_closed (graph graph' : Graph)
    (gs : list Graph) :
  NoDup (node_ptr <$> Nodes graph) →
  NoDup (op_this <$> FilterByNodeWrapper graph) →
  TrySeparateToMultipleSingleDeviceGraphs graph = (Returned gs, graph') →
  gs ≠ [] →
  ∀ i g op, gs !! i = Some g → OpNode op ∈ Nodes g →
    (∀ in_var generated_op,
       in_var ∈ Inputs op → GeneratedOp in_var = Some generated_op →
       ∃ op', op_this op' = generated_op ∧ OpNode op' ∈ Nodes g)
    ∧ (∀ out_var pending_op,
         out_var ∈ Outputs op → pending_op ∈ PendingOps out_var →
         ∃ op', op_this op' = pending_op ∧ OpNode op' ∈ Nodes g).
Proof.
  intros Hnodes Hhandles Hrun Hne i g op Hi Hn.
  destruct (TrySeparate_placed _ _ _ Hnodes Hhandles Hrun Hne)
    as (Hops & _ & Hdev).
  destruct (Hdev _ _ _ Hi Hn) as [Hin ->].
  apply TrySeparate_Returned in Hrun
    as [[-> _]|(place_num & op_to_dev_idx & s' & Hsep & _)]; [done|].
  destruct Hsep as [_ _ Hassign Hcheck _].
  apply elem_of_FilterByNodeWrapper in Hin.
  destruct (check_dependencies_passed _ _ Hcheck op Hin)
    as (dev_idx & Hop & Hins & Houts).
  rewrite (assign_devices_lookup _ _ _ _ Hhandles Hassign Hin) in Hop.
  injection Hop as <-.
  rewrite inputs_on_device_true in Hins.
  rewrite outputs_on_device_true in Houts.
  destruct (assign_devices_map _ _ _ _ _ Hassign) as (_ & Hbind & _).
  assert (∀ other,
    op_to_dev_idx !! other = Some (GetUniqueDeviceIdOfOp op) →
    ∃ op', op_this op' = other ∧ OpNode op' ∈ Nodes g) as Hsame.
  { intros other Hother.
    destruct (Hbind _ _ Hother) as [Hempty|(op' & Hin' & Hthis & Hdev')];
      [by rewrite lookup_empty in Hempty|].
    exists op'. split; [done|].
    destruct (Hops op') as (g' & Hg' & Hn');
      [by apply elem_of_FilterByNodeWrapper|].
    rewrite Hdev', Hi in Hg'. by injection Hg' as <-. }
  split.
  - intros in_var generated_op Hvar Hgen. by eapply Hsame, Hins.
  - intros out_var pending_op Hvar Hpending. by eapply Hsame, Houts.
Qed.

(** X9. What is left of the given graph.  When the pass returns graphs, the
    given graph has lost its two tables, [kGraphVars] and [kGraphDepVars],
    and has kept every other attribute and its program. *)
Theorem TrySeparate_source_after (graph graph' : Graph) (gs : list Graph) :
  TrySeparateToMultipleSingleDeviceGraphs graph = (Returned gs, graph') →
  gs ≠ [] →
  attrs graph' !! kGraphVars = None
  ∧ attrs graph' !! kGraphDepVars = None
  ∧ (∀ name, name ≠ kGraphVars → name ≠ kGraphDepVars →
       attrs graph' !! name = attrs graph !! name)
  ∧ OriginProgram graph' = OriginProgram graph.
Proof.
  intros [[-> _]|(place_num & op_to_dev_idx & s' & _ & Htransfer & ->)]
    %TrySeparate_Returned Hne; [done|].
  pose proof (transfer_layout _ _ _ _ _ _ Htransfer) as (Hprogram & _).
  apply transfer_Returned in Htransfer as (_ & -> & _); [|done].
  split_and!; [by simplify_map_eq..| |done].
  intros name Hne1 Hne2. by rewrite !lookup_delete_ne.
Qed.

(** X10. The attributes of the returned graphs.  When the pass returns
    graphs, the graph at index [i] has the program of a new graph and the
    attributes of [returned_graph_attrs]: a table of variables for one
    device, whose entries are entries of the table of the given graph for
    the device [i], under the names of named variables of ops that go to
    the graph; a set of dependency variables that are dummy variables of
    ops that go to the graph; the attributes [kProgramDescs] and
    [kFusedVars] as the given graph has them; and no other attribute. *)
Theorem TrySeparate_returned_attrs (graph graph' : Graph) (gs : list Graph) :
  TrySeparateToMultipleSingleDeviceGraphs graph = (Returned gs, graph') →
  gs ≠ [] →
  ∃ place_num op_to_dev_idx,
    assign_devices (FilterByNodeWrapper graph) 0 ∅
      = Some (place_num, op_to_dev_idx)
    ∧ ∀ i g, gs !! i = Some g →
        returned_graph_attrs graph op_to_dev_idx
          (FilterByNodeWrapper graph) i g.
Proof.
  intros [[-> _]|(place_num & op_to_dev_idx & s' & Hsep & Htransfer & ->)]
    %TrySeparate_Returned Hne; [done|].
  exists place_num, op_to_dev_idx. split; [by destruct Hsep|].
  by pose proof (transfer_layout _ _ _ _ _ _ Htransfer) as (_ & _ & _ & ?).
Qed.

(** X11. The two read-op scans together.  On a graph whose read ops carry
    the attribute, the graph has a read op exactly when one of the two
    scans returns true. *)
Theorem HasReadOp_either (graph : Graph) :
  read_ops_declared graph →
  ((∃ op, OpNode op ∈ Nodes graph ∧ has_read_type op) ↔
   HasDropLastReadOp graph = Returned true
   ∨ HasKeepLastReadOp graph = Returned true).
Proof.
  intros Hdecl.
  unfold HasDropLastReadOp, HasKeepLastReadOp, HasDropLastReadOpImpl.
  assert (∀ op drop_last, is_read_op drop_last op → has_read_type op)
    as Htype.
  { intros op drop_last (compute_op & scope_idx & Hkind & Hread & _).
    by exists compute_op, scope_idx. }
  split.
  - intros (op & Hin & Hread).
    destruct (Hdecl op Hin Hread) as [drop_last Hop].
    apply elem_of_FilterByNodeWrapper in Hin.
    assert (has_read_op (FilterByNodeWrapper graph) drop_last = Returned true)
      as Hscan.
    { destruct (has_read_op_declared (FilterByNodeWrapper graph) drop_last)
        as [|[_ Hnone]]; [|done|by destruct (Hnone op)].
      intros op' Hin'. by apply Hdecl, elem_of_FilterByNodeWrapper. }
    destruct drop_last; [by left|by right].
  - intros [Hscan|Hscan]; apply has_read_op_true in Hscan
      as (op & Hin & Hread); exists op;
      (split; [by apply elem_of_FilterByNodeWrapper|by eapply Htype]).
Qed.

(** ** The order of the nodes *)

Lemma assign_devices_Permutation (op_handles op_handles' : list OpHandleBase) :
  op_handles ≡ₚ op_handles' → NoDup (op_this <$> op_handles) →
  assign_devices op_handles 0 ∅ = assign_devices op_handles' 0 ∅.
Proof.
  intros Hperm Hnodup.
  assert (NoDup (op_this <$> op_handles')) as Hnodup' by (by rewrite <- Hperm).
  destruct (assign_devices op_handles 0 ∅) as [[place_num m]|] eqn:Hassign,
    (assign_devices op_handles' 0 ∅) as [[place_num' m']|] eqn:Hassign'.
  - f_equal. f_equal.
    + destruct (assign_devices_place_num _ _ _ _ _ Hassign)
        as (Hle & Hub & Hmax).
      destruct (assign_devices_place_num _ _ _ _ _ Hassign')
        as (Hle' & Hub' & Hmax').
      assert (place_num ≤ place_num').
      { destruct Hmax as [->|(op & Hin & ->)]; [done|].
        apply Hub'. by rewrite <- Hperm. }
      assert (place_num' ≤ place_num).
      { destruct Hmax' as [->|(op & Hin & ->)]; [done|].
        apply Hub. by rewrite Hperm. }
      lia.
    + apply map_eq. intros p. apply option_eq. intros dev_idx.
      destruct (assign_devices_map _ _ _ _ _ Hassign) as (_ & Hbind & _).
      destruct (assign_devices_map _ _ _ _ _ Hassign') as (_ & Hbind' & _).
      split; intros Hdev.
      * destruct (Hbind _ _ Hdev) as [Hempty|(op & Hin & <- & <-)];
          [by rewrite lookup_empty in Hempty|].
        apply (assign_devices_lookup _ _ _ _ Hnodup' Hassign').
        by rewrite <- Hperm.
      * destruct (Hbind' _ _ Hdev) as [Hempty|(op & Hin & <- & <-)];
          [by rewrite lookup_empty in Hempty|].
        apply (assign_devices_lookup _ _ _ _ Hnodup Hassign).
        by rewrite Hperm.
  - destruct (assign_devices_None _ _ _ Hassign') as (op & Hin & Hundet).
    rewrite <- Hperm in Hin.
    by rewrite (assign_devices_undetermined _ _ _ _ Hin Hundet) in Hassign.
  - destruct (assign_devices_None _ _ _ Hassign) as (op & Hin & Hundet).
    rewrite Hperm in Hin.
    by rewrite (assign_devices_undetermined _ _ _ _ Hin Hundet) in Hassign'.
  - done.
Qed.

Lemma check_dependencies_all (op_to_dev_idx : gmap OpPtr Z)
    (op_handles : list OpHandleBase) :
  (∀ op, op ∈ op_handles →
     ∃ dev_idx, op_to_dev_idx !! op_this op = Some dev_idx
       ∧ inputs_on_device op_to_dev_idx dev_idx (Inputs op) = true
       ∧ outputs_on_device op_to_dev_idx dev_idx (Outputs op) = true) →
  check_dependencies op_to_dev_idx op_handles = Returned true.
Proof.
  induction op_handles as [|op rest IH]; intros Hall; simpl; [done|].
  destruct (Hall op) as (dev_idx & -> & -> & ->); [by left|]. simpl.
  apply IH. intros op' Hin. apply Hall. by right.
Qed.

Lemma check_dependencies_Permutation (op_to_dev_idx : gmap OpPtr Z)
    (op_handles op_handles' : list OpHandleBase) :
  op_handles ≡ₚ op_handles' →
  (∀ op, op ∈ op_handles → is_Some (op_to_dev_idx !! op_this op)) →
  check_dependencies op_to_dev_idx op_handles
  = check_dependencies op_to_dev_idx op_handles'.
Proof.
  intros Hperm Hkeys.
  assert (∀ l l', l ≡ₚ l' →
    check_dependencies op_to_dev_idx l = Returned true →
    check_dependencies op_to_dev_idx l' = Returned true) as Htrue.
  { intros l l' Hl Hcheck. apply check_dependencies_all. intros op Hin.
    apply (check_dependencies_passed _ _ Hcheck). by rewrite Hl. }
  destruct (check_dependencies_returns op_to_dev_idx op_handles Hkeys)
    as [passed Hcheck].
  destruct (check_dependencies_returns op_to_dev_idx op_handles')
    as [passed' Hcheck'].
  { intros op Hin. apply Hkeys. by rewrite Hperm. }
  rewrite Hcheck, Hcheck'. destruct passed, passed'; try done.
  - by rewrite (Htrue _ _ Hperm Hcheck) in Hcheck'.
  - symmetry in Hperm. by rewrite (Htrue _ _ Hperm Hcheck') in Hcheck.
Qed.

(** The outcome of the two loops does not depend on the order of the
    nodes. *)
Lemma loops_Permutation (graph graph' : Graph) :
  Nodes graph ≡ₚ Nodes graph' →
  NoDup (op_this <$> FilterByNodeWrapper graph) →
  FilterByNodeWrapper graph ≡ₚ FilterByNodeWrapper graph'
  ∧ assign_devices (FilterByNodeWrapper graph) 0 ∅
    = assign_devices (FilterByNodeWrapper graph') 0 ∅
  ∧ ∀ place_num op_to_dev_idx,
      assign_devices (FilterByNodeWrapper graph) 0 ∅
        = Some (place_num, op_to_dev_idx) →
      check_dependencies op_to_dev_idx (FilterByNodeWrapper graph)
      = check_dependencies op_to_dev_idx (FilterByNodeWrapper graph').
Proof.
  intros Hperm Hnodup.
  assert (FilterByNodeWrapper graph ≡ₚ FilterByNodeWrapper graph') as Hops.
  { unfold FilterByNodeWrapper. by rewrite Hperm. }
  split_and!; [done|by apply assign_devices_Permutation|].
  intros place_num op_to_dev_idx Hassign.
  apply check_dependencies_Permutation; [done|].
  by destruct (assign_devices_map _ _ _ _ _ Hassign) as [? _].
Qed.

Lemma TrySeparate_empty_Permutation (graph graph' : Graph) :
  Nodes graph ≡ₚ Nodes graph' →
  OriginProgram graph = OriginProgram graph' →
  NoDup (op_this <$> FilterByNodeWrapper graph) →
  (TrySeparateToMultipleSingleDeviceGraphs graph).1 = Returned [] →
  (TrySeparateToMultipleSingleDeviceGraphs graph').1 = Returned [].
Proof.
  intros Hperm Hprogram Hnodup.
  destruct (loops_Permutation _ _ Hperm Hnodup) as (Hops & Hassign & Hcheck).
  rewrite !TrySeparate_empty_conditions.
  intros [Hveto|[Hnone|[(op & Hin & Hundet)
    |(place_num & op_to_dev_idx & Hsome & Habort)]]].
  - left. by rewrite <- Hprogram.
  - right. left. rewrite Hnone in Hops. by apply Permutation_nil_l in Hops.
  - right. right. left. exists op. by rewrite <- Hperm.
  - do 3 right. exists place_num, op_to_dev_idx.
    by rewrite <- Hassign, <- (Hcheck _ _ Hsome).
Qed.

(** X12. The order of the nodes.  For two graphs with the same program and
    the same nodes in two orders, with distinct op handles, the pass
    returns the empty sequence for the one exactly when it does for the
    other, and when it returns graphs for both, it returns as many. *)
Theorem TrySeparate_order_independent (graph graph' : Graph) :
  Nodes graph ≡ₚ Nodes graph' →
  OriginProgram graph = OriginProgram graph' →
  NoDup (op_this <$> FilterByNodeWrapper graph) →
  ((TrySeparateToMultipleSingleDeviceGraphs graph).1 = Returned [] ↔
   (TrySeparateToMultipleSingleDeviceGraphs graph').1 = Returned [])
  ∧ (∀ gs gs' rest rest',
       TrySeparateToMultipleSingleDeviceGraphs graph = (Returned gs, rest) →
       TrySeparateToMultipleSingleDeviceGraphs graph' = (Returned gs', rest') →
       length gs = length gs').
Proof.
  intros Hperm Hprogram Hnodup.
  destruct (loops_Permutation _ _ Hperm Hnodup) as (Hops & Hassign & _).
  split.
  - split; apply TrySeparate_empty_Permutation; try done.
    by rewrite <- Hops.
  - intros gs gs' rest rest' Hrun Hrun'.
    assert (gs = [] ↔ gs' = []) as Hempty.
    { pose proof (TrySeparate_empty_Permutation _ _ Hperm Hprogram Hnodup)
        as Hto.
      assert (NoDup (op_this <$> FilterByNodeWrapper graph')) as Hnodup'
        by (by rewrite <- Hops).
      symmetry in Hperm. symmetry in Hprogram.
      pose proof (TrySeparate_empty_Permutation _ _ Hperm Hprogram Hnodup')
        as Hfrom.
      rewrite Hrun, Hrun' in Hto, Hfrom. simpl in Hto, Hfrom.
      split; intros ->.
      - specialize (Hto eq_refl). by injection Hto.
      - specialize (Hfrom eq_refl). by injection Hfrom. }
    apply TrySeparate_Returned in Hrun
      as [[-> _]|(place_num & m & s & Hsep & Htransfer & _)].
    { by rewrite (proj1 Hempty eq_refl). }
    apply TrySeparate_Returned in Hrun'
      as [[-> _]|(place_num' & m' & s' & Hsep' & Htransfer' & _)].
    { by rewrite (proj2 Hempty eq_refl). }
    destruct (separable_length _ _ _ _ _ Hsep Htransfer) as [Hlen _].
    destruct (separable_length _ _ _ _ _ Hsep' Htransfer') as [Hlen' _].
    destruct Hsep as [_ _ Hsome _ _], Hsep' as [_ _ Hsome' _ _].
    rewrite Hassign, Hsome' in Hsome. injection Hsome as -> ->. lia.
Qed.

(** X13. The index [graphs[dev_idx]] is within the vector.  When the scope
    indices fit a [size_t] and the first loop has gone through, every
    device index of the map is at least 0 and less than [place_num], the
    size of the vector of graphs. *)
Theorem graphs_index_in_range (graph : Graph) (place_num : Z)
    (op_to_dev_idx : gmap OpPtr Z) :
  (∀ op, OpNode op ∈ Nodes graph → scope_idx_fits op) →
  assign_devices (FilterByNodeWrapper graph) 0 ∅
    = Some (place_num, op_to_dev_idx) →
  ∀ p dev_idx, op_to_dev_idx !! p = Some dev_idx →
    0 ≤ dev_idx < place_num
    ∧ (Z.to_nat dev_idx < length (replicate (Z.to_nat place_num) fresh_graph))%nat.
Proof.
  intros Hfits Hassign p dev_idx Hdev.
  destruct (assign_devices_map _ _ _ _ _ Hassign) as (_ & Hbind & _).
  destruct (Hbind _ _ Hdev) as [Hempty|(op & Hin & _ & <-)];
    [by rewrite lookup_empty in Hempty|].
  destruct (assign_devices_place_num _ _ _ _ _ Hassign) as (_ & Hub & _).
  specialize (Hub op Hin).
  pose proof (assign_devices_determined _ _ _ _ _ Hassign op Hin) as Hdet.
  apply GetUniqueDeviceIdOfOp_range in Hdet;
    [|by apply Hfits, elem_of_FilterByNodeWrapper].
  rewrite size_t_wrap_succ in Hub by done.
  rewrite length_replicate. lia.
Qed.

Lemma graphs_index_in_range_witness :
  0 ≤ 1 < 2
  ∧ (Z.to_nat 1 < length (replicate (Z.to_nat 2) fresh_graph))%nat.
Proof.
  refine (graphs_index_in_range Examples.two_device_graph 2
            (<[2 := 1]> (<[1 := 0]> ∅)) _ _ 2 1 _).
  - intros op Hin%elem_of_FilterByNodeWrapper scope_idx Hscope.
    change (op ∈ [Examples.relu0; Examples.relu1]) in Hin.
    apply elem_of_cons in Hin as [->|Hin];
      [injection Hscope as <-; unfold is_size_t; lia|].
    apply elem_of_cons in Hin as [->|Hin];
      [injection Hscope as <-; unfold is_size_t; lia|].
    by apply elem_of_nil in Hin.
  - by vm_compute.
  - by vm_compute.
Defined.

(** X14. The read-op scans and the order of the nodes.  On a graph whose
    read ops carry the attribute, the result of a scan is the same for the
    same nodes in another order. *)
Theorem HasReadOp_order_independent (graph graph' : Graph) (drop_last : bool) :
  Nodes graph ≡ₚ Nodes graph' →
  read_ops_declared graph →
  HasDropLastReadOpImpl graph drop_last
  = HasDropLastReadOpImpl graph' drop_last.
Proof.
  intros Hperm Hdecl. unfold HasDropLastReadOpImpl.
  assert (FilterByNodeWrapper graph ≡ₚ FilterByNodeWrapper graph') as Hops.
  { unfold FilterByNodeWrapper. by rewrite Hperm. }
  assert (∀ op, op ∈ FilterByNodeWrapper graph → has_read_type op →
            ∃ b, is_read_op b op) as Hdecl1.
  { intros op Hin. by apply Hdecl, elem_of_FilterByNodeWrapper. }
  assert (∀ op, op ∈ FilterByNodeWrapper graph' → has_read_type op →
            ∃ b, is_read_op b op) as Hdecl2.
  { intros op Hin. apply Hdecl1. by rewrite Hops. }
  destruct (has_read_op_declared _ drop_last Hdecl1) as [Hscan|[Hscan Hnone]],
    (has_read_op_declared _ drop_last Hdecl2) as [Hscan'|[Hscan' Hnone']];
    rewrite Hscan, Hscan'; try done.
  - apply has_read_op_true in Hscan as (op & Hin & Hread).
    rewrite Hops in Hin. by destruct (Hnone' op).
  - apply has_read_op_true in Hscan' as (op & Hin & Hread).
    rewrite <- Hops in Hin. by destruct (Hnone op).
Qed.

(** ** The further properties at the example graphs *)

(** The run of the pass on the linked graph. *)
Lemma linked_graph_run :
  TrySeparateToMultipleSingleDeviceGraphs MoreExamples.linked_graph
  = (Returned (returned_graphs
       (TrySeparateToMultipleSingleDeviceGraphs MoreExamples.linked_graph)),
     (TrySeparateToMultipleSingleDeviceGraphs MoreExamples.linked_graph).2).
Proof. vm_compute. reflexivity. Qed.

Lemma linked_graph_returns :
  returned_graphs
    (TrySeparateToMultipleSingleDeviceGraphs MoreExamples.linked_graph) ≠ [].
Proof.
  intros Heq. apply (f_equal length) in Heq. vm_compute in Heq.
  discriminate Heq.
Qed.

Lemma linked_graph_distinct :
  NoDup (node_ptr <$> Nodes MoreExamples.linked_graph)
  ∧ NoDup (op_this <$> FilterByNodeWrapper MoreExamples.linked_graph).
Proof. split; apply (bool_decide_unpack _); by vm_compute. Qed.

Lemma TrySeparate_placement_witness :
  ∃ g, returned_graphs
         (TrySeparateToMultipleSingleDeviceGraphs MoreExamples.linked_graph)
       !! Z.to_nat (GetUniqueDeviceIdOfOp MoreExamples.add0) = Some g
       ∧ OpNode MoreExamples.add0 ∈ Nodes g.
Proof.
  destruct linked_graph_distinct as [Hnodes Hhandles].
  destruct (TrySeparate_placement _ _ _ Hnodes Hhandles linked_graph_run
              linked_graph_returns) as (Hops & _).
  apply Hops. right. by left.
Defined.

Lemma TrySeparate_dependency_closed_witness :
  ∃ g op',
    returned_graphs
      (TrySeparateToMultipleSingleDeviceGraphs MoreExamples.linked_graph)
    !! Z.to_nat (GetUniqueDeviceIdOfOp MoreExamples.add0) = Some g
    ∧ OpNode MoreExamples.add0 ∈ Nodes g
    ∧ op_this op' = 1 ∧ OpNode op' ∈ Nodes g.
Proof.
  destruct linked_graph_distinct as [Hnodes Hhandles].
  destruct (TrySeparate_placed _ _ _ Hnodes Hhandles linked_graph_run
              linked_graph_returns) as (Hops & _).
  destruct (Hops MoreExamples.add0) as (g & Hg & Hn); [right; by left|].
  destruct (TrySeparate_dependency_closed _ _ _ Hnodes Hhandles
              linked_graph_run linked_graph_returns _ g MoreExamples.add0
              Hg Hn) as [Hins _].
  destruct (Hins MoreExamples.b 1) as (op' & Hthis & Hin');
    [by left|reflexivity|].
  exists g, op'. split_and!; [exact Hg|exact Hn|exact Hthis|exact Hin'].
Defined.

Lemma TrySeparate_source_after_witness :
  attrs (TrySeparateToMultipleSingleDeviceGraphs MoreExamples.linked_graph).2
    !! kGraphVars = None
  ∧ attrs (TrySeparateToMultipleSingleDeviceGraphs MoreExamples.linked_graph).2
      !! kFusedVars = attrs MoreExamples.linked_graph !! kFusedVars
  ∧ OriginProgram
      (TrySeparateToMultipleSingleDeviceGraphs MoreExamples.linked_graph).2
    = OriginProgram MoreExamples.linked_graph.
Proof.
  destruct (TrySeparate_source_after _ _ _ linked_graph_run
              linked_graph_returns) as (Hvars & _ & Hkept & Hprogram).
  split_and!; [exact Hvars|by apply Hkept|exact Hprogram].
Defined.

Lemma TrySeparate_returned_attrs_witness :
  ∃ place_num op_to_dev_idx,
    assign_devices (FilterByNodeWrapper MoreExamples.linked_graph) 0 ∅
      = Some (place_num, op_to_dev_idx)
    ∧ ∀ i g,
        returned_graphs
          (TrySeparateToMultipleSingleDeviceGraphs MoreExamples.linked_graph)
        !! i = Some g →
        returned_graph_attrs MoreExamples.linked_graph op_to_dev_idx
          (FilterByNodeWrapper MoreExamples.linked_graph) i g.
Proof.
  exact (TrySeparate_returned_attrs _ _ _ linked_graph_run
           linked_graph_returns).
Defined.

Lemma graph_with_read_declared : read_ops_declared Examples.graph_with_read.
Proof.
  intros op Hin%elem_of_FilterByNodeWrapper Hread.
  change (op ∈ [Examples.read_drop_last; Examples.relu0]) in Hin.
  apply elem_of_cons in Hin as [->|Hin].
  - exists true. eexists _, _. split_and!; [reflexivity..|by vm_compute].
  - apply elem_of_cons in Hin as [->|Hin]; [|by apply elem_of_nil in Hin].
    destruct Hread as (compute_op & scope_idx & Hkind & Htype).
    cbn in Hkind. by simplify_eq.
Qed.

Lemma HasReadOp_either_witness :
  HasDropLastReadOp Examples.graph_with_read = Returned true
  ∨ HasKeepLastReadOp Examples.graph_with_read = Returned true.
Proof.
  apply (HasReadOp_either _ graph_with_read_declared).
  exists Examples.read_drop_last. split; [by left|].
  by eexists _, _.
Defined.

Lemma TrySeparate_order_independent_witness :
  length (returned_graphs
            (TrySeparateToMultipleSingleDeviceGraphs Examples.two_device_graph))
  = length (returned_graphs
              (TrySeparateToMultipleSingleDeviceGraphs
                 MoreExamples.two_device_graph_reordered)).
Proof.
  destruct (TrySeparate_order_independent Examples.two_device_graph
              MoreExamples.two_device_graph_reordered) as [_ Hlength].
  - symmetry. apply reverse_Permutation.
  - reflexivity.
  - apply (bool_decide_unpack _). by vm_compute.
  - apply (Hlength _ _
      (TrySeparateToMultipleSingleDeviceGraphs Examples.two_device_graph).2
      (TrySeparateToMultipleSingleDeviceGraphs
         MoreExamples.two_device_graph_reordered).2);
      clear; vm_compute; reflexivity.
Defined.

Lemma HasReadOp_order_independent_witness :
  HasDropLastReadOpImpl Examples.graph_with_read true
  = HasDropLastReadOpImpl MoreExamples.graph_with_read_reordered true.
Proof.
  apply HasReadOp_order_independent.
  - symmetry. apply reverse_Permutation.
  - exact graph_with_read_declared.
Defined.
